(** * Retro Kart Racing: the per-frame simulation core of [game.js]

    A shallow embedding of the kart physics step, the AI step, the
    collision and checkpoint pass, the race director, the key listeners and
    the frame loop of [src/game.js], followed by theorems about them.

    Numbers.  Every JavaScript number of the engine is an IEEE double.  The
    embedding reads them as real numbers ([R]): [Math.sqrt], [Math.cos],
    [Math.sin] are the real functions, [Math.atan2] and [Math.hypot] are
    defined from them below.  Integer-valued fields that index arrays or
    count laps ([lap], [checkpoint], [lastCheckpoint], [position],
    [driftDirection]) are [Z] and are injected with [IZR] where the source
    mixes them with other numbers.  Rounding is therefore not modelled: a
    statement "up to floating-point rounding" becomes an exact statement.

    Objects.  [game.karts] is a JavaScript array of mutable objects that
    several functions reach through different references ([useItem] walks
    [game.karts] while [updatePlayerKart] holds one element).  The store is
    a [list Kart.t]; a kart object is its index in that list.

    Randomness.  [Math.random()] is an oracle [nat -> R] together with a
    counter of the draws made so far. *)

From Stdlib Require Import Reals Lra Lia ZArith String Sorting.Sorted.
From stdpp Require Import base list.

Open Scope R_scope.

(** ** JavaScript numeric primitives *)

Definition Rltb (a b : R) : bool := if Rlt_dec a b then true else false.
Definition Rleb (a b : R) : bool := if Rle_dec a b then true else false.
Definition Rgtb (a b : R) : bool := Rltb b a.

Module Math.

Definition max (a b : R) : R := Rmax a b.
Definition min (a b : R) : R := Rmin a b.
Definition abs (a : R) : R := Rabs a.
Definition hypot (a b : R) : R := sqrt (a * a + b * b).

(** [Math.sign]: 1, -1 or 0. *)
Definition sign (a : R) : R :=
  if Rltb 0 a then 1 else if Rltb a 0 then -1 else 0.

(** [Math.floor], integer valued. *)
Definition floor (a : R) : Z := Int_part a.

(** [Math.atan2(y, x)]: the angle in (-PI, PI] of the point (x, y); 0 at the
    origin, as in ECMAScript. *)
Definition atan2 (y x : R) : R :=
  if Rltb 0 x then atan (y / x)
  else if Rltb x 0 then
         (if Rleb 0 y then atan (y / x) + PI else atan (y / x) - PI)
  else if Rltb 0 y then PI / 2
  else if Rltb y 0 then - (PI / 2)
  else 0.

End Math.

(** ** Configuration ([CONFIG]) *)

Module CONFIG.
Definition WIDTH : R := 800.
Definition HEIGHT : R := 600.
Definition MAX_SPEED : R := 200.
Definition ACCELERATION : R := 120.
Definition DECELERATION : R := 80.
Definition BRAKE_POWER : R := 200.
Definition STEERING_BASE : R := 35 / 10.
Definition STEERING_SPEED_FACTOR : R := 7 / 10.
Definition FRICTION : R := 98 / 100.
Definition DRIFT_GRIP : R := 92 / 100.
Definition DRIFT_BOOST_RATE : R := 40.
Definition DRIFT_BOOST_MAX : R := 100.
Definition DRIFT_BOOST_SPEED : R := 50.
Definition DRIFT_BOOST_DURATION : R := 15 / 10.
Definition TRACK_CENTER_X : R := 400.
Definition TRACK_CENTER_Y : R := 300.
Definition TRACK_RADIUS_X : R := 320.
Definition TRACK_RADIUS_Y : R := 220.
Definition TRACK_WIDTH : R := 120.
Definition TOTAL_LAPS : Z := 3.
Definition CHECKPOINT_COUNT : Z := 4.
Definition AI_COUNT : Z := 3.
Definition RUBBER_BAND_STRENGTH : R := 3 / 10.
Definition POWERUP_COUNT : Z := 4.
Definition BOOST_DURATION : R := 2.
Definition SHIELD_DURATION : R := 5.
Definition SLOW_DURATION : R := 3.
Definition SLOW_FACTOR : R := 5 / 10.
Definition PIXEL_SIZE : R := 2.
End CONFIG.

(** ** Input state ([keys]) and race state ([gameState]) *)

Module Keys.

Record t : Type := mk {
  up : bool;
  down : bool;
  left : bool;
  right : bool;
  drift : bool;
  useItem : bool
}.

(** [keys.useItem = false]. *)
Definition clear_useItem (ks : t) : t :=
  mk (up ks) (down ks) (left ks) (right ks) (drift ks) false.

End Keys.

Module GameState.

Record t : Type := mk {
  running : bool;
  countdown : R;
  raceTime : R;
  finished : bool;
  winner : option nat
}.

End GameState.

(** ** Karts *)

Inductive Item : Type := boost | shield | slow.

Record Vec : Type := mkVec { vx : R; vy : R }.

Module Kart.

Record t : Type := mk {
  x : R;
  y : R;
  angle : R;
  speed : R;
  velocity : Vec;
  color : string;
  isPlayer : bool;
  name : string;
  drifting : bool;
  driftDirection : Z;
  driftBoost : R;
  driftAngleOffset : R;
  boosting : bool;
  boostTimer : R;
  slowed : bool;
  slowTimer : R;
  shielded : bool;
  shieldTimer : R;
  item : option Item;
  lap : Z;
  checkpoint : Z;
  lastCheckpoint : Z;
  totalProgress : R;
  position : Z;
  finished : bool;
  finishTime : R;
  targetAngle : R;
  aiWaypointIndex : Z;
  width : R;
  height : R;
  sparkTimer : R
}.

Definition with_x (v : R) (k : t) : t :=
  mk v (y k) (angle k) (speed k) (velocity k) (color k) (isPlayer k) (name k)
     (drifting k) (driftDirection k) (driftBoost k) (driftAngleOffset k)
     (boosting k) (boostTimer k) (slowed k) (slowTimer k) (shielded k)
     (shieldTimer k) (item k) (lap k) (checkpoint k) (lastCheckpoint k)
     (totalProgress k) (position k) (finished k) (finishTime k)
     (targetAngle k) (aiWaypointIndex k) (width k) (height k) (sparkTimer k).
Definition with_y (v : R) (k : t) : t :=
  mk (x k) v (angle k) (speed k) (velocity k) (color k) (isPlayer k) (name k)
     (drifting k) (driftDirection k) (driftBoost k) (driftAngleOffset k)
     (boosting k) (boostTimer k) (slowed k) (slowTimer k) (shielded k)
     (shieldTimer k) (item k) (lap k) (checkpoint k) (lastCheckpoint k)
     (totalProgress k) (position k) (finished k) (finishTime k)
     (targetAngle k) (aiWaypointIndex k) (width k) (height k) (sparkTimer k).
Definition with_angle (v : R) (k : t) : t :=
  mk (x k) (y k) v (speed k) (velocity k) (color k) (isPlayer k) (name k)
     (drifting k) (driftDirection k) (driftBoost k) (driftAngleOffset k)
     (boosting k) (boostTimer k) (slowed k) (slowTimer k) (shielded k)
     (shieldTimer k) (item k) (lap k) (checkpoint k) (lastCheckpoint k)
     (totalProgress k) (position k) (finished k) (finishTime k)
     (targetAngle k) (aiWaypointIndex k) (width k) (height k) (sparkTimer k).
Definition with_speed (v : R) (k : t) : t :=
  mk (x k) (y k) (angle k) v (velocity k) (color k) (isPlayer k) (name k)
     (drifting k) (driftDirection k) (driftBoost k) (driftAngleOffset k)
     (boosting k) (boostTimer k) (slowed k) (slowTimer k) (shielded k)
     (shieldTimer k) (item k) (lap k) (checkpoint k) (lastCheckpoint k)
     (totalProgress k) (position k) (finished k) (finishTime k)
     (targetAngle k) (aiWaypointIndex k) (width k) (height k) (sparkTimer k).
Definition with_velocity (v : Vec) (k : t) : t :=
  mk (x k) (y k) (angle k) (speed k) v (color k) (isPlayer k) (name k)
     (drifting k) (driftDirection k) (driftBoost k) (driftAngleOffset k)
     (boosting k) (boostTimer k) (slowed k) (slowTimer k) (shielded k)
     (shieldTimer k) (item k) (lap k) (checkpoint k) (lastCheckpoint k)
     (totalProgress k) (position k) (finished k) (finishTime k)
     (targetAngle k) (aiWaypointIndex k) (width k) (height k) (sparkTimer k).
Definition with_drifting (v : bool) (k : t) : t :=
  mk (x k) (y k) (angle k) (speed k) (velocity k) (color k) (isPlayer k) (name
     k) v (driftDirection k) (driftBoost k) (driftAngleOffset k) (boosting k)
     (boostTimer k) (slowed k) (slowTimer k) (shielded k) (shieldTimer k)
     (item k) (lap k) (checkpoint k) (lastCheckpoint k) (totalProgress k)
     (position k) (finished k) (finishTime k) (targetAngle k) (aiWaypointIndex
     k) (width k) (height k) (sparkTimer k).
Definition with_driftDirection (v : Z) (k : t) : t :=
  mk (x k) (y k) (angle k) (speed k) (velocity k) (color k) (isPlayer k) (name
     k) (drifting k) v (driftBoost k) (driftAngleOffset k) (boosting k)
     (boostTimer k) (slowed k) (slowTimer k) (shielded k) (shieldTimer k)
     (item k) (lap k) (checkpoint k) (lastCheckpoint k) (totalProgress k)
     (position k) (finished k) (finishTime k) (targetAngle k) (aiWaypointIndex
     k) (width k) (height k) (sparkTimer k).
Definition with_driftBoost (v : R) (k : t) : t :=
  mk (x k) (y k) (angle k) (speed k) (velocity k) (color k) (isPlayer k) (name
     k) (drifting k) (driftDirection k) v (driftAngleOffset k) (boosting k)
     (boostTimer k) (slowed k) (slowTimer k) (shielded k) (shieldTimer k)
     (item k) (lap k) (checkpoint k) (lastCheckpoint k) (totalProgress k)
     (position k) (finished k) (finishTime k) (targetAngle k) (aiWaypointIndex
     k) (width k) (height k) (sparkTimer k).
Definition with_driftAngleOffset (v : R) (k : t) : t :=
  mk (x k) (y k) (angle k) (speed k) (velocity k) (color k) (isPlayer k) (name
     k) (drifting k) (driftDirection k) (driftBoost k) v (boosting k)
     (boostTimer k) (slowed k) (slowTimer k) (shielded k) (shieldTimer k)
     (item k) (lap k) (checkpoint k) (lastCheckpoint k) (totalProgress k)
     (position k) (finished k) (finishTime k) (targetAngle k) (aiWaypointIndex
     k) (width k) (height k) (sparkTimer k).
Definition with_boosting (v : bool) (k : t) : t :=
  mk (x k) (y k) (angle k) (speed k) (velocity k) (color k) (isPlayer k) (name
     k) (drifting k) (driftDirection k) (driftBoost k) (driftAngleOffset k) v
     (boostTimer k) (slowed k) (slowTimer k) (shielded k) (shieldTimer k)
     (item k) (lap k) (checkpoint k) (lastCheckpoint k) (totalProgress k)
     (position k) (finished k) (finishTime k) (targetAngle k) (aiWaypointIndex
     k) (width k) (height k) (sparkTimer k).
Definition with_boostTimer (v : R) (k : t) : t :=
  mk (x k) (y k) (angle k) (speed k) (velocity k) (color k) (isPlayer k) (name
     k) (drifting k) (driftDirection k) (driftBoost k) (driftAngleOffset k)
     (boosting k) v (slowed k) (slowTimer k) (shielded k) (shieldTimer k)
     (item k) (lap k) (checkpoint k) (lastCheckpoint k) (totalProgress k)
     (position k) (finished k) (finishTime k) (targetAngle k) (aiWaypointIndex
     k) (width k) (height k) (sparkTimer k).
Definition with_slowed (v : bool) (k : t) : t :=
  mk (x k) (y k) (angle k) (speed k) (velocity k) (color k) (isPlayer k) (name
     k) (drifting k) (driftDirection k) (driftBoost k) (driftAngleOffset k)
     (boosting k) (boostTimer k) v (slowTimer k) (shielded k) (shieldTimer k)
     (item k) (lap k) (checkpoint k) (lastCheckpoint k) (totalProgress k)
     (position k) (finished k) (finishTime k) (targetAngle k) (aiWaypointIndex
     k) (width k) (height k) (sparkTimer k).
Definition with_slowTimer (v : R) (k : t) : t :=
  mk (x k) (y k) (angle k) (speed k) (velocity k) (color k) (isPlayer k) (name
     k) (drifting k) (driftDirection k) (driftBoost k) (driftAngleOffset k)
     (boosting k) (boostTimer k) (slowed k) v (shielded k) (shieldTimer k)
     (item k) (lap k) (checkpoint k) (lastCheckpoint k) (totalProgress k)
     (position k) (finished k) (finishTime k) (targetAngle k) (aiWaypointIndex
     k) (width k) (height k) (sparkTimer k).
Definition with_shielded (v : bool) (k : t) : t :=
  mk (x k) (y k) (angle k) (speed k) (velocity k) (color k) (isPlayer k) (name
     k) (drifting k) (driftDirection k) (driftBoost k) (driftAngleOffset k)
     (boosting k) (boostTimer k) (slowed k) (slowTimer k) v (shieldTimer k)
     (item k) (lap k) (checkpoint k) (lastCheckpoint k) (totalProgress k)
     (position k) (finished k) (finishTime k) (targetAngle k) (aiWaypointIndex
     k) (width k) (height k) (sparkTimer k).
Definition with_shieldTimer (v : R) (k : t) : t :=
  mk (x k) (y k) (angle k) (speed k) (velocity k) (color k) (isPlayer k) (name
     k) (drifting k) (driftDirection k) (driftBoost k) (driftAngleOffset k)
     (boosting k) (boostTimer k) (slowed k) (slowTimer k) (shielded k) v (item
     k) (lap k) (checkpoint k) (lastCheckpoint k) (totalProgress k) (position
     k) (finished k) (finishTime k) (targetAngle k) (aiWaypointIndex k) (width
     k) (height k) (sparkTimer k).
Definition with_item (v : option Item) (k : t) : t :=
  mk (x k) (y k) (angle k) (speed k) (velocity k) (color k) (isPlayer k) (name
     k) (drifting k) (driftDirection k) (driftBoost k) (driftAngleOffset k)
     (boosting k) (boostTimer k) (slowed k) (slowTimer k) (shielded k)
     (shieldTimer k) v (lap k) (checkpoint k) (lastCheckpoint k)
     (totalProgress k) (position k) (finished k) (finishTime k)
     (targetAngle k) (aiWaypointIndex k) (width k) (height k) (sparkTimer k).
Definition with_lap (v : Z) (k : t) : t :=
  mk (x k) (y k) (angle k) (speed k) (velocity k) (color k) (isPlayer k) (name
     k) (drifting k) (driftDirection k) (driftBoost k) (driftAngleOffset k)
     (boosting k) (boostTimer k) (slowed k) (slowTimer k) (shielded k)
     (shieldTimer k) (item k) v (checkpoint k) (lastCheckpoint k)
     (totalProgress k) (position k) (finished k) (finishTime k)
     (targetAngle k) (aiWaypointIndex k) (width k) (height k) (sparkTimer k).
Definition with_checkpoint (v : Z) (k : t) : t :=
  mk (x k) (y k) (angle k) (speed k) (velocity k) (color k) (isPlayer k) (name
     k) (drifting k) (driftDirection k) (driftBoost k) (driftAngleOffset k)
     (boosting k) (boostTimer k) (slowed k) (slowTimer k) (shielded k)
     (shieldTimer k) (item k) (lap k) v (lastCheckpoint k) (totalProgress k)
     (position k) (finished k) (finishTime k) (targetAngle k) (aiWaypointIndex
     k) (width k) (height k) (sparkTimer k).
Definition with_lastCheckpoint (v : Z) (k : t) : t :=
  mk (x k) (y k) (angle k) (speed k) (velocity k) (color k) (isPlayer k) (name
     k) (drifting k) (driftDirection k) (driftBoost k) (driftAngleOffset k)
     (boosting k) (boostTimer k) (slowed k) (slowTimer k) (shielded k)
     (shieldTimer k) (item k) (lap k) (checkpoint k) v (totalProgress k)
     (position k) (finished k) (finishTime k) (targetAngle k) (aiWaypointIndex
     k) (width k) (height k) (sparkTimer k).
Definition with_totalProgress (v : R) (k : t) : t :=
  mk (x k) (y k) (angle k) (speed k) (velocity k) (color k) (isPlayer k) (name
     k) (drifting k) (driftDirection k) (driftBoost k) (driftAngleOffset k)
     (boosting k) (boostTimer k) (slowed k) (slowTimer k) (shielded k)
     (shieldTimer k) (item k) (lap k) (checkpoint k) (lastCheckpoint k) v
     (position k) (finished k) (finishTime k) (targetAngle k) (aiWaypointIndex
     k) (width k) (height k) (sparkTimer k).
Definition with_position (v : Z) (k : t) : t :=
  mk (x k) (y k) (angle k) (speed k) (velocity k) (color k) (isPlayer k) (name
     k) (drifting k) (driftDirection k) (driftBoost k) (driftAngleOffset k)
     (boosting k) (boostTimer k) (slowed k) (slowTimer k) (shielded k)
     (shieldTimer k) (item k) (lap k) (checkpoint k) (lastCheckpoint k)
     (totalProgress k) v (finished k) (finishTime k) (targetAngle k)
     (aiWaypointIndex k) (width k) (height k) (sparkTimer k).
Definition with_finished (v : bool) (k : t) : t :=
  mk (x k) (y k) (angle k) (speed k) (velocity k) (color k) (isPlayer k) (name
     k) (drifting k) (driftDirection k) (driftBoost k) (driftAngleOffset k)
     (boosting k) (boostTimer k) (slowed k) (slowTimer k) (shielded k)
     (shieldTimer k) (item k) (lap k) (checkpoint k) (lastCheckpoint k)
     (totalProgress k) (position k) v (finishTime k) (targetAngle k)
     (aiWaypointIndex k) (width k) (height k) (sparkTimer k).
Definition with_finishTime (v : R) (k : t) : t :=
  mk (x k) (y k) (angle k) (speed k) (velocity k) (color k) (isPlayer k) (name
     k) (drifting k) (driftDirection k) (driftBoost k) (driftAngleOffset k)
     (boosting k) (boostTimer k) (slowed k) (slowTimer k) (shielded k)
     (shieldTimer k) (item k) (lap k) (checkpoint k) (lastCheckpoint k)
     (totalProgress k) (position k) (finished k) v (targetAngle k)
     (aiWaypointIndex k) (width k) (height k) (sparkTimer k).
Definition with_sparkTimer (v : R) (k : t) : t :=
  mk (x k) (y k) (angle k) (speed k) (velocity k) (color k) (isPlayer k) (name
     k) (drifting k) (driftDirection k) (driftBoost k) (driftAngleOffset k)
     (boosting k) (boostTimer k) (slowed k) (slowTimer k) (shielded k)
     (shieldTimer k) (item k) (lap k) (checkpoint k) (lastCheckpoint k)
     (totalProgress k) (position k) (finished k) (finishTime k)
     (targetAngle k) (aiWaypointIndex k) (width k) (height k) v.

(** [new Kart(x, y, angle, color, isPlayer, name)]. *)
Definition new (x0 y0 angle0 : R) (color0 : string) (isPlayer0 : bool)
    (name0 : string) : t :=
  mk x0 y0 angle0 0 (mkVec 0 0) color0 isPlayer0 name0
     false 0%Z 0 0 false 0 false 0 false 0 None 0%Z 0%Z (-1)%Z 0 1%Z false 0
     angle0 0%Z 24 16 0.

Definition getMaxSpeed (k : t) : R :=
  let max := CONFIG.MAX_SPEED in
  let max := if boosting k then max + CONFIG.DRIFT_BOOST_SPEED else max in
  let max := if slowed k then max * CONFIG.SLOW_FACTOR else max in
  max.

(** [update(dt, track)]: the three effect timers, then the spark timer. *)
Definition update (dt : R) (k : t) : t :=
  let k :=
    if Rgtb (boostTimer k) 0 then
      let k := with_boostTimer (boostTimer k - dt) k in
      if Rleb (boostTimer k) 0 then with_boosting false k else k
    else k in
  let k :=
    if Rgtb (slowTimer k) 0 then
      let k := with_slowTimer (slowTimer k - dt) k in
      if Rleb (slowTimer k) 0 then with_slowed false k else k
    else k in
  let k :=
    if Rgtb (shieldTimer k) 0 then
      let k := with_shieldTimer (shieldTimer k - dt) k in
      if Rleb (shieldTimer k) 0 then with_shielded false k else k
    else k in
  if drifting k then with_sparkTimer (sparkTimer k + dt) k
  else with_sparkTimer 0 k.

Definition applyBoost (k : t) : t :=
  with_driftBoost 0
    (with_boostTimer CONFIG.DRIFT_BOOST_DURATION (with_boosting true k)).

(** [hit()]: the kart after the call and the returned boolean. *)
Definition hit (k : t) : t * bool :=
  if shielded k then (with_shieldTimer 0 (with_shielded false k), false)
  else (with_speed (speed k * (3 / 10)) k, true).

End Kart.

(** Array access [a[i]] at an integer-valued index: [None] is JavaScript's
    [undefined]. *)
Definition nthZ {A : Type} (l : list A) (i : Z) : option A :=
  if (i <? 0)%Z then None else l !! Z.to_nat i.

(** ** Track *)

Record Checkpoint : Type := mkCheckpoint {
  cp_x : R; cp_y : R; cp_angle : R; cp_index : Z
}.

Record Waypoint : Type := mkWaypoint { wp_x : R; wp_y : R; wp_angle : R }.

Module Track.

Record t : Type := mk {
  centerX : R;
  centerY : R;
  radiusX : R;
  radiusY : R;
  width : R;
  checkpoints : list Checkpoint;
  waypoints : list Waypoint;
  startLine : Vec
}.

Definition waypointCount : nat := 32.

(** [new Track()]. *)
Definition new : t :=
  let centerX := CONFIG.TRACK_CENTER_X in
  let centerY := CONFIG.TRACK_CENTER_Y in
  let radiusX := CONFIG.TRACK_RADIUS_X in
  let radiusY := CONFIG.TRACK_RADIUS_Y in
  let checkpoints :=
    (fun i : nat =>
       let angle :=
         INR i / IZR CONFIG.CHECKPOINT_COUNT * PI * 2 - PI / 2 in
       mkCheckpoint (centerX + cos angle * radiusX)
                    (centerY + sin angle * radiusY) angle (Z.of_nat i))
      <$> seq 0 (Z.to_nat CONFIG.CHECKPOINT_COUNT) in
  let waypoints :=
    (fun i : nat =>
       let angle := INR i / INR waypointCount * PI * 2 - PI / 2 in
       let variation := sin (angle * 3) * 15 in
       mkWaypoint (centerX + cos angle * (radiusX + variation))
                  (centerY + sin angle * (radiusY + variation)) angle)
      <$> seq 0 waypointCount in
  mk centerX centerY radiusX radiusY CONFIG.TRACK_WIDTH checkpoints waypoints
     (mkVec centerX (centerY - radiusY)).


Definition getTrackDistance (tr : t) (x y : R) : R :=
  let dx := (x - centerX tr) / radiusX tr in
  let dy := (y - centerY tr) / radiusY tr in
  sqrt (dx * dx + dy * dy).

(** [dist < minDist] where [minDist] starts at [Infinity] ([None]). *)
Definition below (dist : R) (minDist : option R) : bool :=
  match minDist with
  | None => true
  | Some m => Rltb dist m
  end.

(** The loop of [getNearestWaypoint]: [(nearest, minDist)] after the
    waypoints [wps], the first of which has index [i]. *)
Fixpoint nearestFrom (x y : R) (wps : list Waypoint) (i : nat)
    (acc : nat * option R) : nat * option R :=
  match wps with
  | [] => acc
  | wp :: rest =>
      let dist := Math.hypot (x - wp_x wp) (y - wp_y wp) in
      let acc := if below dist (snd acc) then (i, Some dist) else acc in
      nearestFrom x y rest (S i) acc
  end.

Definition getNearestWaypoint (tr : t) (x y : R) : nat :=
  fst (nearestFrom x y (waypoints tr) 0%nat (0%nat, None)).

(** The fractional term added to the progress score. *)
Definition proximity (kart : Kart.t) (checkpoint : Checkpoint) : R :=
  1 - Math.hypot (Kart.x kart - cp_x checkpoint)
                 (Kart.y kart - cp_y checkpoint) / 200.

(** The guarded block of [checkCheckpoint]: the crossing test. *)
Definition crosses (kart : Kart.t) (checkpoint : Checkpoint) : bool :=
  Rltb (Math.hypot (Kart.x kart - cp_x checkpoint)
                   (Kart.y kart - cp_y checkpoint)) 50
  && negb (Kart.lastCheckpoint kart =? Kart.checkpoint kart)%Z.

(** What the crossing does to the kart. *)
Definition advance (raceTime : R) (kart : Kart.t) : Kart.t :=
  let kart := Kart.with_lastCheckpoint (Kart.checkpoint kart) kart in
  let kart :=
    Kart.with_checkpoint
      (Z.rem (Kart.checkpoint kart + 1) CONFIG.CHECKPOINT_COUNT) kart in
  if (Kart.checkpoint kart =? 0)%Z
     && (Kart.lastCheckpoint kart =? CONFIG.CHECKPOINT_COUNT - 1)%Z
  then
    let kart := Kart.with_lap (Kart.lap kart + 1) kart in
    if (Kart.lap kart >=? CONFIG.TOTAL_LAPS)%Z && negb (Kart.finished kart)
    then Kart.with_finishTime raceTime (Kart.with_finished true kart)
    else kart
  else kart.

(** [checkCheckpoint(kart, prevX, prevY)], with [gameState.raceTime] made
    a parameter.  [None]: [this.checkpoints[kart.checkpoint]] is
    [undefined] and reading its [x] throws. *)
Definition checkCheckpoint (tr : t) (raceTime : R) (kart : Kart.t)
    (prevX prevY : R) : option Kart.t :=
  match nthZ (checkpoints tr) (Kart.checkpoint kart) with
  | None => None
  | Some checkpoint =>
      let kart :=
        if crosses kart checkpoint then advance raceTime kart else kart in
      Some (Kart.with_totalProgress
              (IZR (Kart.lap kart) * IZR CONFIG.CHECKPOINT_COUNT
               + IZR (Kart.checkpoint kart) + proximity kart checkpoint)
              kart)
  end.

End Track.

(** ** Power-ups *)

Module PowerUp.

Record t : Type := mk {
  x : R;
  y : R;
  active : bool;
  respawnTimer : R;
  size : R;
  bobOffset : R
}.

(** [new PowerUp(x, y)]; [r] is the draw of [Math.random()]. *)
Definition new (x0 y0 r : R) : t := mk x0 y0 true 0 24 (r * PI * 2).

Definition update (dt : R) (p : t) : t :=
  let p :=
    if negb (active p) then
      let p := mk (x p) (y p) (active p) (respawnTimer p - dt) (size p)
                  (bobOffset p) in
      if Rleb (respawnTimer p) 0
      then mk (x p) (y p) true (respawnTimer p) (size p) (bobOffset p)
      else p
    else p in
  mk (x p) (y p) (active p) (respawnTimer p) (size p) (bobOffset p + dt * 3).

Definition types : list Item := [boost; shield; slow].

(** [collect()]: the power-up after the call and the returned item; [r] is
    the draw of [Math.random()]. *)
Definition collect (r : R) (p : t) : t * option Item :=
  (mk (x p) (y p) false 5 (size p) (bobOffset p),
   nthZ types (Math.floor (r * INR (length types)))).

End PowerUp.

(** ** Item usage ([useItem]) *)

(** [game.karts] is the list [karts]; the kart is the object at index [i]. *)
Definition useItem (i : nat) (karts : list Kart.t) : list Kart.t :=
  match karts !! i with
  | None => karts
  | Some kart =>
      let item := Kart.item kart in
      let karts := <[i := Kart.with_item None kart]> karts in
      match item with
      | Some boost =>
          alter (fun k => Kart.with_boostTimer CONFIG.BOOST_DURATION
                            (Kart.with_boosting true k)) i karts
      | Some shield =>
          alter (fun k => Kart.with_shieldTimer CONFIG.SHIELD_DURATION
                            (Kart.with_shielded true k)) i karts
      | Some slow =>
          imap (fun j other =>
                  if negb (j =? i)%nat && negb (Kart.shielded other)
                  then Kart.with_slowTimer CONFIG.SLOW_DURATION
                         (Kart.with_slowed true other)
                  else other) karts
      | None => karts
      end
  end.

(** ** Physics engine: the player kart *)

(** Acceleration, then the clamp to [0, maxSpeed]. *)
Definition throttle (ks : Keys.t) (dt : R) (kart : Kart.t) : Kart.t :=
  let maxSpeed := Kart.getMaxSpeed kart in
  let kart :=
    if Keys.up ks then
      Kart.with_speed (Kart.speed kart + CONFIG.ACCELERATION * dt) kart
    else if Keys.down ks then
      Kart.with_speed (Kart.speed kart - CONFIG.BRAKE_POWER * dt) kart
    else
      Kart.with_speed
        (Kart.speed kart - CONFIG.DECELERATION * dt * (5 / 10)) kart in
  Kart.with_speed (Math.max 0 (Math.min maxSpeed (Kart.speed kart))) kart.

Definition steerRateOf (kart : Kart.t) : R :=
  let speedFactor :=
    1 - (Kart.speed kart / CONFIG.MAX_SPEED) * CONFIG.STEERING_SPEED_FACTOR in
  CONFIG.STEERING_BASE * speedFactor.

Definition steeringOf (ks : Keys.t) : Z :=
  let steering := 0%Z in
  let steering := if Keys.left ks then (-1)%Z else steering in
  let steering := if Keys.right ks then 1%Z else steering in
  steering.

(** The condition of the drift branch. *)
Definition driftHeld (ks : Keys.t) (kart : Kart.t) : bool :=
  Keys.drift ks && Rgtb (Kart.speed kart) 50
  && negb (steeringOf ks =? 0)%Z.

(** The branch taken while the drift condition holds. *)
Definition driftOn (ks : Keys.t) (dt : R) (kart : Kart.t) : Kart.t :=
  let steerRate := steerRateOf kart in
  let steering := steeringOf ks in
  let kart :=
    if negb (Kart.drifting kart) then
      Kart.with_driftDirection steering (Kart.with_drifting true kart)
    else kart in
  let kart :=
    Kart.with_driftBoost
      (Math.min CONFIG.DRIFT_BOOST_MAX
         (Kart.driftBoost kart + CONFIG.DRIFT_BOOST_RATE * dt)) kart in
  let kart :=
    Kart.with_driftAngleOffset
      (Kart.driftAngleOffset kart
       + IZR (Kart.driftDirection kart) * steerRate * (5 / 10) * dt) kart in
  let kart :=
    Kart.with_driftAngleOffset
      (Math.max (- (5 / 10)) (Math.min (5 / 10) (Kart.driftAngleOffset kart)))
      kart in
  let kart :=
    Kart.with_angle
      (Kart.angle kart + IZR steering * steerRate * (7 / 10) * dt) kart in
  Kart.with_speed (Kart.speed kart * CONFIG.DRIFT_GRIP) kart.

(** The release block: [if (kart.drifting) { ... }]. *)
Definition releaseDrift (kart : Kart.t) : Kart.t :=
  if Kart.drifting kart then
    let kart :=
      if Rgtb (Kart.driftBoost kart) 30 then Kart.applyBoost kart
      else kart in
    Kart.with_driftBoost 0
      (Kart.with_driftAngleOffset 0 (Kart.with_drifting false kart))
  else kart.

(** The branch taken otherwise: release, then normal steering. *)
Definition driftOff (ks : Keys.t) (dt : R) (kart : Kart.t) : Kart.t :=
  let steerRate := steerRateOf kart in
  let steering := steeringOf ks in
  let kart := releaseDrift kart in
  Kart.with_angle (Kart.angle kart + IZR steering * steerRate * dt) kart.

Definition driftMechanics (ks : Keys.t) (dt : R) (kart : Kart.t) : Kart.t :=
  if driftHeld ks kart then driftOn ks dt kart else driftOff ks dt kart.

(** Velocity from speed and [moveAngle], then the position update. *)
Definition integrate (moveAngle dt : R) (kart : Kart.t) : Kart.t :=
  let kart :=
    Kart.with_velocity
      (mkVec (cos moveAngle * Kart.speed kart * (5 / 10))
             (vy (Kart.velocity kart))) kart in
  let kart :=
    Kart.with_velocity
      (mkVec (vx (Kart.velocity kart))
             (sin moveAngle * Kart.speed kart * (5 / 10))) kart in
  let kart := Kart.with_x (Kart.x kart + vx (Kart.velocity kart) * dt) kart in
  Kart.with_y (Kart.y kart + vy (Kart.velocity kart) * dt) kart.

(** Everything [updatePlayerKart] does to its own kart before the item. *)
Definition drive (ks : Keys.t) (dt : R) (kart : Kart.t) : Kart.t :=
  let kart := throttle ks dt kart in
  let kart := driftMechanics ks dt kart in
  let moveAngle := Kart.angle kart + Kart.driftAngleOffset kart in
  integrate moveAngle dt kart.

Definition isSome {A : Type} (o : option A) : bool :=
  match o with Some _ => true | None => false end.

(** [updatePlayerKart(kart, dt)] on the kart at index [i]; [keys] is read
    and written, [game.karts] is written through [useItem]. *)
Definition updatePlayerKart (i : nat) (dt : R) (ks : Keys.t)
    (karts : list Kart.t) : Keys.t * list Kart.t :=
  match karts !! i with
  | None => (ks, karts)
  | Some kart =>
      if Kart.finished kart then (ks, karts)
      else
        let kart := drive ks dt kart in
        let karts := <[i := kart]> karts in
        let '(ks, karts) :=
          if Keys.useItem ks && isSome (Kart.item kart)
          then (Keys.clear_useItem ks, useItem i karts)
          else (ks, karts) in
        (ks, alter (Kart.update dt) i karts)
  end.

(** ** Physics engine: the AI karts *)

(** [while (a > Math.PI) a -= Math.PI * 2], run for at most [fuel] turns. *)
Fixpoint wrapDown (fuel : nat) (a : R) : R :=
  match fuel with
  | O => a
  | S fuel => if Rgtb a PI then wrapDown fuel (a - PI * 2) else a
  end.

(** [while (a < -Math.PI) a += Math.PI * 2], run for at most [fuel] turns. *)
Fixpoint wrapUp (fuel : nat) (a : R) : R :=
  match fuel with
  | O => a
  | S fuel => if Rltb a (- PI) then wrapUp fuel (a + PI * 2) else a
  end.

(** A number of turns that lets either loop reach its exit from [a]. *)
Definition turns (a : R) : nat := Z.to_nat (up (Rabs a / (PI * 2))).

(** The two normalisation loops in sequence. *)
Definition normalize (a : R) : R :=
  let a := wrapDown (turns a) a in
  wrapUp (turns a) a.

(** Steering toward the look-ahead waypoint. *)
Definition steerToward (target : Waypoint) (dt : R) (kart : Kart.t)
    : Kart.t :=
  let targetAngle :=
    Math.atan2 (wp_y target - Kart.y kart) (wp_x target - Kart.x kart) in
  let angleDiff := normalize (targetAngle - Kart.angle kart) in
  let steerRate := CONFIG.STEERING_BASE * (8 / 10) in
  if Rgtb (Math.abs angleDiff) (1 / 10) then
    Kart.with_angle
      (Kart.angle kart
       + Math.sign angleDiff * Math.min (Math.abs angleDiff) (steerRate * dt))
      kart
  else kart.

(** Rubber-banding: the target speed after the [if (playerKart)] block;
    [playerProgress] is [None] when there is no player kart. *)
Definition rubberBand (kart : Kart.t) (playerProgress : option R) : R :=
  let targetSpeed := CONFIG.MAX_SPEED * (85 / 100) in
  match playerProgress with
  | None => targetSpeed
  | Some pp =>
      let positionDiff := Kart.totalProgress kart - pp in
      if Rgtb positionDiff (5 / 10) then
        targetSpeed * (1 - CONFIG.RUBBER_BAND_STRENGTH * (5 / 10))
      else if Rltb positionDiff (- (5 / 10)) then
        targetSpeed * (1 + CONFIG.RUBBER_BAND_STRENGTH)
      else targetSpeed
  end.

(** One turn of the avoidance loop for the kart [other] at index [j];
    [acc] is [(kart.angle, targetSpeed)]. *)
Definition avoidOne (i : nat) (dt kx ky : R) (acc : R * R) (j : nat)
    (other : Kart.t) : R * R :=
  if (j =? i)%nat then acc
  else
    let dist := Math.hypot (Kart.x other - kx) (Kart.y other - ky) in
    let angle :=
      if Rltb dist 60 then
        let avoidAngle := Math.atan2 (ky - Kart.y other) (kx - Kart.x other) in
        let avoidDiff := normalize (avoidAngle - fst acc) in
        fst acc + Math.sign avoidDiff * (5 / 10) * dt
      else fst acc in
    let targetSpeed :=
      if Rltb dist 40 then snd acc * (9 / 10) else snd acc in
    (angle, targetSpeed).

(** The avoidance loop over [others], the first of which has index [j]. *)
Fixpoint avoidLoop (i : nat) (dt kx ky : R) (others : list Kart.t) (j : nat)
    (acc : R * R) : R * R :=
  match others with
  | [] => acc
  | other :: rest =>
      avoidLoop i dt kx ky rest (S j) (avoidOne i dt kx ky acc j other)
  end.

(** The avoidance loop of the kart at index [i] over [allKarts]: the
    heading and the target speed after it.  The target speed that enters is
    the rubber-banded one; the one that leaves is what the easing step
    compares against. *)
Definition avoidance (i : nat) (dt : R) (kart : Kart.t)
    (playerProgress : option R) (karts : list Kart.t) : R * R :=
  avoidLoop i dt (Kart.x kart) (Kart.y kart) karts 0%nat
    (Kart.angle kart, rubberBand kart playerProgress).

(** Easing toward the target speed, then the clamp. *)
Definition ease (targetSpeed dt : R) (kart : Kart.t) : Kart.t :=
  let kart :=
    if Rltb (Kart.speed kart) targetSpeed then
      Kart.with_speed
        (Kart.speed kart + CONFIG.ACCELERATION * (8 / 10) * dt) kart
    else
      Kart.with_speed
        (Kart.speed kart - CONFIG.DECELERATION * (5 / 10) * dt) kart in
  Kart.with_speed
    (Math.max 0 (Math.min (Kart.getMaxSpeed kart) (Kart.speed kart))) kart.

(** Everything [updateAIKart] does to its own kart before the item. *)
Definition driveAI (i : nat) (dt : R) (target : Waypoint)
    (playerProgress : option R) (karts : list Kart.t) (kart : Kart.t)
    : Kart.t :=
  let kart := steerToward target dt kart in
  let acc := avoidance i dt kart playerProgress karts in
  let kart := Kart.with_angle (fst acc) kart in
  let kart := ease (snd acc) dt kart in
  integrate (Kart.angle kart) dt kart.

(** [updateAIKart(kart, dt, track, playerKart, allKarts)] on the kart at
    index [i]; [playerKart] is the index of the player kart, if any.
    [None]: the look-ahead waypoint is [undefined] and reading it throws.
    The second component counts the draws of [Math.random()]. *)
Definition updateAIKart (rnd : nat -> R) (i : nat) (dt : R) (track : Track.t)
    (playerKart : option nat) (karts : list Kart.t) (draws : nat)
    : option (list Kart.t * nat) :=
  match karts !! i with
  | None => Some (karts, draws)
  | Some kart =>
      if Kart.finished kart then Some (karts, draws)
      else
        let currentWaypoint :=
          Track.getNearestWaypoint track (Kart.x kart) (Kart.y kart) in
        let targetIndex :=
          ((currentWaypoint + 3) mod length (Track.waypoints track))%nat in
        match Track.waypoints track !! targetIndex with
        | None => None
        | Some target =>
            let playerProgress :=
              match playerKart with
              | Some p => Kart.totalProgress <$> karts !! p
              | None => None
              end in
            let kart := driveAI i dt target playerProgress karts kart in
            let karts := <[i := kart]> karts in
            let '(karts, draws) :=
              if isSome (Kart.item kart) then
                if Rltb (rnd draws) (1 / 100)
                then (useItem i karts, S draws)
                else (karts, S draws)
              else (karts, draws) in
            Some (alter (Kart.update dt) i karts, draws)
        end
  end.

(** ** Collision detection ([handleCollisions]) *)

Definition innerLimit (track : Track.t) : R :=
  1 - (Track.width track / 2 - 15)
      / Math.min (Track.radiusX track) (Track.radiusY track).

Definition outerLimit (track : Track.t) : R :=
  1 + (Track.width track / 2 - 15)
      / Math.min (Track.radiusX track) (Track.radiusY track).

(** The test of the track-boundary block. *)
Definition offCorridor (track : Track.t) (kart : Kart.t) : bool :=
  let trackDist :=
    Track.getTrackDistance track (Kart.x kart) (Kart.y kart) in
  Rltb trackDist (innerLimit track) || Rgtb trackDist (outerLimit track).

(** The corridor limit the kart is sent to. *)
Definition targetDistOf (track : Track.t) (kart : Kart.t) : R :=
  let trackDist :=
    Track.getTrackDistance track (Kart.x kart) (Kart.y kart) in
  if Rltb trackDist (innerLimit track) then innerLimit track
  else outerLimit track.

(** The body of the track-boundary block: slow down and push back. *)
Definition pushBack (track : Track.t) (kart : Kart.t) : Kart.t :=
  let targetDist := targetDistOf track kart in
  let angle :=
    Math.atan2 (Kart.y kart - Track.centerY track)
               (Kart.x kart - Track.centerX track) in
  let kart := Kart.with_speed (Kart.speed kart * (7 / 10)) kart in
  let kart :=
    Kart.with_x
      (Track.centerX track + cos angle * targetDist * Track.radiusX track)
      kart in
  Kart.with_y
    (Track.centerY track + sin angle * targetDist * Track.radiusY track) kart.

Definition wallCollision (track : Track.t) (kart : Kart.t) : Kart.t :=
  if offCorridor track kart then pushBack track kart else kart.

(** The power-up loop of one kart: the kart, the draws made and the
    power-ups after it. *)
Fixpoint pickUp (rnd : nat -> R) (kart : Kart.t) (draws : nat)
    (powerUps : list PowerUp.t) : Kart.t * nat * list PowerUp.t :=
  match powerUps with
  | [] => (kart, draws, [])
  | powerUp :: rest =>
      let '(kart, draws, powerUp) :=
        if negb (PowerUp.active powerUp) then (kart, draws, powerUp)
        else if isSome (Kart.item kart) then (kart, draws, powerUp)
        else
          let dist :=
            Math.hypot (PowerUp.x powerUp - Kart.x kart)
                       (PowerUp.y powerUp - Kart.y kart) in
          if Rltb dist (PowerUp.size powerUp + 10) then
            let '(powerUp, item) := PowerUp.collect (rnd draws) powerUp in
            (Kart.with_item item kart, S draws, powerUp)
          else (kart, draws, powerUp) in
      let '(kart, draws, rest) := pickUp rnd kart draws rest in
      (kart, draws, powerUp :: rest)
  end.

(** One turn of the first loop: boundary, checkpoint, power-ups. *)
Definition resolveKart (rnd : nat -> R) (track : Track.t) (raceTime : R)
    (kart : Kart.t) (draws : nat) (powerUps : list PowerUp.t)
    : option (Kart.t * nat * list PowerUp.t) :=
  let kart := wallCollision track kart in
  match
    Track.checkCheckpoint track raceTime kart
      (Kart.x kart - vx (Kart.velocity kart) * (16 / 1000))
      (Kart.y kart - vy (Kart.velocity kart) * (16 / 1000))
  with
  | None => None
  | Some kart => Some (pickUp rnd kart draws powerUps)
  end.

(** The first loop, [for (const kart of karts)]. *)
Fixpoint resolveKarts (rnd : nat -> R) (track : Track.t) (raceTime : R)
    (karts : list Kart.t) (draws : nat) (powerUps : list PowerUp.t)
    : option (list Kart.t * nat * list PowerUp.t) :=
  match karts with
  | [] => Some ([], draws, powerUps)
  | kart :: rest =>
      match resolveKart rnd track raceTime kart draws powerUps with
      | None => None
      | Some (kart, draws, powerUps) =>
          match resolveKarts rnd track raceTime rest draws powerUps with
          | None => None
          | Some (rest, draws, powerUps) => Some (kart :: rest, draws, powerUps)
          end
      end
  end.

Definition minDist : R := 25.

(** The body of the kart-to-kart loop on the two objects [k1], [k2]. *)
Definition bumpPair (k1 k2 : Kart.t) : Kart.t * Kart.t :=
  let dist := Math.hypot (Kart.x k2 - Kart.x k1) (Kart.y k2 - Kart.y k1) in
  if Rltb dist minDist then
    let angle :=
      Math.atan2 (Kart.y k2 - Kart.y k1) (Kart.x k2 - Kart.x k1) in
    let overlap := minDist - dist in
    let k1 := Kart.with_x (Kart.x k1 - cos angle * overlap / 2) k1 in
    let k1 := Kart.with_y (Kart.y k1 - sin angle * overlap / 2) k1 in
    let k2 := Kart.with_x (Kart.x k2 + cos angle * overlap / 2) k2 in
    let k2 := Kart.with_y (Kart.y k2 + sin angle * overlap / 2) k2 in
    let speedDiff := Kart.speed k1 - Kart.speed k2 in
    let k1 := Kart.with_speed (Kart.speed k1 - speedDiff * (3 / 10)) k1 in
    let k2 := Kart.with_speed (Kart.speed k2 + speedDiff * (3 / 10)) k2 in
    (k1, k2)
  else (k1, k2).

(** The same on the store, for [karts[i]] and [karts[j]]. *)
Definition bump (i j : nat) (karts : list Kart.t) : list Kart.t :=
  match karts !! i, karts !! j with
  | Some k1, Some k2 =>
      let bumped := bumpPair k1 k2 in
      <[j := bumped.2]> (<[i := bumped.1]> karts)
  | _, _ => karts
  end.

(** The inner loop, [for (let j = i + 1; j < karts.length; j++)]. *)
Definition bumpRow (i : nat) (karts : list Kart.t) : list Kart.t :=
  fold_left (fun karts j => bump i j karts)
            (seq (S i) (length karts - S i)) karts.

(** The outer loop, [for (let i = 0; i < karts.length; i++)]. *)
Definition bumpAll (karts : list Kart.t) : list Kart.t :=
  fold_left (fun karts i => bumpRow i karts) (seq 0 (length karts)) karts.

(** [handleCollisions(karts, track, powerUps)]; [raceTime] is
    [gameState.raceTime]. *)
Definition handleCollisions (rnd : nat -> R) (karts : list Kart.t)
    (track : Track.t) (powerUps : list PowerUp.t) (raceTime : R)
    (draws : nat) : option (list Kart.t * nat * list PowerUp.t) :=
  match resolveKarts rnd track raceTime karts draws powerUps with
  | None => None
  | Some (karts, draws, powerUps) => Some (bumpAll karts, draws, powerUps)
  end.

(** ** Position calculation ([calculatePositions]) *)

Definition progressAt (karts : list Kart.t) (i : nat) : R :=
  match karts !! i with
  | Some k => Kart.totalProgress k
  | None => 0
  end.

(** [sort((a, b) => b.totalProgress - a.totalProgress)] is stable: the
    object of index [j] goes before the first one of smaller progress. *)
Fixpoint insertByProgress (karts : list Kart.t) (j : nat)
    (sorted : list nat) : list nat :=
  match sorted with
  | [] => [j]
  | e :: rest =>
      if Rltb (progressAt karts e) (progressAt karts j)
      then j :: e :: rest
      else e :: insertByProgress karts j rest
  end.

Definition sortByProgress (karts : list Kart.t) : list nat :=
  fold_left (fun sorted j => insertByProgress karts j sorted)
            (seq 0 (length karts)) [].

(** [sorted[i].position = i + 1] from rank [i] on. *)
Fixpoint assignPositions (sorted : list nat) (i : nat)
    (karts : list Kart.t) : list Kart.t :=
  match sorted with
  | [] => karts
  | idx :: rest =>
      assignPositions rest (S i)
        (alter (Kart.with_position (Z.of_nat i + 1)) idx karts)
  end.

Definition calculatePositions (karts : list Kart.t) : list Kart.t :=
  assignPositions (sortByProgress karts) 0%nat karts.

(** ** The game object *)

(** [game] (its track, karts, power-ups and [lastTime]) with the two other
    globals [gameState] and [keys] and the count of random draws. *)
Record World : Type := mkWorld {
  track : Track.t;
  karts : list Kart.t;
  powerUps : list PowerUp.t;
  lastTime : R;
  gameState : GameState.t;
  keys : Keys.t;
  draws : nat
}.

Definition kartColors : list string :=
  ["#E60012"; "#0072BC"; "#009944"; "#F39800"]%string.

Definition kartNames : list string :=
  ["Player"; "Peach"; "Luigi"; "Toad"]%string.

Definition startAngle : R := - PI / 2.

(** The kart of grid slot [i] in [reset]. *)
Definition gridKart (track : Track.t) (i : nat) : Kart.t :=
  let offset := (INR i - 15 / 10) * 30 in
  let rowOffset := IZR (Math.floor (INR i / 2)) * 40 in
  let x :=
    Track.centerX track
    + cos (startAngle - 1 / 10) * (Track.radiusX track + offset) in
  let y :=
    Track.centerY track
    + sin (startAngle - 1 / 10) * (Track.radiusY track + offset)
    + rowOffset in
  Kart.new x y (startAngle + PI / 2) (default ""%string (kartColors !! i))
    (i =? 0)%nat (default ""%string (kartNames !! i)).

(** The power-up of slot [i] in [reset]: two draws, one for the position
    and one in the constructor. *)
Definition gridPowerUp (rnd : nat -> R) (track : Track.t) (draws : nat)
    (i : nat) : PowerUp.t :=
  let angle := INR i / IZR CONFIG.POWERUP_COUNT * PI * 2 + PI / 4 in
  let variation := (rnd (draws + 2 * i)%nat - 5 / 10) * 40 in
  let x := Track.centerX track + cos angle * (Track.radiusX track + variation) in
  let y := Track.centerY track + sin angle * (Track.radiusY track + variation) in
  PowerUp.new x y (rnd (draws + 2 * i + 1)%nat).

(** [game.reset()]; [now] is [performance.now()]. *)
Definition reset (rnd : nat -> R) (now : R) (w : World) : World :=
  let track := Track.new in
  let karts := gridKart track <$> seq 0 4 in
  let n := Z.to_nat CONFIG.POWERUP_COUNT in
  let powerUps := gridPowerUp rnd track (draws w) <$> seq 0 n in
  mkWorld track karts powerUps now (GameState.mk false 3 0 false None)
          (keys w) (draws w + 2 * n)%nat.

(** [this.karts.find(k => k.isPlayer)], as an index from [i] on. *)
Fixpoint findPlayer (karts : list Kart.t) (i : nat) : option nat :=
  match karts with
  | [] => None
  | k :: rest => if Kart.isPlayer k then Some i else findPlayer rest (S i)
  end.

(** One turn of the loop that updates all karts. *)
Definition updateKart (rnd : nat -> R) (dt : R) (track : Track.t)
    (playerKart : option nat) (i : nat)
    (st : Keys.t * list Kart.t * nat) : option (Keys.t * list Kart.t * nat) :=
  let '(ks, karts, draws) := st in
  match karts !! i with
  | None => Some st
  | Some kart =>
      if Kart.isPlayer kart then
        let '(ks, karts) := updatePlayerKart i dt ks karts in
        Some (ks, karts, draws)
      else
        match updateAIKart rnd i dt track playerKart karts draws with
        | None => None
        | Some (karts, draws) => Some (ks, karts, draws)
        end
  end.

(** The loop over the kart indices [is]. *)
Fixpoint updateKarts (rnd : nat -> R) (dt : R) (track : Track.t)
    (playerKart : option nat) (indices : list nat)
    (st : Keys.t * list Kart.t * nat) : option (Keys.t * list Kart.t * nat) :=
  match indices with
  | [] => Some st
  | i :: rest =>
      match updateKart rnd dt track playerKart i st with
      | None => None
      | Some st => updateKarts rnd dt track playerKart rest st
      end
  end.

(** The part of [game.update] that runs while the race is on, from the
    race clock to the check for the race end.  [None]: an exception. *)
Definition simulate (rnd : nat -> R) (dt : R) (w : World) : option World :=
  let gs := gameState w in
  let gs :=
    GameState.mk (GameState.running gs) (GameState.countdown gs)
      (GameState.raceTime gs + dt) (GameState.finished gs)
      (GameState.winner gs) in
  let playerKart := findPlayer (karts w) 0%nat in
  match
    updateKarts rnd dt (track w) playerKart (seq 0 (length (karts w)))
      (keys w, karts w, draws w)
  with
  | None => None
  | Some (ks, karts, draws) =>
      match
        handleCollisions rnd karts (track w) (powerUps w)
          (GameState.raceTime gs) draws
      with
      | None => None
      | Some (karts, draws, powerUps) =>
          let powerUps := PowerUp.update dt <$> powerUps in
          let karts := calculatePositions karts in
          match playerKart with
          | None => None
          | Some p =>
              let gs :=
                if default false (Kart.finished <$> karts !! p) then
                  GameState.mk (GameState.running gs) (GameState.countdown gs)
                    (GameState.raceTime gs) true (GameState.winner gs)
                else gs in
              Some (mkWorld (track w) karts powerUps (lastTime w) gs ks draws)
          end
      end
  end.

(** [game.update(dt)]; [now] is the clock that [reset] reads. *)
Definition update (rnd : nat -> R) (now dt : R) (w : World) : option World :=
  let gs := gameState w in
  if Rgtb (GameState.countdown gs) 0 then
    let gs :=
      GameState.mk (GameState.running gs) (GameState.countdown gs - dt)
        (GameState.raceTime gs) (GameState.finished gs) (GameState.winner gs) in
    let gs :=
      if Rleb (GameState.countdown gs) 0 then
        GameState.mk true (GameState.countdown gs) (GameState.raceTime gs)
          (GameState.finished gs) (GameState.winner gs)
      else gs in
    Some (mkWorld (track w) (karts w) (powerUps w) (lastTime w) gs (keys w)
            (draws w))
  else if negb (GameState.running gs) then Some w
  else
    match simulate rnd dt w with
    | None => None
    | Some w =>
        if GameState.finished (gameState w) && Keys.useItem (keys w) then
          let w := reset rnd now w in
          Some (mkWorld (track w) (karts w) (powerUps w) (lastTime w)
                  (gameState w) (Keys.clear_useItem (keys w)) (draws w))
        else Some w
    end.

(** ** Input ([initInput]) *)

(** The [keydown] listener on [keys]; [code] is [e.code].  The call of
    [preventDefault] does not touch the engine. *)
Definition keydown (code : string) (ks : Keys.t) : Keys.t :=
  if (code =? "ArrowUp")%string || (code =? "KeyW")%string then
    Keys.mk true (Keys.down ks) (Keys.left ks) (Keys.right ks)
      (Keys.drift ks) (Keys.useItem ks)
  else if (code =? "ArrowDown")%string || (code =? "KeyS")%string then
    Keys.mk (Keys.up ks) true (Keys.left ks) (Keys.right ks)
      (Keys.drift ks) (Keys.useItem ks)
  else if (code =? "ArrowLeft")%string || (code =? "KeyA")%string then
    Keys.mk (Keys.up ks) (Keys.down ks) true (Keys.right ks)
      (Keys.drift ks) (Keys.useItem ks)
  else if (code =? "ArrowRight")%string || (code =? "KeyD")%string then
    Keys.mk (Keys.up ks) (Keys.down ks) (Keys.left ks) true
      (Keys.drift ks) (Keys.useItem ks)
  else if (code =? "ShiftLeft")%string || (code =? "ShiftRight")%string then
    Keys.mk (Keys.up ks) (Keys.down ks) (Keys.left ks) (Keys.right ks)
      true (Keys.useItem ks)
  else if (code =? "Space")%string then
    Keys.mk (Keys.up ks) (Keys.down ks) (Keys.left ks) (Keys.right ks)
      (Keys.drift ks) true
  else ks.

(** The [keyup] listener. *)
Definition keyup (code : string) (ks : Keys.t) : Keys.t :=
  if (code =? "ArrowUp")%string || (code =? "KeyW")%string then
    Keys.mk false (Keys.down ks) (Keys.left ks) (Keys.right ks)
      (Keys.drift ks) (Keys.useItem ks)
  else if (code =? "ArrowDown")%string || (code =? "KeyS")%string then
    Keys.mk (Keys.up ks) false (Keys.left ks) (Keys.right ks)
      (Keys.drift ks) (Keys.useItem ks)
  else if (code =? "ArrowLeft")%string || (code =? "KeyA")%string then
    Keys.mk (Keys.up ks) (Keys.down ks) false (Keys.right ks)
      (Keys.drift ks) (Keys.useItem ks)
  else if (code =? "ArrowRight")%string || (code =? "KeyD")%string then
    Keys.mk (Keys.up ks) (Keys.down ks) (Keys.left ks) false
      (Keys.drift ks) (Keys.useItem ks)
  else if (code =? "ShiftLeft")%string || (code =? "ShiftRight")%string then
    Keys.mk (Keys.up ks) (Keys.down ks) (Keys.left ks) (Keys.right ks)
      false (Keys.useItem ks)
  else if (code =? "Space")%string then
    Keys.mk (Keys.up ks) (Keys.down ks) (Keys.left ks) (Keys.right ks)
      (Keys.drift ks) false
  else ks.

(** ** The frame loop ([game.loop]) *)

(** [game.loop(currentTime)] up to the drawing; [now] is the clock that a
    restart reads. *)
Definition loop (rnd : nat -> R) (now currentTime : R) (w : World)
    : option World :=
  let dt := Math.min ((currentTime - lastTime w) / 1000) (5 / 100) in
  let w :=
    mkWorld (track w) (karts w) (powerUps w) currentTime (gameState w)
      (keys w) (draws w) in
  update rnd now dt w.

(** What the browser calls between two looks at the game: an animation
    frame or one of the two key listeners. *)
Inductive Event : Type :=
  | frame (currentTime now : R)
  | keydownEvent (code : string)
  | keyupEvent (code : string).

(** The game with [keys] replaced. *)
Definition withKeys (ks : Keys.t) (w : World) : World :=
  mkWorld (track w) (karts w) (powerUps w) (lastTime w) (gameState w) ks
    (draws w).

(** The effect of one event on the game. *)
Definition dispatch (rnd : nat -> R) (e : Event) (w : World) : option World :=
  match e with
  | frame currentTime now => loop rnd now currentTime w
  | keydownEvent code => Some (withKeys (keydown code (keys w)) w)
  | keyupEvent code => Some (withKeys (keyup code (keys w)) w)
  end.

(** The events of a session, in the order the browser delivers them. *)
Fixpoint play (rnd : nat -> R) (events : list Event) (w : World)
    : option World :=
  match events with
  | [] => Some w
  | e :: rest =>
      match dispatch rnd e w with
      | None => None
      | Some w => play rnd rest w
      end
  end.

(** * Vocabulary of the statements *)

(** The race-progress fields of a kart, with the flag that tells the player
    from the AI karts.  Only [Track.checkCheckpoint] writes them. *)
Definition race (k : Kart.t) : Z * Z * Z * R * bool * R * bool :=
  (Kart.lap k, Kart.checkpoint k, Kart.lastCheckpoint k,
   Kart.totalProgress k, Kart.finished k, Kart.finishTime k,
   Kart.isPlayer k).

(** The largest value [getMaxSpeed] can take. *)
Definition topSpeed : R := CONFIG.MAX_SPEED + CONFIG.DRIFT_BOOST_SPEED.

Definition speedOk (k : Kart.t) : Prop := 0 <= Kart.speed k <= topSpeed.

(** The target checkpoint index of the kart names a checkpoint. *)
Definition checkpointOk (track : Track.t) (k : Kart.t) : Prop :=
  (0 <= Kart.checkpoint k < Z.of_nat (length (Track.checkpoints track)))%Z.

(** The states of a race: the track has its [CHECKPOINT_COUNT] checkpoints
    and a waypoint to steer to, every target checkpoint index names a
    checkpoint, and one kart is the player's.  From such a state a tick
    runs without an exception and ends in such a state. *)
Record wellFormed (w : World) : Prop := mkWellFormed {
  wf_count :
    length (Track.checkpoints (track w)) = Z.to_nat CONFIG.CHECKPOINT_COUNT;
  wf_checkpoints : Forall (checkpointOk (track w)) (karts w);
  wf_waypoints : Track.waypoints (track w) <> [];
  wf_player : findPlayer (karts w) 0%nat <> None
}.

(** A run of ticks of the running race, one per frame, each with the [dt]
    of its frame. *)
Fixpoint run (rnd : nat -> R) (dts : list R) (w : World) : option World :=
  match dts with
  | [] => Some w
  | dt :: rest =>
      match simulate rnd dt w with
      | None => None
      | Some w => run rnd rest w
      end
  end.

(** [gameState.raceTime] as the collision pass of the tick reads it. *)
Definition raceClock (dt : R) (w : World) : R :=
  GameState.raceTime (gameState w) + dt.

(** A race to run the statements on: the track of the game, the player on
    grid slot 0 and, on grid slot 1, an AI kart that has finished after 61
    seconds; the player accelerates. *)
Definition gridWorld : World :=
  mkWorld Track.new
    [gridKart Track.new 0;
     Kart.with_finishTime 61 (Kart.with_finished true (gridKart Track.new 1))]
    [] 0 (GameState.mk true 0 0 false None)
    (Keys.mk true false false false false false) 0.

(** What the slow item of another kart does to a kart. *)
Definition slowedBy (k : Kart.t) : Kart.t :=
  Kart.with_slowTimer CONFIG.SLOW_DURATION (Kart.with_slowed true k).

(** A player holding the slow item next to an AI kart that has finished,
    and the keys with the item key down. *)
Definition slowDuel : list Kart.t :=
  [Kart.with_item (Some slow) (gridKart Track.new 0);
   Kart.with_finished true (gridKart Track.new 1)].

Definition itemKeyDown : Keys.t := Keys.mk false false false false false true.

(** The three drift fields that the release resets. *)
Definition dropView (k : Kart.t) : R * R * bool :=
  (Kart.driftAngleOffset k, Kart.driftBoost k, Kart.drifting k).

(** A kart in a drift to the right at speed 120 with charge 30.1, and the
    keys of a player who keeps accelerating and steering but lets the drift
    key go. *)
Definition chargedKart : Kart.t :=
  Kart.with_driftAngleOffset (3 / 10)
    (Kart.with_driftBoost (301 / 10)
       (Kart.with_driftDirection 1
          (Kart.with_drifting true
             (Kart.with_speed 120 (gridKart Track.new 0))))).

Definition releaseKeys : Keys.t := Keys.mk true false false true false false.

(** The same kart with charge 29.9. *)
Definition underchargedKart : Kart.t :=
  Kart.with_driftBoost (299 / 10) chargedKart.

(** The number of karts in [others], the first of which has index [j],
    that are not the kart of index [i] and are closer than 40 to
    ([kx], [ky]). *)
Fixpoint nearCount (i : nat) (kx ky : R) (others : list Kart.t) (j : nat)
    : nat :=
  match others with
  | [] => 0
  | other :: rest =>
      ((if negb (j =? i)%nat
           && Rltb (Math.hypot (Kart.x other - kx) (Kart.y other - ky)) 40
        then 1 else 0)
       + nearCount i kx ky rest (S j))%nat
  end.

(** A kart at rest at ([x], [y]), heading along the x axis. *)
Definition plainKart (x y : R) (isPlayer : bool) : Kart.t :=
  Kart.new x y 0 "#E60012" isPlayer "Kart".

(** The distance that [checkCheckpoint] measures. *)
Definition distanceTo (k : Kart.t) (c : Checkpoint) : R :=
  Math.hypot (Kart.x k - cp_x c) (Kart.y k - cp_y c).

(** A shielded kart at speed 100 that has run over the outer limit of the
    corridor on the right end of the track. *)
Definition shieldedKart : Kart.t :=
  Kart.with_shieldTimer CONFIG.SHIELD_DURATION
    (Kart.with_shielded true (Kart.with_speed 100 (plainKart 790 300 true))).

(** A player kart at full boosted speed on the right end of the centre
    line, heading along the x axis, whose boost runs out within the tick;
    the keys of a player who accelerates; and the race with that kart
    alone. *)
Definition boostKart : Kart.t :=
  Kart.with_boostTimer (1 / 100)
    (Kart.with_boosting true (Kart.with_speed 250 (plainKart 720 300 true))).

Definition throttleKeys : Keys.t := Keys.mk true false false false false false.

Definition boostWorld : World :=
  mkWorld Track.new [boostKart] [] 0 (GameState.mk true 0 0 false None)
    throttleKeys 0.

(** The distance between two karts, as the kart-to-kart loop measures it. *)
Definition separation (k1 k2 : Kart.t) : R :=
  Math.hypot (Kart.x k2 - Kart.x k1) (Kart.y k2 - Kart.y k1).




(** The slide of a drift is within half a radian. *)
Definition offsetOk (k : Kart.t) : Prop :=
  - (5 / 10) <= Kart.driftAngleOffset k <= 5 / 10.

(** The drift charge is within its range. *)
Definition chargeOk (k : Kart.t) : Prop :=
  0 <= Kart.driftBoost k <= CONFIG.DRIFT_BOOST_MAX.

(** The three timed effects of a kart. *)
Definition effects (k : Kart.t) : bool * R * bool * R * bool * R :=
  (Kart.boosting k, Kart.boostTimer k, Kart.slowed k, Kart.slowTimer k,
   Kart.shielded k, Kart.shieldTimer k).

(** An effect that is on has time left. *)
Definition timersOk (k : Kart.t) : Prop :=
  (Kart.boosting k = true -> 0 < Kart.boostTimer k)
  /\ (Kart.slowed k = true -> 0 < Kart.slowTimer k)
  /\ (Kart.shielded k = true -> 0 < Kart.shieldTimer k).



(** The distance that [getNearestWaypoint] measures. *)
Definition wayDistance (x y : R) (wp : Waypoint) : R :=
  Math.hypot (x - wp_x wp) (y - wp_y wp).

(** What the loop of [getNearestWaypoint] has established after the first
    [i] waypoints of [all]. *)
Definition nearestSoFar (x y : R) (all : list Waypoint) (i : nat)
    (acc : nat * option R) : Prop :=
  (i = 0%nat /\ acc = (0%nat, None))
  \/ exists wp,
       (acc.1 < i)%nat /\ all !! acc.1 = Some wp
       /\ acc.2 = Some (wayDistance x y wp)
       /\ (forall j wpj, (j < i)%nat -> all !! j = Some wpj ->
             wayDistance x y wp <= wayDistance x y wpj)
       /\ (forall j wpj, (j < acc.1)%nat -> all !! j = Some wpj ->
             wayDistance x y wp < wayDistance x y wpj).

(** The order of the ranking: more progress first, and of two karts with
    the same progress the one earlier in the list first. *)
Definition ahead (karts : list Kart.t) (a b : nat) : Prop :=
  progressAt karts b < progressAt karts a
  \/ (progressAt karts a = progressAt karts b /\ (a < b)%nat).

(** The guard [lastCheckpoint !== checkpoint] of the crossing test lets
    the kart through. *)
Definition guardOpen (k : Kart.t) : Prop :=
  Kart.lastCheckpoint k <> Kart.checkpoint k.

(** The kart has finished exactly when it has the laps of the race. *)
Definition finishedByLaps (k : Kart.t) : Prop :=
  Kart.finished k = true <-> (CONFIG.TOTAL_LAPS <= Kart.lap k)%Z.

(** The race fields that the crossing writes. *)
Definition laps (k : Kart.t) : Z * Z * Z * bool * R :=
  (Kart.lap k, Kart.checkpoint k, Kart.lastCheckpoint k, Kart.finished k,
   Kart.finishTime k).

(** The sum of a quantity over the karts. *)
Definition sumOf (f : Kart.t -> R) (karts : list Kart.t) : R :=
  foldr (fun k s => f k + s) 0 karts.

(** The number of animation frames among the events. *)
Fixpoint framesIn (events : list Event) : nat :=
  match events with
  | [] => 0
  | frame _ _ :: rest => S (framesIn rest)
  | _ :: rest => framesIn rest
  end.

(** The states that [reset] and the ticks keep the game in. *)
Definition sound (w : World) : Prop :=
  wellFormed w /\ Forall speedOk (karts w).

(** A player kart at rest on the last checkpoint of the game's track, one
    crossing away from its third lap, with no key down; and the race with
    that kart alone, 90 seconds in. *)
Definition lastLapKart : Kart.t :=
  Kart.with_lastCheckpoint 2
    (Kart.with_checkpoint 3 (Kart.with_lap 2 (plainKart 80 300 true))).

(** No key is down. *)
Definition noKeys : Keys.t := Keys.mk false false false false false false.

Definition lastLapWorld : World :=
  mkWorld Track.new [lastLapKart] [] 0 (GameState.mk true 0 90 false None)
    noKeys 0.

(** * Properties *)

(** ** Comparisons and clamps *)

Lemma Rltb_lt (a b : R) : Rltb a b = true <-> a < b.
Proof. unfold Rltb. destruct (Rlt_dec a b); split; intros; try easy. Qed.

Lemma Rltb_ge (a b : R) : Rltb a b = false <-> b <= a.
Proof.
  unfold Rltb. destruct (Rlt_dec a b); split; intros; try easy; lra.
Qed.

Lemma Rleb_le (a b : R) : Rleb a b = true <-> a <= b.
Proof. unfold Rleb. destruct (Rle_dec a b); split; intros; try easy. Qed.

Lemma Rleb_gt (a b : R) : Rleb a b = false <-> b < a.
Proof.
  unfold Rleb. destruct (Rle_dec a b); split; intros; try easy; lra.
Qed.

Lemma clamp_bounds (m s : R) :
  0 <= m -> 0 <= Math.max 0 (Math.min m s) <= m.
Proof.
  intros Hm. unfold Math.max, Math.min, Rmax, Rmin.
  repeat destruct Rle_dec; lra.
Qed.

Lemma hypot_axis (a : R) : 0 <= a -> Math.hypot a 0 = a.
Proof.
  intros Ha. unfold Math.hypot. replace (a * a + 0 * 0) with (a * a) by lra.
  apply sqrt_square, Ha.
Qed.

Lemma hypot_origin : Math.hypot 0 0 = 0.
Proof.
  unfold Math.hypot. replace (0 * 0 + 0 * 0) with 0 by lra. apply sqrt_0.
Qed.

Lemma getMaxSpeed_bounds (k : Kart.t) : 0 <= Kart.getMaxSpeed k <= topSpeed.
Proof.
  unfold Kart.getMaxSpeed, topSpeed, CONFIG.MAX_SPEED,
    CONFIG.DRIFT_BOOST_SPEED, CONFIG.SLOW_FACTOR.
  destruct (Kart.boosting k), (Kart.slowed k); lra.
Qed.

(** ** The normalisation loops reach their exit *)

Lemma turns_enough (a : R) : Rabs a <= INR (turns a) * (PI * 2).
Proof.
  unfold turns. pose proof PI_RGT_0 as Hpi.
  pose proof (Rabs_pos a) as Ha.
  destruct (archimed (Rabs a / (PI * 2))) as [Hup _].
  assert (Hq : 0 <= Rabs a / (PI * 2)).
  { apply Rmult_le_pos; [exact Ha|]. apply Rlt_le, Rinv_0_lt_compat. lra. }
  assert (Hz : (0 <= up (Rabs a / (PI * 2)))%Z).
  { apply le_IZR. lra. }
  rewrite INR_IZR_INZ, Z2Nat.id by exact Hz.
  apply Rlt_le in Hup.
  apply (Rmult_le_compat_r (PI * 2)) in Hup; [|lra].
  replace (Rabs a / (PI * 2) * (PI * 2)) with (Rabs a) in Hup
    by (field; lra).
  exact Hup.
Qed.

Lemma wrapDown_le (fuel : nat) (a : R) :
  a - INR fuel * (PI * 2) <= PI -> wrapDown fuel a <= PI.
Proof.
  revert a. induction fuel as [|fuel IH]; intros a Ha.
  - simpl in *. lra.
  - rewrite S_INR in Ha. simpl. unfold Rgtb.
    destruct (Rltb PI a) eqn:Hgt.
    + apply IH. lra.
    + apply Rltb_ge in Hgt. exact Hgt.
Qed.

Lemma wrapUp_ge (fuel : nat) (a : R) :
  - PI <= a + INR fuel * (PI * 2) -> - PI <= wrapUp fuel a.
Proof.
  revert a. induction fuel as [|fuel IH]; intros a Ha.
  - simpl in *. lra.
  - rewrite S_INR in Ha. simpl.
    destruct (Rltb a (- PI)) eqn:Hlt.
    + apply IH. lra.
    + apply Rltb_ge in Hlt. exact Hlt.
Qed.

Lemma wrapUp_le (fuel : nat) (a : R) : a <= PI -> wrapUp fuel a <= PI.
Proof.
  pose proof PI_RGT_0 as Hpi.
  revert a. induction fuel as [|fuel IH]; intros a Ha; simpl; [exact Ha|].
  destruct (Rltb a (- PI)) eqn:Hlt; [|exact Ha].
  apply Rltb_lt in Hlt. apply IH. lra.
Qed.

(** With the fuel of [normalize] both loops stop because their condition
    fails, not because the fuel is spent: the result is what the loops of
    the source leave, an angle between -PI and PI. *)
Lemma normalize_range (a : R) : - PI <= normalize a <= PI.
Proof.
  pose proof PI_RGT_0 as Hpi. unfold normalize.
  assert (Hdown : wrapDown (turns a) a <= PI).
  { apply wrapDown_le. pose proof (turns_enough a). pose proof (Rle_abs a).
    lra. }
  split.
  - apply wrapUp_ge.
    pose proof (turns_enough (wrapDown (turns a) a)) as H.
    pose proof (Rle_abs (- wrapDown (turns a) a)) as H'.
    rewrite Rabs_Ropp in H'. lra.
  - apply wrapUp_le, Hdown.
Qed.

(** ** What the physics steps leave alone

    A view [p] of the kart that ignores the motion fields, the drift fields
    and the boost is not changed by what a physics step does to its own
    kart before the item is used. *)

Section DriveViews.

Context {B : Type} (p : Kart.t -> B).

Hypothesis p_x : forall v k, p (Kart.with_x v k) = p k.
Hypothesis p_y : forall v k, p (Kart.with_y v k) = p k.
Hypothesis p_angle : forall v k, p (Kart.with_angle v k) = p k.
Hypothesis p_speed : forall v k, p (Kart.with_speed v k) = p k.
Hypothesis p_velocity : forall v k, p (Kart.with_velocity v k) = p k.

Lemma view_integrate (a dt : R) (k : Kart.t) : p (integrate a dt k) = p k.
Proof. unfold integrate. rewrite p_y, p_x, !p_velocity. reflexivity. Qed.

Lemma view_steerToward (target : Waypoint) (dt : R) (k : Kart.t) :
  p (steerToward target dt k) = p k.
Proof. unfold steerToward. case_match; [apply p_angle | reflexivity]. Qed.

Lemma view_ease (v dt : R) (k : Kart.t) : p (ease v dt k) = p k.
Proof. unfold ease. rewrite p_speed. case_match; apply p_speed. Qed.

Lemma view_driveAI (i : nat) (dt : R) (target : Waypoint) (pp : option R)
    (karts : list Kart.t) (k : Kart.t) :
  p (driveAI i dt target pp karts k) = p k.
Proof.
  unfold driveAI.
  rewrite view_integrate, view_ease, p_angle. apply view_steerToward.
Qed.

Lemma view_throttle (ks : Keys.t) (dt : R) (k : Kart.t) :
  p (throttle ks dt k) = p k.
Proof. unfold throttle. rewrite p_speed. repeat case_match; apply p_speed. Qed.

Hypothesis p_drifting : forall v k, p (Kart.with_drifting v k) = p k.
Hypothesis p_driftDirection :
  forall v k, p (Kart.with_driftDirection v k) = p k.
Hypothesis p_driftBoost : forall v k, p (Kart.with_driftBoost v k) = p k.
Hypothesis p_driftAngleOffset :
  forall v k, p (Kart.with_driftAngleOffset v k) = p k.

Lemma view_driftOn (ks : Keys.t) (dt : R) (k : Kart.t) :
  p (driftOn ks dt k) = p k.
Proof.
  unfold driftOn.
  rewrite p_speed, p_angle, !p_driftAngleOffset, p_driftBoost.
  case_match; [|reflexivity]. rewrite p_driftDirection. apply p_drifting.
Qed.

Hypothesis p_boost :
  forall t k, p (Kart.with_boostTimer t (Kart.with_boosting true k)) = p k.

Lemma view_releaseDrift (k : Kart.t) : p (releaseDrift k) = p k.
Proof.
  unfold releaseDrift, Kart.applyBoost. case_match; [|reflexivity].
  rewrite p_driftBoost, p_driftAngleOffset, p_drifting.
  case_match; [|reflexivity]. rewrite p_driftBoost. apply p_boost.
Qed.

Lemma view_driftOff (ks : Keys.t) (dt : R) (k : Kart.t) :
  p (driftOff ks dt k) = p k.
Proof. unfold driftOff. rewrite p_angle. apply view_releaseDrift. Qed.

Lemma view_drive (ks : Keys.t) (dt : R) (k : Kart.t) :
  p (drive ks dt k) = p k.
Proof.
  unfold drive, driftMechanics. rewrite view_integrate.
  case_match; [rewrite view_driftOn | rewrite view_driftOff];
    apply view_throttle.
Qed.

End DriveViews.

Lemma race_update (dt : R) (k : Kart.t) : race (Kart.update dt k) = race k.
Proof. unfold Kart.update. repeat case_match; reflexivity. Qed.

Lemma race_drive (ks : Keys.t) (dt : R) (k : Kart.t) :
  race (drive ks dt k) = race k.
Proof. apply view_drive; reflexivity. Qed.

Lemma race_driveAI (i : nat) (dt : R) (target : Waypoint) (pp : option R)
    (karts : list Kart.t) (k : Kart.t) :
  race (driveAI i dt target pp karts k) = race k.
Proof. apply view_driveAI; reflexivity. Qed.

Lemma item_drive (ks : Keys.t) (dt : R) (k : Kart.t) :
  Kart.item (drive ks dt k) = Kart.item k.
Proof. apply view_drive; reflexivity. Qed.

(** ** Frames on the store

    A view [p] of a kart that an operation leaves alone is left alone, at
    every index, by the same operation on the store. *)

Section StoreViews.

Context {B : Type} (p : Kart.t -> B).

Lemma view_insert (karts : list Kart.t) (i : nat) (k k' : Kart.t) :
  karts !! i = Some k -> p k' = p k -> p <$> <[i := k']> karts = p <$> karts.
Proof.
  intros Hi Hp. rewrite list_fmap_insert, Hp.
  apply list_insert_id. rewrite list_lookup_fmap, Hi. reflexivity.
Qed.

Lemma view_alter (f : Kart.t -> Kart.t) (karts : list Kart.t) (i : nat) :
  (forall k, p (f k) = p k) -> p <$> alter f i karts = p <$> karts.
Proof.
  intros Hf. revert i.
  induction karts as [|k karts IH]; intros [|i]; simpl; try reflexivity.
  - rewrite Hf. reflexivity.
  - f_equal. apply IH.
Qed.

Lemma view_imap (f : nat -> Kart.t -> Kart.t) (karts : list Kart.t) :
  (forall j k, p (f j k) = p k) -> p <$> imap f karts = p <$> karts.
Proof.
  revert f. induction karts as [|k karts IH]; intros f Hf; simpl.
  - reflexivity.
  - rewrite Hf. f_equal. apply IH. intros j k'. apply Hf.
Qed.

(** The view ignores the item slot and the three effects. *)
Hypothesis p_item : forall o k, p (Kart.with_item o k) = p k.
Hypothesis p_boost :
  forall t k, p (Kart.with_boostTimer t (Kart.with_boosting true k)) = p k.
Hypothesis p_shield :
  forall t k, p (Kart.with_shieldTimer t (Kart.with_shielded true k)) = p k.
Hypothesis p_slow :
  forall t k, p (Kart.with_slowTimer t (Kart.with_slowed true k)) = p k.

Lemma view_useItem (i : nat) (karts : list Kart.t) :
  p <$> useItem i karts = p <$> karts.
Proof.
  unfold useItem. destruct (karts !! i) as [kart|] eqn:Hi; [|reflexivity].
  assert (Hins : p <$> <[i := Kart.with_item None kart]> karts = p <$> karts)
    by (apply (view_insert _ _ kart); [exact Hi | apply p_item]).
  destruct (Kart.item kart) as [[| |]|].
  - rewrite view_alter; [exact Hins | intros; apply p_boost].
  - rewrite view_alter; [exact Hins | intros; apply p_shield].
  - rewrite view_imap; [exact Hins |].
    intros j k. case_match; [apply p_slow | reflexivity].
  - exact Hins.
Qed.

Hypothesis p_update : forall dt k, p (Kart.update dt k) = p k.

(** The player step: any change of the view is the one [drive] makes to the
    kart itself. *)
Lemma view_updatePlayerKart (i : nat) (dt : R) (ks : Keys.t)
    (karts : list Kart.t) :
  p <$> (updatePlayerKart i dt ks karts).2 = p <$> karts
  \/ exists kart, karts !! i = Some kart /\ Kart.finished kart = false
       /\ p <$> (updatePlayerKart i dt ks karts).2
          = p <$> <[i := drive ks dt kart]> karts.
Proof.
  unfold updatePlayerKart.
  destruct (karts !! i) as [kart|] eqn:Hi; [|left; reflexivity].
  destruct (Kart.finished kart) eqn:Hfin; [left; reflexivity|].
  right. exists kart. split; [reflexivity|]. split; [exact Hfin|].
  destruct (Keys.useItem ks && isSome (Kart.item (drive ks dt kart)));
    simpl; rewrite view_alter by (intros; apply p_update).
  - apply view_useItem.
  - reflexivity.
Qed.

Lemma view_updateAIKart (rnd : nat -> R) (i : nat) (dt : R)
    (track : Track.t) (playerKart : option nat) (karts karts' : list Kart.t)
    (draws draws' : nat) :
  updateAIKart rnd i dt track playerKart karts draws = Some (karts', draws') ->
  p <$> karts' = p <$> karts
  \/ exists kart target pp,
       karts !! i = Some kart /\ Kart.finished kart = false
       /\ p <$> karts' = p <$> <[i := driveAI i dt target pp karts kart]> karts.
Proof.
  unfold updateAIKart.
  destruct (karts !! i) as [kart|] eqn:Hi;
    [|intros [= <- <-]; left; reflexivity].
  destruct (Kart.finished kart) eqn:Hfin;
    [intros [= <- <-]; left; reflexivity|].
  destruct (Track.waypoints track !! _) as [target|]; [|discriminate].
  intros H. right. eexists kart, target, _.
  split; [reflexivity|]. split; [exact Hfin|].
  destruct (isSome _); [destruct (Rltb _ _)|]; injection H as <- <-;
    rewrite view_alter by (intros; apply p_update);
    try apply view_useItem; reflexivity.
Qed.

End StoreViews.

Section CollisionViews.

Context {B : Type} (p : Kart.t -> B).

Lemma view_insert2 (karts : list Kart.t) (i j : nat)
    (k1 k2 k1' k2' : Kart.t) :
  karts !! i = Some k1 -> karts !! j = Some k2 ->
  p k1' = p k1 -> p k2' = p k2 ->
  p <$> <[j := k2']> (<[i := k1']> karts) = p <$> karts.
Proof.
  intros Hi Hj H1 H2. rewrite !list_fmap_insert, H1, H2.
  rewrite (list_insert_id _ i) by (rewrite list_lookup_fmap, Hi; reflexivity).
  apply list_insert_id. rewrite list_lookup_fmap, Hj. reflexivity.
Qed.

(** The view ignores position and speed. *)
Hypothesis p_x : forall v k, p (Kart.with_x v k) = p k.
Hypothesis p_y : forall v k, p (Kart.with_y v k) = p k.
Hypothesis p_speed : forall v k, p (Kart.with_speed v k) = p k.

Lemma view_bumpPair (k1 k2 : Kart.t) :
  p (bumpPair k1 k2).1 = p k1 /\ p (bumpPair k1 k2).2 = p k2.
Proof.
  unfold bumpPair. case_match; simpl; [|split; reflexivity].
  rewrite !p_speed, !p_y, !p_x. split; reflexivity.
Qed.

Lemma view_bump (i j : nat) (karts : list Kart.t) :
  p <$> bump i j karts = p <$> karts.
Proof.
  unfold bump.
  destruct (karts !! i) as [k1|] eqn:Hi; [|reflexivity].
  destruct (karts !! j) as [k2|] eqn:Hj; [|reflexivity].
  destruct (view_bumpPair k1 k2) as [H1 H2].
  destruct (bumpPair k1 k2) as [k1' k2']. simpl in *.
  eapply view_insert2; eassumption.
Qed.

Lemma view_bumpRow_from (i : nat) (js : list nat) (karts : list Kart.t) :
  p <$> fold_left (fun karts j => bump i j karts) js karts = p <$> karts.
Proof.
  revert karts. induction js as [|j js IH]; intros karts; simpl.
  - reflexivity.
  - rewrite IH. apply view_bump.
Qed.

Lemma view_bumpAll_from (indices : list nat) (karts : list Kart.t) :
  p <$> fold_left (fun karts i => bumpRow i karts) indices karts
  = p <$> karts.
Proof.
  revert karts. induction indices as [|i indices IH]; intros karts; simpl.
  - reflexivity.
  - rewrite IH. apply view_bumpRow_from.
Qed.

Lemma view_bumpAll (karts : list Kart.t) : p <$> bumpAll karts = p <$> karts.
Proof. apply view_bumpAll_from. Qed.

Lemma view_wallCollision (track : Track.t) (k : Kart.t) :
  p (wallCollision track k) = p k.
Proof.
  unfold wallCollision, pushBack. case_match; [|reflexivity].
  rewrite p_y, p_x, p_speed. reflexivity.
Qed.

Hypothesis p_item : forall o k, p (Kart.with_item o k) = p k.

Lemma view_pickUp (rnd : nat -> R) (powerUps : list PowerUp.t)
    (k : Kart.t) (draws : nat) :
  p (pickUp rnd k draws powerUps).1.1 = p k.
Proof.
  revert k draws.
  induction powerUps as [|powerUp rest IH]; intros k draws; simpl.
  - reflexivity.
  - destruct (negb (PowerUp.active powerUp)); simpl.
    { specialize (IH k draws).
      destruct (pickUp rnd k draws rest) as [[k' d'] r']. exact IH. }
    destruct (isSome (Kart.item k)); simpl.
    { specialize (IH k draws).
      destruct (pickUp rnd k draws rest) as [[k' d'] r']. exact IH. }
    destruct (Rltb _ _); simpl.
    + match goal with
      | |- context [pickUp rnd ?k1 ?d1 rest] =>
          specialize (IH k1 d1); destruct (pickUp rnd k1 d1 rest) as [[k' d'] r']
      end.
      simpl in *. rewrite IH. apply p_item.
    + specialize (IH k draws).
      destruct (pickUp rnd k draws rest) as [[k' d'] r']. exact IH.
Qed.

Hypothesis p_position : forall v k, p (Kart.with_position v k) = p k.

Lemma view_assignPositions (sorted : list nat) (i : nat)
    (karts : list Kart.t) :
  p <$> assignPositions sorted i karts = p <$> karts.
Proof.
  revert i karts. induction sorted as [|idx rest IH]; intros i karts; simpl.
  - reflexivity.
  - rewrite IH. apply view_alter. intros k. apply p_position.
Qed.

Lemma view_calculatePositions (karts : list Kart.t) :
  p <$> calculatePositions karts = p <$> karts.
Proof. apply view_assignPositions. Qed.

End CollisionViews.

(** ** The physics pass *)

Lemma races_updatePlayerKart (i : nat) (dt : R) (ks : Keys.t)
    (karts : list Kart.t) :
  race <$> (updatePlayerKart i dt ks karts).2 = race <$> karts.
Proof.
  destruct (view_updatePlayerKart race) with (i := i) (dt := dt) (ks := ks)
    (karts := karts) as [H|(kart & Hi & _ & H)];
    try reflexivity; try apply race_update; rewrite H; [reflexivity|].
  apply (view_insert _ _ _ kart); [exact Hi | apply race_drive].
Qed.

Lemma races_updateAIKart (rnd : nat -> R) (i : nat) (dt : R)
    (track : Track.t) (playerKart : option nat) (karts karts' : list Kart.t)
    (draws draws' : nat) :
  updateAIKart rnd i dt track playerKart karts draws = Some (karts', draws') ->
  race <$> karts' = race <$> karts.
Proof.
  intros Hrun.
  destruct (fun a b c d e =>
              view_updateAIKart race a b c d e _ _ _ _ _ _ _ _ _ Hrun)
    as [H|(kart & target & pp & Hi & _ & H)];
    try reflexivity; try apply race_update; rewrite H; [reflexivity|].
  apply (view_insert _ _ _ kart); [exact Hi | apply race_driveAI].
Qed.

Lemma updateAIKart_total (rnd : nat -> R) (i : nat) (dt : R)
    (track : Track.t) (playerKart : option nat) (karts : list Kart.t)
    (draws : nat) :
  Track.waypoints track <> [] ->
  is_Some (updateAIKart rnd i dt track playerKart karts draws).
Proof.
  intros Hwp. unfold updateAIKart.
  destruct (karts !! i) as [kart|]; [|eexists; reflexivity].
  destruct (Kart.finished kart); [eexists; reflexivity|].
  destruct (Track.waypoints track !! _) as [target|] eqn:Hlook.
  - destruct (isSome _); [destruct (Rltb _ _)|]; eexists; reflexivity.
  - apply lookup_ge_None in Hlook.
    assert (length (Track.waypoints track) <> 0%nat)
      by (destruct (Track.waypoints track); [congruence | simpl; lia]).
    pose proof (Nat.mod_upper_bound
                  (Track.getNearestWaypoint track (Kart.x kart) (Kart.y kart)
                   + 3) (length (Track.waypoints track))).
    lia.
Qed.

Lemma races_updateKart (rnd : nat -> R) (dt : R) (track : Track.t)
    (playerKart : option nat) (i : nat) (st st' : Keys.t * list Kart.t * nat) :
  updateKart rnd dt track playerKart i st = Some st' ->
  race <$> st'.1.2 = race <$> st.1.2.
Proof.
  destruct st as [[ks karts] draws]. unfold updateKart.
  destruct (karts !! i) as [kart|]; [|intros [= <-]; reflexivity].
  destruct (Kart.isPlayer kart).
  - pose proof (races_updatePlayerKart i dt ks karts) as H.
    destruct (updatePlayerKart i dt ks karts) as [ks' karts'].
    intros [= <-]. exact H.
  - destruct (updateAIKart rnd i dt track playerKart karts draws)
      as [[karts' draws']|] eqn:Hrun; [|discriminate].
    intros [= <-]. simpl. eapply races_updateAIKart, Hrun.
Qed.

Lemma updateKart_total (rnd : nat -> R) (dt : R) (track : Track.t)
    (playerKart : option nat) (i : nat) (st : Keys.t * list Kart.t * nat) :
  Track.waypoints track <> [] ->
  is_Some (updateKart rnd dt track playerKart i st).
Proof.
  intros Hwp. destruct st as [[ks karts] draws]. unfold updateKart.
  destruct (karts !! i) as [kart|]; [|eexists; reflexivity].
  destruct (Kart.isPlayer kart).
  - destruct (updatePlayerKart i dt ks karts). eexists; reflexivity.
  - destruct (updateAIKart_total rnd i dt track playerKart karts draws Hwp)
      as [[karts' draws'] ->].
    eexists; reflexivity.
Qed.

Lemma races_updateKarts (rnd : nat -> R) (dt : R) (track : Track.t)
    (playerKart : option nat) (indices : list nat)
    (st st' : Keys.t * list Kart.t * nat) :
  updateKarts rnd dt track playerKart indices st = Some st' ->
  race <$> st'.1.2 = race <$> st.1.2.
Proof.
  revert st. induction indices as [|i indices IH]; intros st; simpl.
  - intros [= <-]. reflexivity.
  - destruct (updateKart rnd dt track playerKart i st) as [st1|] eqn:H1;
      [|discriminate].
    intros Hrest. rewrite (IH _ Hrest). eapply races_updateKart, H1.
Qed.

Lemma updateKarts_total (rnd : nat -> R) (dt : R) (track : Track.t)
    (playerKart : option nat) (indices : list nat)
    (st : Keys.t * list Kart.t * nat) :
  Track.waypoints track <> [] ->
  is_Some (updateKarts rnd dt track playerKart indices st).
Proof.
  intros Hwp. revert st.
  induction indices as [|i indices IH]; intros st; simpl.
  - eexists; reflexivity.
  - destruct (updateKart_total rnd dt track playerKart i st Hwp) as [st1 ->].
    apply IH.
Qed.

Lemma view_lookup {B : Type} (p : Kart.t -> B) (l l' : list Kart.t)
    (i : nat) (k : Kart.t) :
  p <$> l' = p <$> l -> l !! i = Some k ->
  exists k', l' !! i = Some k' /\ p k' = p k.
Proof.
  intros Heq Hi.
  assert (H : (p <$> l') !! i = Some (p k))
    by (rewrite Heq, list_lookup_fmap, Hi; reflexivity).
  rewrite list_lookup_fmap in H.
  destruct (l' !! i) as [k'|]; simpl in H; [|discriminate].
  injection H as H. exists k'. split; [reflexivity | exact H].
Qed.

(** ** The collision pass *)

Lemma checkpointOk_race (track : Track.t) (k k' : Kart.t) :
  race k' = race k -> checkpointOk track k -> checkpointOk track k'.
Proof. unfold checkpointOk, race. intros [= _ -> _ _ _ _ _]. tauto. Qed.

Lemma nthZ_is_Some {A : Type} (l : list A) (i : Z) :
  (0 <= i < Z.of_nat (length l))%Z -> is_Some (nthZ l i).
Proof.
  intros Hi. unfold nthZ.
  destruct (Z.ltb_spec i 0); [lia|]. apply lookup_lt_is_Some. lia.
Qed.

Lemma checkCheckpoint_total (track : Track.t) (raceTime : R) (k : Kart.t)
    (px py : R) :
  checkpointOk track k ->
  is_Some (Track.checkCheckpoint track raceTime k px py).
Proof.
  intros Hok. unfold Track.checkCheckpoint.
  destruct (nthZ_is_Some _ _ Hok) as [c ->]. eexists; reflexivity.
Qed.

Section ResolveViews.

Context {B : Type} (p : Kart.t -> B).

Hypothesis p_item : forall o k, p (Kart.with_item o k) = p k.

(** What the first loop does to the kart of index [i]: the boundary block,
    then [checkCheckpoint], then changes that a view blind to the item
    slot does not see. *)
Lemma resolveKarts_lookup (rnd : nat -> R) (track : Track.t) (raceTime : R)
    (karts karts' : list Kart.t) (draws draws' : nat)
    (powerUps powerUps' : list PowerUp.t) (i : nat) (k : Kart.t) :
  resolveKarts rnd track raceTime karts draws powerUps
    = Some (karts', draws', powerUps') ->
  karts !! i = Some k ->
  exists px py k2 k',
    Track.checkCheckpoint track raceTime (wallCollision track k) px py
      = Some k2
    /\ p k' = p k2 /\ karts' !! i = Some k'.
Proof.
  revert karts' draws draws' powerUps powerUps' i.
  induction karts as [|k0 rest IH];
    intros karts' draws draws' powerUps powerUps' i Hrun Hi;
    [discriminate|].
  simpl in Hrun. unfold resolveKart in Hrun.
  destruct (Track.checkCheckpoint track raceTime (wallCollision track k0) _ _)
    as [k2|] eqn:Hcp; [|discriminate].
  pose proof (view_pickUp p p_item rnd powerUps k2 draws) as Hview.
  destruct (pickUp rnd k2 draws powerUps) as [[k3 d3] p3]. simpl in *.
  destruct (resolveKarts rnd track raceTime rest d3 p3)
    as [[[rest' d4] p4]|] eqn:Hrest; [|discriminate].
  injection Hrun as <- <- <-.
  destruct i as [|i]; simpl in *.
  - injection Hi as <-. eexists _, _, k2, k3.
    split; [exact Hcp|]. split; [exact Hview | reflexivity].
  - eapply IH; eassumption.
Qed.

End ResolveViews.

Lemma resolveKarts_length (rnd : nat -> R) (track : Track.t) (raceTime : R)
    (karts karts' : list Kart.t) (draws draws' : nat)
    (powerUps powerUps' : list PowerUp.t) :
  resolveKarts rnd track raceTime karts draws powerUps
    = Some (karts', draws', powerUps') ->
  length karts' = length karts.
Proof.
  revert karts' draws draws' powerUps powerUps'.
  induction karts as [|k0 rest IH];
    intros karts' draws draws' powerUps powerUps' Hrun; simpl in Hrun.
  - injection Hrun as <- <- <-. reflexivity.
  - destruct (resolveKart rnd track raceTime k0 draws powerUps)
      as [[[k3 d3] p3]|]; [|discriminate].
    destruct (resolveKarts rnd track raceTime rest d3 p3)
      as [[[rest' d4] p4]|] eqn:Hrest; [|discriminate].
    injection Hrun as <- <- <-. simpl. f_equal. eapply IH, Hrest.
Qed.

Lemma resolveKarts_total (rnd : nat -> R) (track : Track.t) (raceTime : R)
    (karts : list Kart.t) (draws : nat) (powerUps : list PowerUp.t) :
  Forall (checkpointOk track) karts ->
  is_Some (resolveKarts rnd track raceTime karts draws powerUps).
Proof.
  intros Hok. revert draws powerUps.
  induction Hok as [|k rest Hk Hrest IH]; intros draws powerUps; simpl.
  - eexists; reflexivity.
  - unfold resolveKart.
    destruct (checkCheckpoint_total track raceTime (wallCollision track k)
                (Kart.x (wallCollision track k)
                 - vx (Kart.velocity (wallCollision track k)) * (16 / 1000))
                (Kart.y (wallCollision track k)
                 - vy (Kart.velocity (wallCollision track k)) * (16 / 1000)))
      as [k2 ->].
    { eapply checkpointOk_race; [|exact Hk].
      apply view_wallCollision; reflexivity. }
    destruct (pickUp rnd k2 draws powerUps) as [[k3 d3] p3].
    destruct (IH d3 p3) as [[[rest' d4] p4] ->].
    eexists; reflexivity.
Qed.

Lemma Forall_view {B : Type} (p : Kart.t -> B) (P : Kart.t -> Prop)
    (l l' : list Kart.t) :
  (forall k k', p k' = p k -> P k -> P k') ->
  p <$> l' = p <$> l -> Forall P l -> Forall P l'.
Proof.
  intros HP Heq Hl. apply Forall_lookup. intros i k' Hi.
  destruct (view_lookup p l' l i k' (eq_sym Heq) Hi) as (k & Hk & Hpk).
  apply (HP k k'); [congruence|]. eapply Forall_lookup_1; eassumption.
Qed.

(** ** One tick of the running race *)

Lemma simulate_total (rnd : nat -> R) (dt : R) (w : World) :
  wellFormed w -> is_Some (simulate rnd dt w).
Proof.
  intros [_ Hcp Hwp Hpl]. unfold simulate.
  destruct (updateKarts_total rnd dt (track w) (findPlayer (karts w) 0)
              (seq 0 (length (karts w))) (keys w, karts w, draws w) Hwp)
    as [[[ks karts1] draws1] Hphys].
  rewrite Hphys.
  apply races_updateKarts in Hphys. simpl in Hphys.
  assert (Hcp1 : Forall (checkpointOk (track w)) karts1).
  { eapply (Forall_view race); [|exact Hphys|exact Hcp].
    intros k k'. apply checkpointOk_race. }
  unfold handleCollisions. simpl.
  destruct (resolveKarts_total rnd (track w)
              (GameState.raceTime (gameState w) + dt) karts1 draws1
              (powerUps w) Hcp1) as [[[karts2 draws2] powerUps2] ->].
  destruct (findPlayer (karts w) 0) as [p|]; [|congruence].
  eexists; reflexivity.
Qed.

(** The path of the kart of index [i] through a tick, as far as its
    race-progress fields go: they are touched by one call of
    [checkCheckpoint], made on the kart [k1] that the physics pass and the
    boundary block have produced. *)
Lemma simulate_kart (rnd : nat -> R) (dt : R) (w w' : World) (i : nat)
    (k : Kart.t) :
  simulate rnd dt w = Some w' -> karts w !! i = Some k ->
  exists k1 px py k2 k',
    race k1 = race k
    /\ Track.checkCheckpoint (track w) (raceClock dt w) k1 px py = Some k2
    /\ race k' = race k2
    /\ karts w' !! i = Some k'.
Proof.
  unfold simulate, raceClock. intros Hrun Hi.
  destruct (updateKarts rnd dt (track w) _ _ _)
    as [[[ks karts1] draws1]|] eqn:Hphys; [|discriminate].
  apply races_updateKarts in Hphys. simpl in Hphys.
  unfold handleCollisions in Hrun. simpl in Hrun.
  destruct (resolveKarts rnd (track w) _ karts1 draws1 (powerUps w))
    as [[[karts2 draws2] powerUps2]|] eqn:Hres; [|discriminate].
  destruct (findPlayer (karts w) 0) as [p|]; [|discriminate].
  injection Hrun as <-. simpl.
  destruct (view_lookup race _ _ i k Hphys Hi) as (k0 & Hi1 & Hk0).
  destruct (resolveKarts_lookup race (fun _ _ => eq_refl)
              _ _ _ _ _ _ _ _ _ i k0 Hres Hi1)
    as (px & py & k2 & k3 & Hcp & Hk3 & Hi2).
  assert (Hfinal :
            race <$> calculatePositions (bumpAll karts2) = race <$> karts2).
  { rewrite view_calculatePositions by reflexivity.
    apply view_bumpAll; reflexivity. }
  destruct (view_lookup race _ _ i k3 Hfinal Hi2) as (k' & Hi3 & Hk').
  exists (wallCollision (track w) k0), px, py, k2, k'.
  split; [rewrite <- Hk0; apply view_wallCollision; reflexivity|].
  split; [exact Hcp|]. split; [congruence | exact Hi3].
Qed.

Lemma gridWorld_wellFormed : wellFormed gridWorld.
Proof.
  split.
  - reflexivity.
  - repeat constructor; unfold checkpointOk; simpl; lia.
  - discriminate.
  - discriminate.
Qed.

(** ** Checkpoints, laps and the finish *)

Lemma checkCheckpoint_inv (track : Track.t) (raceTime : R) (k k' : Kart.t)
    (px py : R) :
  Track.checkCheckpoint track raceTime k px py = Some k' ->
  exists c k1,
    nthZ (Track.checkpoints track) (Kart.checkpoint k) = Some c
    /\ k1 = (if Track.crosses k c then Track.advance raceTime k else k)
    /\ k' = Kart.with_totalProgress
              (IZR (Kart.lap k1) * IZR CONFIG.CHECKPOINT_COUNT
               + IZR (Kart.checkpoint k1) + Track.proximity k1 c) k1.
Proof.
  unfold Track.checkCheckpoint.
  destruct (nthZ _ _) as [c|]; [|discriminate].
  intros [= <-]. eexists c, _. repeat split.
Qed.

Section CheckpointViews.

Context {B : Type} (p : Kart.t -> B).

(** The view ignores the race-progress fields. *)
Hypothesis p_lap : forall v k, p (Kart.with_lap v k) = p k.
Hypothesis p_checkpoint : forall v k, p (Kart.with_checkpoint v k) = p k.
Hypothesis p_lastCheckpoint :
  forall v k, p (Kart.with_lastCheckpoint v k) = p k.
Hypothesis p_totalProgress :
  forall v k, p (Kart.with_totalProgress v k) = p k.
Hypothesis p_finished : forall v k, p (Kart.with_finished v k) = p k.
Hypothesis p_finishTime : forall v k, p (Kart.with_finishTime v k) = p k.

Lemma view_advance (raceTime : R) (k : Kart.t) :
  p (Track.advance raceTime k) = p k.
Proof.
  unfold Track.advance.
  destruct (_ && _).
  - destruct (_ && _).
    + rewrite p_finishTime, p_finished, p_lap, p_checkpoint.
      apply p_lastCheckpoint.
    + rewrite p_lap, p_checkpoint. apply p_lastCheckpoint.
  - rewrite p_checkpoint. apply p_lastCheckpoint.
Qed.

Lemma view_checkCheckpoint (track : Track.t) (raceTime : R) (k k' : Kart.t)
    (px py : R) :
  Track.checkCheckpoint track raceTime k px py = Some k' -> p k' = p k.
Proof.
  intros Hrun.
  destruct (checkCheckpoint_inv _ _ _ _ _ _ Hrun) as (c & k1 & _ & -> & ->).
  rewrite p_totalProgress.
  destruct (Track.crosses k c); [apply view_advance | reflexivity].
Qed.

End CheckpointViews.

Lemma checkCheckpoint_speed (track : Track.t) (raceTime : R)
    (k k' : Kart.t) (px py : R) :
  Track.checkCheckpoint track raceTime k px py = Some k' ->
  Kart.speed k' = Kart.speed k.
Proof. intros H. eapply view_checkCheckpoint; try reflexivity. exact H. Qed.

Lemma checkCheckpoint_shielded (track : Track.t) (raceTime : R)
    (k k' : Kart.t) (px py : R) :
  Track.checkCheckpoint track raceTime k px py = Some k' ->
  Kart.shielded k' = Kart.shielded k.
Proof. intros H. eapply view_checkCheckpoint; try reflexivity. exact H. Qed.

Lemma advance_latch (raceTime : R) (k : Kart.t) :
  Kart.finished k = true ->
  Kart.finished (Track.advance raceTime k) = true
  /\ Kart.finishTime (Track.advance raceTime k) = Kart.finishTime k.
Proof.
  intros Hfin. unfold Track.advance. simpl.
  destruct (_ && _); simpl; [|split; [exact Hfin | reflexivity]].
  rewrite Hfin, andb_false_r. simpl. split; [exact Hfin | reflexivity].
Qed.

Lemma checkCheckpoint_latch (track : Track.t) (raceTime : R)
    (k k' : Kart.t) (px py : R) :
  Track.checkCheckpoint track raceTime k px py = Some k' ->
  Kart.finished k = true ->
  Kart.finished k' = true /\ Kart.finishTime k' = Kart.finishTime k.
Proof.
  intros Hrun Hfin.
  destruct (checkCheckpoint_inv _ _ _ _ _ _ Hrun) as (c & k1 & _ & -> & ->).
  simpl. destruct (Track.crosses k c).
  - apply advance_latch, Hfin.
  - split; [exact Hfin | reflexivity].
Qed.

Lemma race_finished (k k' : Kart.t) :
  race k' = race k ->
  Kart.finished k' = Kart.finished k /\ Kart.finishTime k' = Kart.finishTime k.
Proof. unfold race. intros [= _ _ _ _ -> ->]. split; reflexivity. Qed.

Lemma race_checkpoint (k k' : Kart.t) :
  race k' = race k -> Kart.checkpoint k' = Kart.checkpoint k.
Proof. unfold race. intros [= _ -> _ _ _ _ _]. reflexivity. Qed.

Lemma checkpoint_advance (raceTime : R) (k : Kart.t) :
  Kart.checkpoint (Track.advance raceTime k)
  = Z.rem (Kart.checkpoint k + 1) CONFIG.CHECKPOINT_COUNT.
Proof.
  unfold Track.advance. simpl.
  destruct (_ && _); simpl; [|reflexivity].
  destruct (_ && _); reflexivity.
Qed.

(** ** Runs of ticks *)

(** The stages of a tick that has run. *)
Lemma simulate_inv (rnd : nat -> R) (dt : R) (w w' : World) :
  simulate rnd dt w = Some w' ->
  track w' = track w
  /\ exists ks karts1 draws1 karts2 draws2 powerUps2,
       updateKarts rnd dt (track w) (findPlayer (karts w) 0)
         (seq 0 (length (karts w))) (keys w, karts w, draws w)
         = Some (ks, karts1, draws1)
       /\ resolveKarts rnd (track w) (raceClock dt w) karts1 draws1
            (powerUps w) = Some (karts2, draws2, powerUps2)
       /\ karts w' = calculatePositions (bumpAll karts2)
       /\ keys w' = ks.
Proof.
  unfold simulate, raceClock. intros Hrun.
  destruct (updateKarts rnd dt (track w) _ _ _)
    as [[[ks karts1] draws1]|] eqn:Hphys; [|discriminate].
  unfold handleCollisions in Hrun. simpl in Hrun.
  destruct (resolveKarts rnd (track w) _ karts1 draws1 (powerUps w))
    as [[[karts2 draws2] powerUps2]|] eqn:Hres; [|discriminate].
  destruct (findPlayer (karts w) 0) as [p|]; [|discriminate].
  injection Hrun as <-. simpl. split; [reflexivity|].
  eexists _, _, _, _, _, _. split; [reflexivity|].
  split; [exact Hres|]. split; reflexivity.
Qed.

Lemma simulate_length (rnd : nat -> R) (dt : R) (w w' : World) :
  simulate rnd dt w = Some w' -> length (karts w') = length (karts w).
Proof.
  intros Hrun.
  destruct (simulate_inv _ _ _ _ Hrun)
    as (_ & ks & karts1 & d1 & karts2 & d2 & p2 & Hphys & Hres & -> & _).
  apply races_updateKarts in Hphys. simpl in Hphys.
  apply (f_equal length) in Hphys. rewrite !length_fmap in Hphys.
  apply resolveKarts_length in Hres.
  assert (H : length (calculatePositions (bumpAll karts2)) = length karts2).
  { rewrite <- (length_fmap race (calculatePositions _)),
      view_calculatePositions, view_bumpAll, length_fmap by reflexivity.
    reflexivity. }
  congruence.
Qed.

Lemma findPlayer_view (l l' : list Kart.t) (i : nat) :
  Kart.isPlayer <$> l' = Kart.isPlayer <$> l ->
  findPlayer l' i = findPlayer l i.
Proof.
  revert l' i. induction l as [|k l IH]; intros [|k' l'] i Heq;
    try discriminate; [reflexivity|].
  simpl in *. injection Heq as -> Hrest. rewrite (IH l' (S i) Hrest).
  reflexivity.
Qed.

Lemma race_isPlayer (k k' : Kart.t) :
  race k' = race k -> Kart.isPlayer k' = Kart.isPlayer k.
Proof. unfold race. intros [= _ _ _ _ _ _ ->]. reflexivity. Qed.

Lemma simulate_isPlayer (rnd : nat -> R) (dt : R) (w w' : World) :
  simulate rnd dt w = Some w' ->
  Kart.isPlayer <$> karts w' = Kart.isPlayer <$> karts w.
Proof.
  intros Hrun. apply list_eq. intros i. rewrite !list_lookup_fmap.
  destruct (karts w !! i) as [k|] eqn:Hi.
  - destruct (simulate_kart rnd dt w w' i k Hrun Hi)
      as (k1 & px & py & k2 & k' & Hk1 & Hcp & Hk' & Hi').
    rewrite Hi'. simpl. f_equal.
    rewrite (race_isPlayer _ _ Hk'), <- (race_isPlayer _ _ Hk1).
    eapply view_checkCheckpoint; try reflexivity. exact Hcp.
  - apply lookup_ge_None in Hi.
    rewrite <- (simulate_length _ _ _ _ Hrun) in Hi.
    apply lookup_ge_None in Hi. rewrite Hi. reflexivity.
Qed.

Lemma checkCheckpoint_checkpointOk (track : Track.t) (raceTime : R)
    (k k' : Kart.t) (px py : R) :
  length (Track.checkpoints track) = Z.to_nat CONFIG.CHECKPOINT_COUNT ->
  checkpointOk track k ->
  Track.checkCheckpoint track raceTime k px py = Some k' ->
  checkpointOk track k'.
Proof.
  unfold checkpointOk. intros Hlen Hok Hrun. rewrite Hlen in *.
  destruct (checkCheckpoint_inv _ _ _ _ _ _ Hrun) as (c & k1 & _ & -> & ->).
  simpl. destruct (Track.crosses k c); [|exact Hok].
  rewrite checkpoint_advance.
  rewrite Z.rem_mod_nonneg by (unfold CONFIG.CHECKPOINT_COUNT; lia).
  pose proof (Z.mod_pos_bound (Kart.checkpoint k + 1) CONFIG.CHECKPOINT_COUNT).
  unfold CONFIG.CHECKPOINT_COUNT in *. lia.
Qed.

(** A tick takes a race state to a race state. *)
Lemma wellFormed_simulate (rnd : nat -> R) (dt : R) (w w' : World) :
  wellFormed w -> simulate rnd dt w = Some w' -> wellFormed w'.
Proof.
  intros [Hcount Hcp Hwp Hpl] Hrun.
  pose proof (simulate_inv _ _ _ _ Hrun) as [Htrack _].
  split; rewrite ?Htrack; try assumption.
  - apply Forall_lookup. intros i k' Hi'.
    assert (Hlt : (i < length (karts w))%nat).
    { rewrite <- (simulate_length _ _ _ _ Hrun). eapply lookup_lt_Some, Hi'. }
    destruct (lookup_lt_is_Some_2 _ _ Hlt) as [k Hi].
    destruct (simulate_kart rnd dt w w' i k Hrun Hi)
      as (k1 & px & py & k2 & k'' & Hk1 & Hcheck & Hk' & Hi'').
    assert (k'' = k') by congruence. subst k''.
    apply (checkpointOk_race _ k2 k' Hk').
    eapply checkCheckpoint_checkpointOk; [exact Hcount| |exact Hcheck].
    apply (checkpointOk_race _ k k1 Hk1).
    eapply Forall_lookup_1; eassumption.
  - rewrite (findPlayer_view _ _ 0 (simulate_isPlayer _ _ _ _ Hrun)).
    exact Hpl.
Qed.

(** A physics step does not press the item key. *)
Lemma updateKarts_useItem (rnd : nat -> R) (dt : R) (track : Track.t)
    (playerKart : option nat) (indices : list nat)
    (st st' : Keys.t * list Kart.t * nat) :
  updateKarts rnd dt track playerKart indices st = Some st' ->
  Keys.useItem st.1.1 = false -> Keys.useItem st'.1.1 = false.
Proof.
  revert st. induction indices as [|i indices IH]; intros st; simpl.
  - intros [= <-]. tauto.
  - destruct (updateKart rnd dt track playerKart i st) as [st1|] eqn:H1;
      [|discriminate].
    intros Hrest Hkey. apply (IH _ Hrest). clear Hrest IH.
    destruct st as [[ks karts] draws]. unfold updateKart in H1. simpl in *.
    destruct (karts !! i) as [kart|]; [|injection H1 as <-; exact Hkey].
    destruct (Kart.isPlayer kart).
    + unfold updatePlayerKart in H1.
      destruct (karts !! i) as [kart'|]; [|injection H1 as <-; exact Hkey].
      destruct (Kart.finished kart'); [injection H1 as <-; exact Hkey|].
      rewrite Hkey in H1. simpl in H1. injection H1 as <-. exact Hkey.
    + destruct (updateAIKart rnd i dt track playerKart karts draws)
        as [[karts' draws']|]; [|discriminate].
      injection H1 as <-. exact Hkey.
Qed.

(** While the race is on and the item key is up, [game.update] is the
    tick: there is no restart. *)
Lemma update_running (rnd : nat -> R) (now dt : R) (w : World) :
  GameState.countdown (gameState w) <= 0 ->
  GameState.running (gameState w) = true ->
  Keys.useItem (keys w) = false ->
  update rnd now dt w = simulate rnd dt w.
Proof.
  intros Hcount Hrunning Hkey. unfold update, Rgtb.
  apply Rltb_ge in Hcount. rewrite Hcount, Hrunning. simpl.
  destruct (simulate rnd dt w) as [w'|] eqn:Hrun; [|reflexivity].
  destruct (simulate_inv _ _ _ _ Hrun)
    as (_ & ks & karts1 & d1 & karts2 & d2 & p2 & Hphys & _ & _ & Hks).
  apply updateKarts_useItem in Hphys; [|exact Hkey]. simpl in Hphys.
  rewrite Hks, Hphys, andb_false_r. reflexivity.
Qed.


(** The latch through one tick. *)
Lemma latch_one_tick (rnd : nat -> R) (dt : R) (w w' : World) (i : nat)
    (k : Kart.t) :
  simulate rnd dt w = Some w' -> karts w !! i = Some k ->
  Kart.finished k = true ->
  exists k',
    karts w' !! i = Some k'
    /\ Kart.finished k' = true /\ Kart.finishTime k' = Kart.finishTime k.
Proof.
  intros Hrun Hi Hfin.
  destruct (simulate_kart rnd dt w w' i k Hrun Hi)
    as (k1 & px & py & k2 & k' & Hk1 & Hcp & Hk' & Hi').
  exists k'. split; [exact Hi'|].
  apply race_finished in Hk1 as [Hf1 Ht1].
  apply race_finished in Hk' as [Hf' Ht'].
  destruct (checkCheckpoint_latch _ _ _ _ _ _ Hcp) as [Hf2 Ht2];
    [congruence|].
  split; congruence.
Qed.

(** C5.  Lap-finish latch: from a race state, any run of ticks goes
    through, and a kart whose [finished] flag is set at the start has the
    flag set and the same [finishTime] at the end, through the physics
    pass, the checkpoint check and the collision resolution of every tick
    of the run. *)
Theorem finish_latch (rnd : nat -> R) (dts : list R) (w : World) (i : nat)
    (k : Kart.t) :
  wellFormed w -> karts w !! i = Some k -> Kart.finished k = true ->
  exists w' k',
    run rnd dts w = Some w' /\ karts w' !! i = Some k'
    /\ Kart.finished k' = true /\ Kart.finishTime k' = Kart.finishTime k.
Proof.
  revert w k. induction dts as [|dt dts IH]; intros w k Hwf Hi Hfin; simpl.
  - exists w, k. repeat split; assumption.
  - destruct (simulate_total rnd dt w Hwf) as [w1 Hrun]. rewrite Hrun.
    destruct (latch_one_tick rnd dt w w1 i k Hrun Hi Hfin)
      as (k1 & Hi1 & Hfin1 & Htime1).
    destruct (IH w1 k1 (wellFormed_simulate _ _ _ _ Hwf Hrun) Hi1 Hfin1)
      as (w' & k' & Hrun' & Hi' & Hfin' & Htime').
    exists w', k'. repeat split; try assumption. congruence.
Qed.

Lemma finish_latch_witness :
  exists w' k',
    run (fun _ => 0) [1 / 60; 1 / 60; 1 / 20] gridWorld = Some w'
    /\ karts w' !! 1%nat = Some k'
    /\ Kart.finished k' = true /\ Kart.finishTime k' = 61.
Proof.
  apply (finish_latch (fun _ => 0) [1 / 60; 1 / 60; 1 / 20] gridWorld 1
           (Kart.with_finishTime 61
              (Kart.with_finished true (gridKart Track.new 1)))).
  - exact gridWorld_wellFormed.
  - reflexivity.
  - reflexivity.
Defined.




(** ** A kart that has finished *)

Lemma useItem_other (j i : nat) (karts : list Kart.t) (kj k : Kart.t) :
  karts !! j = Some kj -> i <> j -> karts !! i = Some k ->
  useItem j karts !! i
  = Some (match Kart.item kj with
          | Some slow => if Kart.shielded k then k else slowedBy k
          | _ => k
          end).
Proof.
  intros Hj Hij Hi. unfold useItem. rewrite Hj.
  destruct (Kart.item kj) as [[| |]|].
  - rewrite list_lookup_alter_ne, list_lookup_insert_ne by congruence.
    exact Hi.
  - rewrite list_lookup_alter_ne, list_lookup_insert_ne by congruence.
    exact Hi.
  - rewrite list_lookup_imap, list_lookup_insert_ne, Hi by congruence.
    simpl. destruct (Nat.eqb_spec i j) as [|_]; [contradiction|].
    simpl. destruct (Kart.shielded k); reflexivity.
  - rewrite list_lookup_insert_ne by congruence. exact Hi.
Qed.

Lemma updatePlayerKart_other (j i : nat) (dt : R) (ks : Keys.t)
    (karts : list Kart.t) (k : Kart.t) :
  i <> j -> karts !! i = Some k ->
  (updatePlayerKart j dt ks karts).2 !! i = Some k
  \/ (updatePlayerKart j dt ks karts).2 !! i = Some (slowedBy k).
Proof.
  intros Hij Hi. unfold updatePlayerKart.
  destruct (karts !! j) as [kj|] eqn:Hj; [|left; exact Hi].
  destruct (Kart.finished kj); [left; exact Hi|].
  destruct (Keys.useItem ks && isSome (Kart.item (drive ks dt kj))); simpl;
    rewrite list_lookup_alter_ne by congruence.
  - rewrite (useItem_other j i _ (drive ks dt kj) k); try assumption.
    + destruct (Kart.item _) as [[| |]|]; auto.
      destruct (Kart.shielded k); auto.
    + apply list_lookup_insert_eq. eapply lookup_lt_Some, Hj.
    + rewrite list_lookup_insert_ne by congruence. exact Hi.
  - left. rewrite list_lookup_insert_ne by congruence. exact Hi.
Qed.

Lemma updateAIKart_other (rnd : nat -> R) (j i : nat) (dt : R)
    (track : Track.t) (playerKart : option nat) (karts karts' : list Kart.t)
    (draws draws' : nat) (k : Kart.t) :
  i <> j -> karts !! i = Some k ->
  updateAIKart rnd j dt track playerKart karts draws = Some (karts', draws') ->
  karts' !! i = Some k \/ karts' !! i = Some (slowedBy k).
Proof.
  intros Hij Hi. unfold updateAIKart.
  destruct (karts !! j) as [kj|] eqn:Hj; [|intros [= <- <-]; left; exact Hi].
  destruct (Kart.finished kj); [intros [= <- <-]; left; exact Hi|].
  destruct (Track.waypoints track !! _) as [target|]; [|discriminate].
  match goal with
  | |- context [<[j := ?kj1]> karts] => set (kj' := kj1)
  end.
  destruct (isSome (Kart.item kj')); [destruct (Rltb _ _)|];
    intros [= <- <-]; rewrite list_lookup_alter_ne by congruence.
  - rewrite (useItem_other j i _ kj' k); try assumption.
    + destruct (Kart.item kj') as [[| |]|]; auto.
      destruct (Kart.shielded k); auto.
    + apply list_lookup_insert_eq. eapply lookup_lt_Some, Hj.
    + rewrite list_lookup_insert_ne by congruence. exact Hi.
  - left. rewrite list_lookup_insert_ne by congruence. exact Hi.
  - left. rewrite list_lookup_insert_ne by congruence. exact Hi.
Qed.

(** The player step on a kart that is still racing. *)
Lemma updatePlayerKart_running (i : nat) (dt : R) (ks : Keys.t)
    (karts : list Kart.t) (kart : Kart.t) :
  karts !! i = Some kart -> Kart.finished kart = false ->
  updatePlayerKart i dt ks karts
  = if Keys.useItem ks && isSome (Kart.item kart)
    then (Keys.clear_useItem ks,
          alter (Kart.update dt) i
            (useItem i (<[i := drive ks dt kart]> karts)))
    else (ks, alter (Kart.update dt) i (<[i := drive ks dt kart]> karts)).
Proof.
  intros Hi Hfin. unfold updatePlayerKart. rewrite Hi, Hfin, item_drive.
  destruct (Keys.useItem ks && isSome (Kart.item kart)); reflexivity.
Qed.

(** C10, as amended.  For a kart whose [finished] flag is set, its own
    physics step, [updatePlayerKart] or [updateAIKart], returns at once and
    changes nothing, in the kart or anywhere else.  The physics step of
    another kart leaves it as it is or, through the slow item, sets its
    [slowed] flag and slow timer. *)
Theorem finished_kart_step (rnd : nat -> R) (i : nat) (dt : R) (ks : Keys.t)
    (track : Track.t) (playerKart : option nat) (karts : list Kart.t)
    (draws : nat) (k : Kart.t) :
  karts !! i = Some k -> Kart.finished k = true ->
  updatePlayerKart i dt ks karts = (ks, karts)
  /\ updateAIKart rnd i dt track playerKart karts draws = Some (karts, draws)
  /\ forall j, j <> i ->
       ((updatePlayerKart j dt ks karts).2 !! i = Some k
        \/ (updatePlayerKart j dt ks karts).2 !! i = Some (slowedBy k))
       /\ forall karts' draws',
            updateAIKart rnd j dt track playerKart karts draws
              = Some (karts', draws') ->
            karts' !! i = Some k \/ karts' !! i = Some (slowedBy k).
Proof.
  intros Hi Hfin. split; [|split].
  - unfold updatePlayerKart. rewrite Hi, Hfin. reflexivity.
  - unfold updateAIKart. rewrite Hi, Hfin. reflexivity.
  - intros j Hji. split.
    + apply updatePlayerKart_other; [congruence | exact Hi].
    + intros karts' draws'. apply updateAIKart_other; [congruence | exact Hi].
Qed.

Lemma finished_kart_step_witness :
  updatePlayerKart 1 (1 / 60) itemKeyDown slowDuel = (itemKeyDown, slowDuel)
  /\ updateAIKart (fun _ => 0) 1 (1 / 60) Track.new (Some 0%nat) slowDuel 0
     = Some (slowDuel, 0%nat).
Proof.
  destruct (finished_kart_step (fun _ => 0) 1 (1 / 60) itemKeyDown Track.new
              (Some 0%nat) slowDuel 0
              (Kart.with_finished true (gridKart Track.new 1))
              eq_refl eq_refl) as (Hplayer & Hai & _).
  split; [exact Hplayer | exact Hai].
Defined.

(** C10, the claim as stated fails: the collision pass is not the only
    thing that still changes a finished kart.  The player's physics step
    uses the slow item and the finished kart at index 1 gets [slowed]. *)
Lemma finished_kart_slowed_by_other_step :
  exists k k',
    slowDuel !! 1%nat = Some k /\ Kart.finished k = true
    /\ Kart.slowed k = false
    /\ (updatePlayerKart 0 (1 / 60) itemKeyDown slowDuel).2 !! 1%nat = Some k'
    /\ Kart.slowed k' = true.
Proof.
  exists (Kart.with_finished true (gridKart Track.new 1)).
  exists (slowedBy (Kart.with_finished true (gridKart Track.new 1))).
  split; [reflexivity|]. split; [reflexivity|]. split; [reflexivity|].
  split; [|reflexivity].
  rewrite (updatePlayerKart_running 0 (1 / 60) itemKeyDown slowDuel
             (Kart.with_item (Some slow) (gridKart Track.new 0)))
    by reflexivity.
  change (Keys.useItem itemKeyDown
          && isSome (Kart.item (Kart.with_item (Some slow)
                                  (gridKart Track.new 0)))) with true.
  cbv iota. unfold snd.
  rewrite list_lookup_alter_ne by discriminate.
  erewrite useItem_other;
    [| apply list_lookup_insert_eq; simpl; lia | discriminate | reflexivity].
  rewrite item_drive. reflexivity.
Qed.

(** ** Drift release *)

Lemma driftHeld_false (ks : Keys.t) (k : Kart.t) :
  driftHeld ks k = false
  <-> Keys.drift ks = false \/ steeringOf ks = 0%Z \/ Kart.speed k <= 50.
Proof.
  unfold driftHeld, Rgtb.
  rewrite !andb_false_iff, negb_false_iff, Z.eqb_eq, Rltb_ge. tauto.
Qed.

(** The release block on a drifting kart. *)
Lemma releaseDrift_drifting (k : Kart.t) :
  Kart.drifting k = true ->
  Kart.driftAngleOffset (releaseDrift k) = 0
  /\ Kart.drifting (releaseDrift k) = false
  /\ Kart.driftBoost (releaseDrift k) = 0
  /\ (Kart.driftBoost k > 30 ->
      Kart.boosting (releaseDrift k) = true
      /\ Kart.boostTimer (releaseDrift k) = CONFIG.DRIFT_BOOST_DURATION)
  /\ (Kart.driftBoost k <= 30 ->
      Kart.boosting (releaseDrift k) = Kart.boosting k
      /\ Kart.boostTimer (releaseDrift k) = Kart.boostTimer k).
Proof.
  intros Hdrift. unfold releaseDrift, Rgtb. rewrite Hdrift.
  destruct (Rltb 30 (Kart.driftBoost k)) eqn:Hcharge; simpl.
  - apply Rltb_lt in Hcharge. repeat split; try reflexivity; lra.
  - apply Rltb_ge in Hcharge. repeat split; try reflexivity; lra.
Qed.

Lemma dropView_update (dt : R) (k : Kart.t) :
  dropView (Kart.update dt k) = dropView k.
Proof. unfold Kart.update. repeat case_match; reflexivity. Qed.

(** C7.  Drift release.  Let the player kart be drifting and still racing
    and let the drift condition fail after the speed update of the tick
    (drift key up, no steering, or speed at most 50).  Then what
    [updatePlayerKart] does to the kart before the item gives it the timed
    boost ([boosting] set, [boostTimer] at [DRIFT_BOOST_DURATION]) when the
    charge is above 30, and leaves [boosting] and [boostTimer] as they were
    when it is not; either way [driftAngleOffset] and the charge are 0 and
    the kart no longer drifts, also at the end of the step. *)
Theorem drift_release (i : nat) (dt : R) (ks : Keys.t) (karts : list Kart.t)
    (k : Kart.t) :
  karts !! i = Some k -> Kart.finished k = false -> Kart.drifting k = true ->
  (Keys.drift ks = false \/ steeringOf ks = 0%Z
   \/ Kart.speed (throttle ks dt k) <= 50) ->
  let k' := drive ks dt k in
  (Kart.driftBoost k > 30 ->
   Kart.boosting k' = true
   /\ Kart.boostTimer k' = CONFIG.DRIFT_BOOST_DURATION
   /\ Kart.driftBoost k' = 0)
  /\ (Kart.driftBoost k <= 30 ->
      Kart.boosting k' = Kart.boosting k
      /\ Kart.boostTimer k' = Kart.boostTimer k)
  /\ Kart.driftAngleOffset k' = 0
  /\ exists k'',
       (updatePlayerKart i dt ks karts).2 !! i = Some k''
       /\ Kart.driftAngleOffset k'' = 0 /\ Kart.driftBoost k'' = 0
       /\ Kart.drifting k'' = false.
Proof.
  intros Hi Hfin Hdrift Hexit k'.
  apply driftHeld_false in Hexit.
  assert (Hv1 : Kart.drifting (throttle ks dt k) = Kart.drifting k)
    by (apply view_throttle; reflexivity).
  assert (Hv2 : Kart.driftBoost (throttle ks dt k) = Kart.driftBoost k)
    by (apply view_throttle; reflexivity).
  assert (Hv4 : Kart.boosting (throttle ks dt k) = Kart.boosting k)
    by (apply view_throttle; reflexivity).
  assert (Hv5 : Kart.boostTimer (throttle ks dt k) = Kart.boostTimer k)
    by (apply view_throttle; reflexivity).
  destruct (releaseDrift_drifting (throttle ks dt k))
    as (Hoff & Hdr & Hch & Hfire & Hkeep); [congruence|].
  assert (Hk' : k' = integrate
                       (Kart.angle (driftOff ks dt (throttle ks dt k))
                        + Kart.driftAngleOffset
                            (driftOff ks dt (throttle ks dt k))) dt
                       (driftOff ks dt (throttle ks dt k))).
  { unfold k', drive, driftMechanics. rewrite Hexit. reflexivity. }
  assert (Hdrop : dropView k' = (0, 0, false)).
  { rewrite Hk'. unfold dropView, driftOff. simpl.
    rewrite Hoff, Hch, Hdr. reflexivity. }
  split; [|split; [|split]].
  - intros Hgt. rewrite Hv2 in Hfire. destruct (Hfire Hgt) as [Hb Ht].
    rewrite Hk'. unfold driftOff. simpl. auto.
  - intros Hle. rewrite Hv2 in Hkeep. destruct (Hkeep Hle) as [Hb Ht].
    rewrite Hk'. unfold driftOff. simpl. split; congruence.
  - rewrite Hk'. unfold driftOff. simpl. exact Hoff.
  - assert (Hv : dropView <$> (updatePlayerKart i dt ks karts).2
                 = dropView <$> <[i := k']> karts).
    { rewrite (updatePlayerKart_running i dt ks karts k Hi Hfin). fold k'.
      destruct (Keys.useItem ks && isSome (Kart.item k)); simpl;
        rewrite view_alter by (intros; apply dropView_update);
        [apply view_useItem; reflexivity | reflexivity]. }
    destruct (view_lookup dropView _ _ i k' Hv) as (k'' & Hi'' & Hk'').
    { apply list_lookup_insert_eq. eapply lookup_lt_Some, Hi. }
    exists k''. split; [exact Hi''|].
    rewrite Hdrop in Hk''. unfold dropView in Hk''.
    injection Hk'' as -> -> ->. repeat split.
Qed.

(** Scenario 2: released at charge 30.1 the boost fires, at 29.9 it does
    not. *)
Lemma drift_release_witness :
  (Kart.boosting (drive releaseKeys (1 / 60) chargedKart) = true
   /\ Kart.boostTimer (drive releaseKeys (1 / 60) chargedKart)
      = CONFIG.DRIFT_BOOST_DURATION
   /\ Kart.driftAngleOffset (drive releaseKeys (1 / 60) chargedKart) = 0)
  /\ (Kart.boosting (drive releaseKeys (1 / 60) underchargedKart) = false
      /\ Kart.driftAngleOffset (drive releaseKeys (1 / 60) underchargedKart)
         = 0).
Proof.
  split.
  - destruct (drift_release 0 (1 / 60) releaseKeys [chargedKart] chargedKart
                eq_refl eq_refl eq_refl (or_introl eq_refl))
      as (Hfire & _ & Hoff & _).
    destruct Hfire as (Hb & Ht & _).
    { unfold chargedKart. simpl. lra. }
    repeat split; assumption.
  - destruct (drift_release 0 (1 / 60) releaseKeys [underchargedKart]
                underchargedKart eq_refl eq_refl eq_refl
                (or_introl eq_refl))
      as (_ & Hkeep & Hoff & _).
    destruct Hkeep as (Hb & _).
    { unfold underchargedKart. simpl. lra. }
    split; [exact Hb | exact Hoff].
Defined.

(** ** Rubber-banding and the target speed of an AI kart *)

Lemma avoidLoop_targetSpeed (i : nat) (dt kx ky : R) (others : list Kart.t)
    (j : nat) (acc : R * R) :
  snd (avoidLoop i dt kx ky others j acc)
  = snd acc * (9 / 10) ^ nearCount i kx ky others j.
Proof.
  revert j acc. induction others as [|other rest IH]; intros j acc; simpl.
  - lra.
  - rewrite IH. unfold avoidOne.
    destruct (j =? i)%nat; simpl; [reflexivity|].
    destruct (Rltb _ 40); simpl; lra.
Qed.

(** C8, as amended.  For an AI kart and a player of progress [pp], the
    target speed after the rubber-banding block is 0.85 MAX_SPEED times
    (1 + RUBBER_BAND_STRENGTH) when the kart is more than 0.5 behind, times
    (1 - RUBBER_BAND_STRENGTH / 2) when it is more than 0.5 ahead, and
    0.85 MAX_SPEED otherwise; the target speed that the easing step compares
    against is that value times 0.9 for every other kart closer than 40. *)
Theorem rubber_band_target (i : nat) (dt pp : R) (kart : Kart.t)
    (karts : list Kart.t) :
  let base := CONFIG.MAX_SPEED * (85 / 100) in
  let diff := Kart.totalProgress kart - pp in
  (diff < - (5 / 10) ->
   rubberBand kart (Some pp) = base * (1 + CONFIG.RUBBER_BAND_STRENGTH))
  /\ (diff > 5 / 10 ->
      rubberBand kart (Some pp)
      = base * (1 - CONFIG.RUBBER_BAND_STRENGTH * (5 / 10)))
  /\ (- (5 / 10) <= diff <= 5 / 10 -> rubberBand kart (Some pp) = base)
  /\ snd (avoidance i dt kart (Some pp) karts)
     = rubberBand kart (Some pp)
       * (9 / 10) ^ nearCount i (Kart.x kart) (Kart.y kart) karts 0.
Proof.
  intros base diff. unfold rubberBand, Rgtb. fold base. fold diff.
  split; [|split; [|split]].
  - intros Hd.
    destruct (Rltb (5 / 10) diff) eqn:H1; [apply Rltb_lt in H1; lra|].
    destruct (Rltb diff (- (5 / 10))) eqn:H2; [reflexivity|].
    apply Rltb_ge in H2. lra.
  - intros Hd.
    destruct (Rltb (5 / 10) diff) eqn:H1; [reflexivity|].
    apply Rltb_ge in H1. lra.
  - intros [Hlo Hhi].
    destruct (Rltb (5 / 10) diff) eqn:H1; [apply Rltb_lt in H1; lra|].
    destruct (Rltb diff (- (5 / 10))) eqn:H2; [apply Rltb_lt in H2; lra|].
    reflexivity.
  - unfold avoidance. rewrite avoidLoop_targetSpeed. reflexivity.
Qed.

(** Scenario 5: an AI kart at progress 1.0 behind a player at 1.6. *)
Lemma rubber_band_target_witness :
  rubberBand (Kart.with_totalProgress 1 (plainKart 100 100 false))
             (Some (16 / 10))
  = CONFIG.MAX_SPEED * (85 / 100) * (1 + CONFIG.RUBBER_BAND_STRENGTH).
Proof.
  destruct (rubber_band_target 1 (1 / 60) (16 / 10)
              (Kart.with_totalProgress 1 (plainKart 100 100 false)) [])
    as (Hbehind & _).
  apply Hbehind. simpl. lra.
Defined.

(** C8, the claim as stated fails: with equal progress and the player on
    the same spot, the target speed that the easing step receives is not
    0.85 MAX_SPEED = 170 but 153. *)
Lemma target_speed_reduced_near_kart :
  let karts := [plainKart 100 100 true; plainKart 100 100 false] in
  let kart := plainKart 100 100 false in
  Kart.totalProgress kart - 0 <= 5 / 10
  /\ - (5 / 10) <= Kart.totalProgress kart - 0
  /\ snd (avoidance 1 (1 / 60) kart (Some 0) karts) = 153
  /\ CONFIG.MAX_SPEED * (85 / 100) = 170.
Proof.
  simpl. split; [lra|]. split; [lra|]. split.
  - unfold avoidance, avoidLoop, avoidOne. simpl.
    replace (100 - 100) with 0 by lra. rewrite hypot_origin.
    assert (H40 : Rltb 0 40 = true) by (apply Rltb_lt; lra).
    rewrite H40. simpl. unfold rubberBand, Rgtb. simpl.
    assert (H1 : Rltb (5 / 10) (0 - 0) = false) by (apply Rltb_ge; lra).
    assert (H2 : Rltb (0 - 0) (- (5 / 10)) = false) by (apply Rltb_ge; lra).
    rewrite H1, H2. unfold CONFIG.MAX_SPEED. lra.
  - unfold CONFIG.MAX_SPEED. lra.
Qed.

(** ** The track boundary *)

Lemma getTrackDistance_nonneg (track : Track.t) (x y : R) :
  0 <= Track.getTrackDistance track x y.
Proof. unfold Track.getTrackDistance. apply sqrt_pos. Qed.

(** A point placed at angle [a] and normalised distance [t] from the centre
    is at track distance [t]. *)
Lemma getTrackDistance_polar (track : Track.t) (a t : R) :
  Track.radiusX track <> 0 -> Track.radiusY track <> 0 -> 0 <= t ->
  Track.getTrackDistance track
    (Track.centerX track + cos a * t * Track.radiusX track)
    (Track.centerY track + sin a * t * Track.radiusY track)
  = t.
Proof.
  intros Hx Hy Ht. unfold Track.getTrackDistance.
  replace ((Track.centerX track + cos a * t * Track.radiusX track
            - Track.centerX track) / Track.radiusX track)
    with (cos a * t) by (field; exact Hx).
  replace ((Track.centerY track + sin a * t * Track.radiusY track
            - Track.centerY track) / Track.radiusY track)
    with (sin a * t) by (field; exact Hy).
  replace (cos a * t * (cos a * t) + sin a * t * (sin a * t))
    with (t * t * ((sin a)² + (cos a)²)) by (unfold Rsqr; ring).
  rewrite sin2_cos2, Rmult_1_r. apply sqrt_square, Ht.
Qed.

Lemma wallCollision_off (track : Track.t) (kart : Kart.t) :
  offCorridor track kart = true ->
  wallCollision track kart = pushBack track kart.
Proof. intros H. unfold wallCollision. rewrite H. reflexivity. Qed.

(** C9.  Boundary snap.  On a track with non-zero radii and a non-negative
    outer limit, when the boundary block fires the kart is put at track
    distance exactly the limit it had violated: the inner limit when it was
    below it, the outer limit otherwise. *)
Theorem boundary_snap (track : Track.t) (kart : Kart.t) :
  Track.radiusX track <> 0 -> Track.radiusY track <> 0 ->
  0 <= outerLimit track ->
  offCorridor track kart = true ->
  let trackDist :=
    Track.getTrackDistance track (Kart.x kart) (Kart.y kart) in
  let kart' := wallCollision track kart in
  let trackDist' :=
    Track.getTrackDistance track (Kart.x kart') (Kart.y kart') in
  (trackDist < innerLimit track -> trackDist' = innerLimit track)
  /\ (innerLimit track <= trackDist -> outerLimit track < trackDist
      /\ trackDist' = outerLimit track).
Proof.
  intros Hx Hy Houter Hoff trackDist kart' trackDist'.
  assert (Hdist : 0 <= targetDistOf track kart
                  -> trackDist' = targetDistOf track kart).
  { intros Ht. unfold trackDist', kart'. rewrite (wallCollision_off _ _ Hoff).
    unfold pushBack. simpl. apply getTrackDistance_polar; assumption. }
  unfold offCorridor, Rgtb in Hoff. fold trackDist in Hoff.
  unfold targetDistOf in Hdist. fold trackDist in Hdist.
  pose proof (getTrackDistance_nonneg track (Kart.x kart) (Kart.y kart))
    as Hpos. fold trackDist in Hpos.
  split.
  - intros Hlt. destruct (Rltb trackDist (innerLimit track)) eqn:Hin.
    + apply Hdist. lra.
    + apply Rltb_ge in Hin. lra.
  - intros Hge. destruct (Rltb trackDist (innerLimit track)) eqn:Hin.
    + apply Rltb_lt in Hin. lra.
    + simpl in Hoff. apply Rltb_lt in Hoff. split; [exact Hoff|].
      apply Hdist, Houter.
Qed.

Lemma Track_new_limits :
  innerLimit Track.new = 1 - 45 / 220 /\ outerLimit Track.new = 1 + 45 / 220.
Proof.
  unfold innerLimit, outerLimit, Math.min. simpl.
  unfold CONFIG.TRACK_WIDTH, CONFIG.TRACK_RADIUS_X, CONFIG.TRACK_RADIUS_Y.
  rewrite Rmin_right by lra. split; lra.
Qed.

Lemma getTrackDistance_center :
  Track.getTrackDistance Track.new CONFIG.TRACK_CENTER_X CONFIG.TRACK_CENTER_Y
  = 0.
Proof.
  unfold Track.getTrackDistance. simpl.
  replace (_ + _) with 0; [apply sqrt_0|].
  unfold CONFIG.TRACK_CENTER_X, CONFIG.TRACK_CENTER_Y, CONFIG.TRACK_RADIUS_X,
    CONFIG.TRACK_RADIUS_Y. lra.
Qed.

(** A kart on the centre of the infield is below the inner limit and lands
    on it. *)
Lemma boundary_snap_witness :
  let kart := plainKart CONFIG.TRACK_CENTER_X CONFIG.TRACK_CENTER_Y true in
  let kart' := wallCollision Track.new kart in
  Track.getTrackDistance Track.new (Kart.x kart') (Kart.y kart')
  = innerLimit Track.new.
Proof.
  intros kart kart'.
  destruct Track_new_limits as [Hin Hout].
  assert (Hbelow : Track.getTrackDistance Track.new (Kart.x kart)
                     (Kart.y kart) < innerLimit Track.new).
  { unfold kart. simpl. rewrite getTrackDistance_center, Hin. lra. }
  refine (proj1 (boundary_snap Track.new kart _ _ _ _) Hbelow).
  - simpl. unfold CONFIG.TRACK_RADIUS_X. lra.
  - simpl. unfold CONFIG.TRACK_RADIUS_Y. lra.
  - rewrite Hout. lra.
  - unfold offCorridor. apply orb_true_iff. left. apply Rltb_lt, Hbelow.
Defined.

(** ** The progress score *)

Lemma distanceTo_nonneg (k : Kart.t) (c : Checkpoint) : 0 <= distanceTo k c.
Proof. unfold distanceTo, Math.hypot. apply sqrt_pos. Qed.

Lemma proximity_distanceTo (k : Kart.t) (c : Checkpoint) :
  Track.proximity k c = 1 - distanceTo k c / 200.
Proof. reflexivity. Qed.

Lemma proximity_advance (raceTime : R) (k : Kart.t) (c : Checkpoint) :
  Track.proximity (Track.advance raceTime k) c = Track.proximity k c.
Proof.
  unfold Track.advance. simpl.
  destruct (_ && _); [destruct (_ && _)|]; reflexivity.
Qed.

(** C3, as amended.  After [checkCheckpoint], [totalProgress] is
    lap * CHECKPOINT_COUNT + checkpoint + f with f = 1 - d / 200, where d is
    the distance of the kart to the checkpoint that was its target when the
    call began.  f is at most 1, it is non-negative exactly when d is at
    most 200, and of two karts the one closer to that checkpoint has the
    strictly higher f. *)
Theorem progress_score (track : Track.t) (raceTime px py : R) (k : Kart.t) :
  checkpointOk track k ->
  exists c k',
    nthZ (Track.checkpoints track) (Kart.checkpoint k) = Some c
    /\ Track.checkCheckpoint track raceTime k px py = Some k'
    /\ Kart.totalProgress k'
       = IZR (Kart.lap k') * IZR CONFIG.CHECKPOINT_COUNT
         + IZR (Kart.checkpoint k') + (1 - distanceTo k c / 200)
    /\ 1 - distanceTo k c / 200 <= 1
    /\ (0 <= 1 - distanceTo k c / 200 <-> distanceTo k c <= 200)
    /\ forall k2 : Kart.t,
         distanceTo k2 c < distanceTo k c
         <-> 1 - distanceTo k2 c / 200 > 1 - distanceTo k c / 200.
Proof.
  intros Hok.
  destruct (checkCheckpoint_total track raceTime k px py Hok) as [k' Hrun].
  destruct (checkCheckpoint_inv _ _ _ _ _ _ Hrun) as (c & k1 & Hc & Hk1 & ->).
  exists c. eexists. split; [exact Hc|]. split; [exact Hrun|].
  pose proof (distanceTo_nonneg k c) as Hpos.
  split; [|split; [|split]].
  - simpl. f_equal. rewrite Hk1.
    destruct (Track.crosses k c); [apply proximity_advance | reflexivity].
  - lra.
  - split; intros; lra.
  - intros k2. split; intros; lra.
Qed.

Lemma progress_score_witness :
  exists c k',
    nthZ (Track.checkpoints Track.new) 0 = Some c
    /\ Track.checkCheckpoint Track.new 0 (gridKart Track.new 0) 0 0 = Some k'
    /\ Kart.totalProgress k'
       = IZR (Kart.lap k') * IZR CONFIG.CHECKPOINT_COUNT
         + IZR (Kart.checkpoint k')
         + (1 - distanceTo (gridKart Track.new 0) c / 200)
    /\ 1 - distanceTo (gridKart Track.new 0) c / 200 <= 1
    /\ (0 <= 1 - distanceTo (gridKart Track.new 0) c / 200
        <-> distanceTo (gridKart Track.new 0) c <= 200)
    /\ forall k2 : Kart.t,
         distanceTo k2 c < distanceTo (gridKart Track.new 0) c
         <-> 1 - distanceTo k2 c / 200
             > 1 - distanceTo (gridKart Track.new 0) c / 200.
Proof.
  apply (progress_score Track.new 0 0 0 (gridKart Track.new 0)).
  unfold checkpointOk. simpl. lia.
Defined.

(** The second checkpoint of the game's track is the rightmost point of
    the centre line. *)
Lemma Track_new_checkpoint_1 :
  nthZ (Track.checkpoints Track.new) 1
  = Some (mkCheckpoint (CONFIG.TRACK_CENTER_X + cos 0 * CONFIG.TRACK_RADIUS_X)
            (CONFIG.TRACK_CENTER_Y + sin 0 * CONFIG.TRACK_RADIUS_Y) 0 1).
Proof.
  unfold nthZ. simpl.
  replace (1 / IZR CONFIG.CHECKPOINT_COUNT * PI * 2 - PI / 2) with 0
    by (unfold CONFIG.CHECKPOINT_COUNT; lra).
  reflexivity.
Qed.

(** C3, the claim as stated fails: the fractional term is not in [0, 1).
    A kart that has just crossed the first checkpoint, at (400, 80), has the
    second one, at (720, 300), as its target; it is more than 200 away and
    the term is negative. *)
Lemma progress_fraction_negative :
  let k :=
    Kart.with_lastCheckpoint 0 (Kart.with_checkpoint 1 (plainKart 400 80 true))
  in
  exists k',
    Track.checkCheckpoint Track.new 0 k 0 0 = Some k'
    /\ Kart.totalProgress k'
       - (IZR (Kart.lap k') * IZR CONFIG.CHECKPOINT_COUNT
          + IZR (Kart.checkpoint k')) < 0.
Proof.
  intros k. unfold Track.checkCheckpoint.
  change (Kart.checkpoint k) with 1%Z. rewrite Track_new_checkpoint_1.
  eexists. split; [reflexivity|].
  rewrite cos_0, sin_0.
  unfold CONFIG.TRACK_CENTER_X, CONFIG.TRACK_CENTER_Y, CONFIG.TRACK_RADIUS_X,
    CONFIG.TRACK_RADIUS_Y.
  assert (Hfar : 200 < Math.hypot (400 - (400 + 1 * 320)) (80 - (300 + 0 * 220))).
  { unfold Math.hypot. rewrite <- (sqrt_square 200) at 1 by lra.
    apply sqrt_lt_1_alt. lra. }
  assert (Hcross : Track.crosses k (mkCheckpoint (400 + 1 * 320)
                                      (300 + 0 * 220) 0 1) = false).
  { unfold Track.crosses. simpl. apply andb_false_iff. left.
    apply Rltb_ge. lra. }
  rewrite Hcross. unfold Track.proximity. simpl. lra.
Qed.

(** ** The shield *)

(** [hit()] does what the shield is for: the first call on a shielded kart
    clears the shield and keeps the speed, the next one cuts the speed. *)
Lemma hit_absorbs_once (k : Kart.t) :
  Kart.shielded k = true ->
  let '(k1, spun1) := Kart.hit k in
  let '(k2, spun2) := Kart.hit k1 in
  Kart.shielded k1 = false /\ Kart.speed k1 = Kart.speed k /\ spun1 = false
  /\ Kart.speed k2 = Kart.speed k * (3 / 10) /\ spun2 = true.
Proof.
  intros Hsh. unfold Kart.hit. rewrite Hsh. simpl. repeat split.
Qed.

Lemma bumpAll_single (k : Kart.t) : bumpAll [k] = [k].
Proof. reflexivity. Qed.

(** The collision pass on one kart and no power-up. *)
Lemma handleCollisions_single (rnd : nat -> R) (track : Track.t)
    (raceTime : R) (draws : nat) (k : Kart.t) :
  checkpointOk track k ->
  exists k',
    handleCollisions rnd [k] track [] raceTime draws = Some ([k'], draws, [])
    /\ Track.checkCheckpoint track raceTime (wallCollision track k)
         (Kart.x (wallCollision track k)
          - vx (Kart.velocity (wallCollision track k)) * (16 / 1000))
         (Kart.y (wallCollision track k)
          - vy (Kart.velocity (wallCollision track k)) * (16 / 1000))
       = Some k'.
Proof.
  intros Hok. unfold handleCollisions. simpl. unfold resolveKart.
  destruct (checkCheckpoint_total track raceTime (wallCollision track k)
              (Kart.x (wallCollision track k)
               - vx (Kart.velocity (wallCollision track k)) * (16 / 1000))
              (Kart.y (wallCollision track k)
               - vy (Kart.velocity (wallCollision track k)) * (16 / 1000)))
    as [k' Hk'].
  { eapply checkpointOk_race; [|exact Hok].
    apply view_wallCollision; reflexivity. }
  exists k'. rewrite Hk'. simpl. split; reflexivity.
Qed.

Lemma shieldedKart_off : offCorridor Track.new shieldedKart = true.
Proof.
  destruct Track_new_limits as [_ Hout].
  unfold offCorridor, Rgtb. apply orb_true_iff. right. apply Rltb_lt.
  rewrite Hout. unfold Track.getTrackDistance. simpl.
  unfold CONFIG.TRACK_CENTER_X, CONFIG.TRACK_CENTER_Y, CONFIG.TRACK_RADIUS_X,
    CONFIG.TRACK_RADIUS_Y.
  replace ((300 - 300) / 220) with 0 by lra.
  change (sqrt (?a * ?a + 0 * 0)) with (Math.hypot a 0).
  rewrite hypot_axis by lra. lra.
Qed.

(** C2, the code at the failing input.  A shielded kart at speed 100 beyond
    the outer limit goes through the collision pass: the wall takes its 30
    percent of the speed and the shield is still up afterwards, whereas
    [hit()] on the same kart would have cleared the shield and kept the
    speed. *)
Lemma shield_ignored_by_collisions :
  exists k',
    handleCollisions (fun _ => 0) [shieldedKart] Track.new [] 0 0
      = Some ([k'], 0%nat, [])
    /\ Kart.shielded k' = true /\ Kart.speed k' = 70
    /\ Kart.shielded (Kart.hit shieldedKart).1 = false
    /\ Kart.speed (Kart.hit shieldedKart).1 = 100.
Proof.
  destruct (handleCollisions_single (fun _ => 0) Track.new 0 0 shieldedKart)
    as (k' & Hrun & Hcp).
  { unfold checkpointOk. simpl. lia. }
  exists k'. split; [exact Hrun|].
  rewrite (wallCollision_off _ _ shieldedKart_off) in Hcp.
  split; [|split; [|split]].
  - rewrite (checkCheckpoint_shielded _ _ _ _ _ _ Hcp). reflexivity.
  - rewrite (checkCheckpoint_speed _ _ _ _ _ _ Hcp).
    unfold pushBack. simpl. lra.
  - reflexivity.
  - reflexivity.
Qed.

(** ** The speed bound *)

Lemma speed_update (dt : R) (k : Kart.t) :
  Kart.speed (Kart.update dt k) = Kart.speed k.
Proof. unfold Kart.update. repeat case_match; reflexivity. Qed.

Lemma speed_throttle (ks : Keys.t) (dt : R) (k : Kart.t) :
  0 <= Kart.speed (throttle ks dt k) <= Kart.getMaxSpeed k.
Proof.
  unfold throttle. simpl. apply clamp_bounds, getMaxSpeed_bounds.
Qed.

Lemma speed_driftOff (ks : Keys.t) (dt : R) (k : Kart.t) :
  Kart.speed (driftOff ks dt k) = Kart.speed k.
Proof.
  unfold driftOff, releaseDrift, Kart.applyBoost. simpl.
  repeat case_match; reflexivity.
Qed.

Lemma speed_driftOn (ks : Keys.t) (dt : R) (k : Kart.t) :
  Kart.speed (driftOn ks dt k) = Kart.speed k * CONFIG.DRIFT_GRIP.
Proof. unfold driftOn. simpl. case_match; reflexivity. Qed.

(** The clamp of the player step, seen after the whole of [drive]. *)
Lemma speed_drive (ks : Keys.t) (dt : R) (k : Kart.t) :
  0 <= Kart.speed (drive ks dt k) <= Kart.getMaxSpeed k.
Proof.
  pose proof (speed_throttle ks dt k) as Hthr.
  unfold drive, driftMechanics.
  change (Kart.speed (integrate ?a dt ?k1)) with (Kart.speed k1).
  destruct (driftHeld ks (throttle ks dt k)).
  - rewrite speed_driftOn. unfold CONFIG.DRIFT_GRIP. lra.
  - rewrite speed_driftOff. exact Hthr.
Qed.

(** The clamp of the AI step, seen after the whole of [driveAI]. *)
Lemma speed_driveAI (i : nat) (dt : R) (target : Waypoint) (pp : option R)
    (karts : list Kart.t) (k : Kart.t) :
  0 <= Kart.speed (driveAI i dt target pp karts k) <= Kart.getMaxSpeed k.
Proof.
  unfold driveAI.
  change (Kart.speed (integrate ?a dt ?k1)) with (Kart.speed k1).
  unfold ease.
  match goal with
  | |- context [Math.min (Kart.getMaxSpeed ?k1) _] =>
      replace (Kart.getMaxSpeed k1) with (Kart.getMaxSpeed k)
  end.
  - simpl. apply clamp_bounds, getMaxSpeed_bounds.
  - symmetry.
    assert (Hflags : forall k1 k2 : Kart.t,
               (Kart.boosting k1, Kart.slowed k1)
               = (Kart.boosting k2, Kart.slowed k2) ->
               Kart.getMaxSpeed k1 = Kart.getMaxSpeed k2).
    { intros k1 k2 [= Hb Hs]. unfold Kart.getMaxSpeed. rewrite Hb, Hs.
      reflexivity. }
    apply Hflags.
    case_match; simpl;
      apply (view_steerToward (fun k => (Kart.boosting k, Kart.slowed k)));
      reflexivity.
Qed.

Lemma speedOk_of_clamp (k k' : Kart.t) :
  0 <= Kart.speed k' <= Kart.getMaxSpeed k -> speedOk k'.
Proof.
  intros H. pose proof (getMaxSpeed_bounds k). unfold speedOk. lra.
Qed.

Lemma speedOk_view (k k' : Kart.t) :
  Kart.speed k' = Kart.speed k -> speedOk k -> speedOk k'.
Proof. unfold speedOk. intros ->. tauto. Qed.

Lemma speedOk_updateKart (rnd : nat -> R) (dt : R) (track : Track.t)
    (playerKart : option nat) (i : nat) (st st' : Keys.t * list Kart.t * nat) :
  updateKart rnd dt track playerKart i st = Some st' ->
  Forall speedOk st.1.2 -> Forall speedOk st'.1.2.
Proof.
  destruct st as [[ks karts] draws]. unfold updateKart. simpl.
  destruct (karts !! i) as [kart|]; [|intros [= <-]; tauto].
  destruct (Kart.isPlayer kart).
  - destruct (view_updatePlayerKart Kart.speed) with (i := i) (dt := dt)
      (ks := ks) (karts := karts) as [H|(k & Hk & _ & H)];
      try reflexivity; try apply speed_update;
      destruct (updatePlayerKart i dt ks karts) as [ks' karts'];
      intros [= <-] Hall; simpl in *;
      apply (Forall_view Kart.speed speedOk _ _ speedOk_view H).
    + exact Hall.
    + apply Forall_insert; [exact Hall|].
      eapply speedOk_of_clamp, speed_drive.
  - destruct (updateAIKart rnd i dt track playerKart karts draws)
      as [[karts' draws']|] eqn:Hrun; [|discriminate].
    intros [= <-] Hall. simpl.
    destruct (fun a b c d e =>
                view_updateAIKart Kart.speed a b c d e _ _ _ _ _ _ _ _ _ Hrun)
      as [H|(k & target & pp & Hk & _ & H)];
      try reflexivity; try apply speed_update;
      apply (Forall_view Kart.speed speedOk _ _ speedOk_view H).
    + exact Hall.
    + apply Forall_insert; [exact Hall|].
      eapply speedOk_of_clamp, speed_driveAI.
Qed.

Lemma speedOk_updateKarts (rnd : nat -> R) (dt : R) (track : Track.t)
    (playerKart : option nat) (indices : list nat)
    (st st' : Keys.t * list Kart.t * nat) :
  updateKarts rnd dt track playerKart indices st = Some st' ->
  Forall speedOk st.1.2 -> Forall speedOk st'.1.2.
Proof.
  revert st. induction indices as [|i indices IH]; intros st; simpl.
  - intros [= <-]. tauto.
  - destruct (updateKart rnd dt track playerKart i st) as [st1|] eqn:H1;
      [|discriminate].
    intros Hrest Hall. eapply IH; [exact Hrest|].
    eapply speedOk_updateKart; eassumption.
Qed.

Lemma speedOk_wallCollision (track : Track.t) (k : Kart.t) :
  speedOk k -> speedOk (wallCollision track k).
Proof.
  unfold speedOk, wallCollision, pushBack, topSpeed.
  destruct (offCorridor track k); simpl; lra.
Qed.

Lemma speedOk_resolveKarts (rnd : nat -> R) (track : Track.t) (raceTime : R)
    (karts karts' : list Kart.t) (draws draws' : nat)
    (powerUps powerUps' : list PowerUp.t) :
  resolveKarts rnd track raceTime karts draws powerUps
    = Some (karts', draws', powerUps') ->
  Forall speedOk karts -> Forall speedOk karts'.
Proof.
  intros Hrun Hall. apply Forall_lookup. intros i k' Hi'.
  assert (Hlt : (i < length karts)%nat).
  { rewrite <- (resolveKarts_length _ _ _ _ _ _ _ _ _ Hrun).
    eapply lookup_lt_Some, Hi'. }
  destruct (lookup_lt_is_Some_2 _ _ Hlt) as [k Hi].
  destruct (resolveKarts_lookup Kart.speed (fun _ _ => eq_refl)
              _ _ _ _ _ _ _ _ _ i k Hrun Hi)
    as (px & py & k2 & k3 & Hcp & Hk3 & Hi3).
  assert (k3 = k') by congruence. subst k3.
  apply (speedOk_view k2); [exact Hk3|].
  apply (speedOk_view (wallCollision track k));
    [eapply checkCheckpoint_speed, Hcp|].
  apply speedOk_wallCollision. eapply Forall_lookup_1; eassumption.
Qed.

(** The momentum transfer keeps both speeds between the two old ones. *)
Lemma speedOk_bumpPair (k1 k2 : Kart.t) :
  speedOk k1 -> speedOk k2 ->
  speedOk (bumpPair k1 k2).1 /\ speedOk (bumpPair k1 k2).2.
Proof.
  unfold speedOk, bumpPair. intros H1 H2.
  destruct (Rltb _ minDist); simpl; lra.
Qed.

Lemma speedOk_bump (i j : nat) (karts : list Kart.t) :
  Forall speedOk karts -> Forall speedOk (bump i j karts).
Proof.
  intros Hall. unfold bump.
  destruct (karts !! i) as [k1|] eqn:Hi; [|exact Hall].
  destruct (karts !! j) as [k2|] eqn:Hj; [|exact Hall].
  destruct (speedOk_bumpPair k1 k2) as [H1 H2];
    [eapply Forall_lookup_1; eassumption..|].
  destruct (bumpPair k1 k2) as [k1' k2']. simpl in *.
  apply Forall_insert; [apply Forall_insert|]; assumption.
Qed.

Lemma speedOk_bumpAll (karts : list Kart.t) :
  Forall speedOk karts -> Forall speedOk (bumpAll karts).
Proof.
  unfold bumpAll. generalize (seq 0 (length karts)). intros indices.
  revert karts. induction indices as [|i indices IH]; intros karts Hall;
    simpl; [exact Hall|].
  apply IH. unfold bumpRow. generalize (seq (S i) (length karts - S i)).
  intros js. revert karts Hall.
  induction js as [|j js IHj]; intros karts Hall; simpl; [exact Hall|].
  apply IHj, speedOk_bump, Hall.
Qed.

(** The range of speeds through one tick. *)
Lemma speedOk_simulate (rnd : nat -> R) (dt : R) (w w' : World) :
  simulate rnd dt w = Some w' ->
  Forall speedOk (karts w) -> Forall speedOk (karts w').
Proof.
  intros Hrun Hall.
  destruct (simulate_inv _ _ _ _ Hrun)
    as (_ & ks & karts1 & d1 & karts2 & d2 & p2 & Hphys & Hres & -> & _).
  apply speedOk_updateKarts in Hphys; [|exact Hall]. simpl in Hphys.
  apply speedOk_resolveKarts in Hres; [|exact Hphys].
  apply (Forall_view Kart.speed speedOk (bumpAll karts2));
    [exact speedOk_view | apply view_calculatePositions; reflexivity|].
  apply speedOk_bumpAll, Hres.
Qed.

(** C1, as amended.  From a race state in which every speed is between 0
    and MAX_SPEED + DRIFT_BOOST_SPEED, the largest value of [getMaxSpeed],
    any run of ticks goes through and every speed is in that range at the
    end of each tick.  Within a tick, what a physics step does to its own
    kart before the item leaves the speed between 0 and the [getMaxSpeed]
    of the flags the kart had when the step began. *)
Theorem speed_bound (rnd : nat -> R) (dts : list R) (w : World) :
  wellFormed w -> Forall speedOk (karts w) ->
  (exists w', run rnd dts w = Some w' /\ Forall speedOk (karts w'))
  /\ (forall ks dt k, 0 <= Kart.speed (drive ks dt k) <= Kart.getMaxSpeed k)
  /\ (forall i dt target pp others k,
        0 <= Kart.speed (driveAI i dt target pp others k)
        <= Kart.getMaxSpeed k).
Proof.
  intros Hwf Hall.
  split; [|split; [intros; apply speed_drive | intros; apply speed_driveAI]].
  revert w Hwf Hall. induction dts as [|dt dts IH]; intros w Hwf Hall; simpl.
  - exists w. split; [reflexivity | exact Hall].
  - destruct (simulate_total rnd dt w Hwf) as [w1 Hrun]. rewrite Hrun.
    apply IH.
    + eapply wellFormed_simulate; eassumption.
    + eapply speedOk_simulate; eassumption.
Qed.

Lemma gridWorld_speedOk : Forall speedOk (karts gridWorld).
Proof.
  repeat constructor; unfold speedOk, topSpeed, CONFIG.MAX_SPEED,
    CONFIG.DRIFT_BOOST_SPEED; simpl; lra.
Qed.

Lemma speed_bound_witness :
  exists w',
    run (fun _ => 0) [1 / 60; 1 / 20; 1 / 60] gridWorld = Some w'
    /\ Forall speedOk (karts w').
Proof.
  exact (proj1 (speed_bound (fun _ => 0) [1 / 60; 1 / 20; 1 / 60] gridWorld
                  gridWorld_wellFormed gridWorld_speedOk)).
Defined.

(** *** A tick that ends above the maximum *)

(** The player step on a kart that is not drifting, with the drift key up. *)
Lemma drive_no_drift (ks : Keys.t) (dt : R) (k : Kart.t) :
  Keys.drift ks = false -> Kart.drifting k = false ->
  drive ks dt k
  = let k1 := throttle ks dt k in
    let k2 :=
      Kart.with_angle
        (Kart.angle k1 + IZR (steeringOf ks) * steerRateOf k1 * dt) k1 in
    integrate (Kart.angle k2 + Kart.driftAngleOffset k2) dt k2.
Proof.
  intros Hkey Hdrift. unfold drive, driftMechanics, driftHeld.
  rewrite Hkey. simpl andb. cbv iota. unfold driftOff, releaseDrift.
  rewrite (view_throttle Kart.drifting) by reflexivity.
  rewrite Hdrift. reflexivity.
Qed.

Lemma boostKart_driven :
  let d := drive throttleKeys (1 / 60) boostKart in
  Kart.speed d = 250 /\ Kart.x d = 720 + 125 / 60 /\ Kart.y d = 300
  /\ Kart.boosting d = true /\ Kart.boostTimer d = 1 / 100
  /\ Kart.slowed d = false /\ Kart.slowTimer d = 0 /\ Kart.checkpoint d = 0%Z.
Proof.
  intros d. unfold d. rewrite drive_no_drift by reflexivity.
  assert (Hspeed : Kart.speed (throttle throttleKeys (1 / 60) boostKart) = 250).
  { unfold throttle. simpl. unfold Kart.getMaxSpeed. simpl.
    unfold Math.max, Math.min, CONFIG.MAX_SPEED, CONFIG.DRIFT_BOOST_SPEED,
      CONFIG.ACCELERATION.
    rewrite Rmin_left by lra. rewrite Rmax_right by lra. lra. }
  cbv zeta. unfold integrate. simpl.
  change (Math.max 0
            (Math.min (Kart.getMaxSpeed boostKart)
               (250 + CONFIG.ACCELERATION * (1 / 60))))
    with (Kart.speed (throttle throttleKeys (1 / 60) boostKart)).
  rewrite Hspeed.
  change (IZR (steeringOf throttleKeys)) with 0.
  replace (0 + 0 * steerRateOf (throttle throttleKeys (1 / 60) boostKart)
               * (1 / 60) + 0) with 0 by lra.
  rewrite cos_0, sin_0. repeat split; lra.
Qed.

Lemma boosting_update_expired (dt : R) (k : Kart.t) :
  0 < Kart.boostTimer k -> Kart.boostTimer k - dt <= 0 ->
  Kart.boosting (Kart.update dt k) = false.
Proof.
  intros Hpos Hexp. apply Rltb_lt in Hpos. apply Rleb_le in Hexp.
  unfold Kart.update, Rgtb. rewrite Hpos. simpl. rewrite Hexp.
  repeat case_match; reflexivity.
Qed.

Lemma slowed_update (dt : R) (k : Kart.t) :
  Kart.slowed k = false -> Kart.slowed (Kart.update dt k) = false.
Proof.
  intros Hs. unfold Kart.update. repeat case_match; simpl; try exact Hs;
    reflexivity.
Qed.

Lemma place_update (dt : R) (k : Kart.t) :
  Kart.x (Kart.update dt k) = Kart.x k /\ Kart.y (Kart.update dt k) = Kart.y k
  /\ Kart.checkpoint (Kart.update dt k) = Kart.checkpoint k.
Proof. unfold Kart.update. repeat case_match; repeat split. Qed.

Lemma boostKart_updated :
  let k1 := Kart.update (1 / 60) (drive throttleKeys (1 / 60) boostKart) in
  Kart.speed k1 = 250 /\ Kart.x k1 = 720 + 125 / 60 /\ Kart.y k1 = 300
  /\ Kart.getMaxSpeed k1 = 200 /\ Kart.checkpoint k1 = 0%Z.
Proof.
  destruct boostKart_driven as (Hs & Hx & Hy & Hb & Hbt & Hsl & Hst & Hc).
  intros k1.
  destruct (place_update (1 / 60) (drive throttleKeys (1 / 60) boostKart))
    as (Hx1 & Hy1 & Hc1).
  pose proof (speed_update (1 / 60) (drive throttleKeys (1 / 60) boostKart))
    as Hs1.
  fold k1 in Hx1, Hy1, Hc1, Hs1.
  split; [congruence|]. split; [congruence|]. split; [congruence|].
  split; [|congruence].
  unfold Kart.getMaxSpeed, k1.
  rewrite boosting_update_expired by (rewrite Hbt; lra).
  rewrite slowed_update by exact Hsl.
  reflexivity.
Qed.

Lemma updateKarts_single_player (rnd : nat -> R) (dt : R) (track : Track.t)
    (playerKart : option nat) (ks : Keys.t) (k : Kart.t) (draws : nat) :
  Kart.isPlayer k = true -> Kart.finished k = false -> Kart.item k = None ->
  updateKarts rnd dt track playerKart [0%nat] (ks, [k], draws)
  = Some (ks, [Kart.update dt (drive ks dt k)], draws).
Proof.
  intros Hpl Hfin Hitem. simpl. unfold updateKart.
  change ([k] !! 0%nat) with (Some k). cbv iota beta. rewrite Hpl.
  rewrite (updatePlayerKart_running 0 dt ks [k] k eq_refl Hfin).
  rewrite Hitem, andb_false_r. reflexivity.
Qed.

Lemma boostKart_on_corridor :
  offCorridor Track.new
    (Kart.update (1 / 60) (drive throttleKeys (1 / 60) boostKart)) = false.
Proof.
  destruct boostKart_updated as (_ & Hx & Hy & _).
  destruct Track_new_limits as [Hin Hout].
  unfold offCorridor, Rgtb, Track.getTrackDistance. rewrite Hx, Hy, Hin, Hout.
  simpl.
  unfold CONFIG.TRACK_CENTER_X, CONFIG.TRACK_CENTER_Y, CONFIG.TRACK_RADIUS_X,
    CONFIG.TRACK_RADIUS_Y.
  replace ((300 - 300) / 220) with 0 by lra.
  change (sqrt (?a * ?a + 0 * 0)) with (Math.hypot a 0).
  rewrite hypot_axis by lra.
  apply orb_false_iff. split; apply Rltb_ge; lra.
Qed.

Lemma calculatePositions_single (k : Kart.t) :
  calculatePositions [k] = [Kart.with_position 1 k].
Proof. reflexivity. Qed.

(** C1, the claim as stated fails.  The kart is within its maximum when the
    tick begins; the clamp of the physics step lets it keep 250 while it is
    boosting, the timers that run at the end of the step end the boost, and
    the tick ends with speed 250 above [getMaxSpeed] = 200. *)
Lemma speed_above_max_after_boost_expiry :
  0 <= Kart.speed boostKart <= Kart.getMaxSpeed boostKart
  /\ exists w' k',
       simulate (fun _ => 0) (1 / 60) boostWorld = Some w'
       /\ karts w' !! 0%nat = Some k'
       /\ Kart.getMaxSpeed k' = 200 /\ Kart.speed k' = 250.
Proof.
  split.
  { unfold Kart.getMaxSpeed, CONFIG.MAX_SPEED, CONFIG.DRIFT_BOOST_SPEED.
    simpl. lra. }
  destruct boostKart_updated as (Hs & _ & _ & Hmax & Hc).
  set (k1 := Kart.update (1 / 60) (drive throttleKeys (1 / 60) boostKart)) in *.
  destruct (handleCollisions_single (fun _ => 0) Track.new (0 + 1 / 60) 0 k1)
    as (k2 & Hrun & Hcp).
  { unfold checkpointOk. rewrite Hc. simpl. lia. }
  pose proof boostKart_on_corridor as Hon. fold k1 in Hon.
  unfold wallCollision in Hcp. rewrite Hon in Hcp.
  eexists. exists (Kart.with_position 1 k2).
  split; [|split; [|split]].
  - unfold simulate.
    change (karts boostWorld) with [boostKart].
    change (track boostWorld) with Track.new.
    change (findPlayer [boostKart] 0) with (Some 0%nat).
    change (seq 0 (length [boostKart])) with [0%nat].
    change (keys boostWorld) with throttleKeys.
    change (draws boostWorld) with 0%nat.
    rewrite updateKarts_single_player by reflexivity.
    fold k1.
    change (powerUps boostWorld) with (@nil PowerUp.t).
    cbv zeta.
    change (gameState boostWorld) with (GameState.mk true 0 0 false None).
    cbn [GameState.raceTime GameState.running GameState.countdown
         GameState.finished GameState.winner].
    rewrite Hrun. reflexivity.
  - reflexivity.
  - change (Kart.getMaxSpeed (Kart.with_position 1 k2))
      with (Kart.getMaxSpeed k2).
    rewrite <- Hmax. eapply view_checkCheckpoint; try reflexivity. exact Hcp.
  - change (Kart.speed (Kart.with_position 1 k2)) with (Kart.speed k2).
    rewrite <- Hs. eapply checkCheckpoint_speed, Hcp.
Qed.

(** ** Kart-to-kart collisions *)

Lemma hypot_nonneg (a b : R) : 0 <= Math.hypot a b.
Proof. unfold Math.hypot. apply sqrt_pos. Qed.

Lemma hypot_scale (c a b : R) :
  0 <= c -> Math.hypot (c * a) (c * b) = c * Math.hypot a b.
Proof.
  intros Hc. unfold Math.hypot.
  replace (c * a * (c * a) + c * b * (c * b)) with (c * c * (a * a + b * b))
    by ring.
  rewrite sqrt_mult_alt by nra. rewrite sqrt_square by exact Hc. reflexivity.
Qed.




Lemma hypot_unit (c a : R) : 0 <= c -> Math.hypot (cos a * c) (sin a * c) = c.
Proof.
  intros Hc.
  replace (cos a * c) with (c * cos a) by ring.
  replace (sin a * c) with (c * sin a) by ring.
  rewrite hypot_scale by exact Hc. unfold Math.hypot.
  replace (cos a * cos a + sin a * sin a) with ((sin a)² + (cos a)²)
    by (unfold Rsqr; ring).
  rewrite sin2_cos2, sqrt_1. ring.
Qed.
















(** * Further properties of the engine *)

(** ** The starting grid *)

Lemma wellFormed_same (w w' : World) :
  track w' = track w -> karts w' = karts w -> wellFormed w -> wellFormed w'.
Proof.
  intros Ht Hk [H1 H2 H3 H4].
  split; rewrite ?Ht, ?Hk; assumption.
Qed.

Lemma reset_wellFormed (rnd : nat -> R) (now : R) (w : World) :
  wellFormed (reset rnd now w)
  /\ Forall speedOk (karts (reset rnd now w))
  /\ length (karts (reset rnd now w)) = 4%nat.
Proof.
  split; [|split].
  - split.
    + reflexivity.
    + repeat constructor; unfold checkpointOk; simpl; lia.
    + discriminate.
    + discriminate.
  - repeat constructor; unfold speedOk, topSpeed, CONFIG.MAX_SPEED,
      CONFIG.DRIFT_BOOST_SPEED; simpl; lra.
  - reflexivity.
Qed.

(** Splits a statement about every kart of a literal list of karts into
    one goal for each kart. *)
Ltac for_each_kart :=
  simpl karts;
  repeat match goal with
         | |- Forall _ (_ :: _) => constructor
         | |- Forall _ [] => constructor
         end.

(** ** Invariants of the karts through a tick

    A property [P] of a kart that every operation of the tick keeps is kept,
    for every kart, by the tick and by a run of ticks whose frame times
    satisfy [D]. *)

Lemma Forall_alter_keeps {A : Type} (P : A -> Prop) (f : A -> A)
    (l : list A) (i : nat) :
  (forall x, P x -> P (f x)) -> Forall P l -> Forall P (alter f i l).
Proof.
  intros Hf Hl. revert i.
  induction Hl as [|x l Hx Hl IH]; intros [|i]; simpl.
  - constructor.
  - constructor.
  - constructor; [apply Hf, Hx | exact Hl].
  - constructor; [exact Hx | apply IH].
Qed.

Lemma Forall_imap_keeps {A : Type} (P : A -> Prop) (f : nat -> A -> A)
    (l : list A) :
  (forall j x, P x -> P (f j x)) -> Forall P l -> Forall P (imap f l).
Proof.
  intros Hf Hl. revert f Hf.
  induction Hl as [|x l Hx Hl IH]; intros f Hf; simpl; constructor.
  - apply Hf, Hx.
  - apply IH. intros j y. apply Hf.
Qed.

Section TickInvariant.

Context (P : Kart.t -> Prop) (D : R -> Prop).

Hypothesis P_drive : forall dt ks k, D dt -> P k -> P (drive ks dt k).
Hypothesis P_driveAI :
  forall dt i target pp karts k,
    D dt -> P k -> P (driveAI i dt target pp karts k).
Hypothesis P_update : forall dt k, D dt -> P k -> P (Kart.update dt k).
Hypothesis P_item : forall o k, P k -> P (Kart.with_item o k).
Hypothesis P_boostItem :
  forall k, P k ->
    P (Kart.with_boostTimer CONFIG.BOOST_DURATION (Kart.with_boosting true k)).
Hypothesis P_shieldItem :
  forall k, P k ->
    P (Kart.with_shieldTimer CONFIG.SHIELD_DURATION
         (Kart.with_shielded true k)).
Hypothesis P_slowItem : forall k, P k -> P (slowedBy k).
Hypothesis P_wall : forall track k, P k -> P (wallCollision track k).
Hypothesis P_check :
  forall track raceTime k k' px py,
    Track.checkCheckpoint track raceTime k px py = Some k' -> P k -> P k'.
Hypothesis P_bump :
  forall k1 k2, P k1 -> P k2 -> P (bumpPair k1 k2).1 /\ P (bumpPair k1 k2).2.
Hypothesis P_position : forall v k, P k -> P (Kart.with_position v k).

Lemma keeps_useItem (i : nat) (karts : list Kart.t) :
  Forall P karts -> Forall P (useItem i karts).
Proof.
  intros Hall. unfold useItem.
  destruct (karts !! i) as [kart|] eqn:Hi; [|exact Hall].
  assert (Hins : Forall P (<[i := Kart.with_item None kart]> karts)).
  { apply Forall_insert; [exact Hall|].
    apply P_item. eapply Forall_lookup_1; eassumption. }
  destruct (Kart.item kart) as [[| |]|].
  - apply Forall_alter_keeps; [exact P_boostItem | exact Hins].
  - apply Forall_alter_keeps; [exact P_shieldItem | exact Hins].
  - apply Forall_imap_keeps; [|exact Hins].
    intros j k Hk. case_match; [apply P_slowItem, Hk | exact Hk].
  - exact Hins.
Qed.

Lemma keeps_updatePlayerKart (i : nat) (dt : R) (ks : Keys.t)
    (karts : list Kart.t) :
  D dt -> Forall P karts -> Forall P (updatePlayerKart i dt ks karts).2.
Proof.
  intros Hdt Hall. unfold updatePlayerKart.
  destruct (karts !! i) as [kart|] eqn:Hi; [|exact Hall].
  destruct (Kart.finished kart); [exact Hall|].
  assert (Hins : Forall P (<[i := drive ks dt kart]> karts)).
  { apply Forall_insert; [exact Hall|].
    apply P_drive; [exact Hdt|]. eapply Forall_lookup_1; eassumption. }
  destruct (Keys.useItem ks && isSome (Kart.item (drive ks dt kart))); simpl;
    apply Forall_alter_keeps; auto using keeps_useItem.
Qed.

Lemma keeps_updateAIKart (rnd : nat -> R) (i : nat) (dt : R)
    (track : Track.t) (playerKart : option nat) (karts karts' : list Kart.t)
    (draws draws' : nat) :
  D dt ->
  updateAIKart rnd i dt track playerKart karts draws = Some (karts', draws') ->
  Forall P karts -> Forall P karts'.
Proof.
  intros Hdt. unfold updateAIKart.
  destruct (karts !! i) as [kart|] eqn:Hi; [|intros [= <- <-]; tauto].
  destruct (Kart.finished kart); [intros [= <- <-]; tauto|].
  destruct (Track.waypoints track !! _) as [target|]; [|discriminate].
  match goal with
  | |- context [<[i := ?kart1]> karts] => set (kart' := kart1)
  end.
  intros Hrun Hall.
  assert (Hins : Forall P (<[i := kart']> karts)).
  { apply Forall_insert; [exact Hall|].
    apply P_driveAI; [exact Hdt|]. eapply Forall_lookup_1; eassumption. }
  destruct (isSome (Kart.item kart')); [destruct (Rltb _ _)|];
    injection Hrun as <- <-;
    apply Forall_alter_keeps; auto using keeps_useItem.
Qed.

Lemma keeps_updateKarts (rnd : nat -> R) (dt : R) (track : Track.t)
    (playerKart : option nat) (indices : list nat)
    (st st' : Keys.t * list Kart.t * nat) :
  D dt ->
  updateKarts rnd dt track playerKart indices st = Some st' ->
  Forall P st.1.2 -> Forall P st'.1.2.
Proof.
  intros Hdt. revert st.
  induction indices as [|i indices IH]; intros st; simpl.
  - intros [= <-]. tauto.
  - destruct (updateKart rnd dt track playerKart i st) as [st1|] eqn:H1;
      [|discriminate].
    intros Hrest Hall. apply (IH _ Hrest). clear Hrest IH.
    destruct st as [[ks karts] draws]. unfold updateKart in H1. simpl in *.
    destruct (karts !! i) as [kart|]; [|injection H1 as <-; exact Hall].
    destruct (Kart.isPlayer kart).
    + pose proof (keeps_updatePlayerKart i dt ks karts Hdt Hall) as H.
      destruct (updatePlayerKart i dt ks karts) as [ks' karts'].
      injection H1 as <-. exact H.
    + destruct (updateAIKart rnd i dt track playerKart karts draws)
        as [[karts' draws']|] eqn:Hrun; [|discriminate].
      injection H1 as <-. simpl. eapply keeps_updateAIKart; eassumption.
Qed.

Lemma keeps_pickUp (rnd : nat -> R) (powerUps : list PowerUp.t)
    (k : Kart.t) (draws : nat) :
  P k -> P (pickUp rnd k draws powerUps).1.1.
Proof.
  revert k draws.
  induction powerUps as [|powerUp rest IH]; intros k draws Hk; simpl.
  - exact Hk.
  - destruct (negb (PowerUp.active powerUp)); simpl.
    { specialize (IH k draws Hk).
      destruct (pickUp rnd k draws rest) as [[k' d'] r']. exact IH. }
    destruct (isSome (Kart.item k)); simpl.
    { specialize (IH k draws Hk).
      destruct (pickUp rnd k draws rest) as [[k' d'] r']. exact IH. }
    destruct (Rltb _ _); simpl.
    + match goal with
      | |- context [pickUp rnd ?k1 ?d1 rest] =>
          specialize (IH k1 d1 (P_item _ _ Hk));
          destruct (pickUp rnd k1 d1 rest) as [[k' d'] r']
      end.
      exact IH.
    + specialize (IH k draws Hk).
      destruct (pickUp rnd k draws rest) as [[k' d'] r']. exact IH.
Qed.

Lemma keeps_resolveKarts (rnd : nat -> R) (track : Track.t) (raceTime : R)
    (karts karts' : list Kart.t) (draws draws' : nat)
    (powerUps powerUps' : list PowerUp.t) :
  resolveKarts rnd track raceTime karts draws powerUps
    = Some (karts', draws', powerUps') ->
  Forall P karts -> Forall P karts'.
Proof.
  intros Hrun Hall. revert karts' draws draws' powerUps powerUps' Hrun.
  induction Hall as [|k rest Hk Hrest IH];
    intros karts' draws draws' powerUps powerUps' Hrun; simpl in Hrun.
  - injection Hrun as <- <- <-. constructor.
  - unfold resolveKart in Hrun.
    destruct (Track.checkCheckpoint track raceTime (wallCollision track k) _ _)
      as [k2|] eqn:Hcp; [|discriminate].
    pose proof (keeps_pickUp rnd powerUps k2 draws
                  (P_check _ _ _ _ _ _ Hcp (P_wall track k Hk))) as Hk3.
    destruct (pickUp rnd k2 draws powerUps) as [[k3 d3] p3]. simpl in *.
    destruct (resolveKarts rnd track raceTime rest d3 p3)
      as [[[rest' d4] p4]|] eqn:Hres; [|discriminate].
    injection Hrun as <- <- <-. constructor; [exact Hk3|].
    eapply IH, Hres.
Qed.

Lemma keeps_bump (i j : nat) (karts : list Kart.t) :
  Forall P karts -> Forall P (bump i j karts).
Proof.
  intros Hall. unfold bump.
  destruct (karts !! i) as [k1|] eqn:Hi; [|exact Hall].
  destruct (karts !! j) as [k2|] eqn:Hj; [|exact Hall].
  destruct (P_bump k1 k2) as [H1 H2];
    [eapply Forall_lookup_1; eassumption..|].
  apply Forall_insert; [apply Forall_insert|]; assumption.
Qed.

Lemma keeps_bumpAll (karts : list Kart.t) :
  Forall P karts -> Forall P (bumpAll karts).
Proof.
  unfold bumpAll. generalize (seq 0 (length karts)). intros indices.
  revert karts. induction indices as [|i indices IH]; intros karts Hall;
    simpl; [exact Hall|].
  apply IH. unfold bumpRow. generalize (seq (S i) (length karts - S i)).
  intros js. revert karts Hall.
  induction js as [|j js IHj]; intros karts Hall; simpl; [exact Hall|].
  apply IHj, keeps_bump, Hall.
Qed.

Lemma keeps_calculatePositions (karts : list Kart.t) :
  Forall P karts -> Forall P (calculatePositions karts).
Proof.
  unfold calculatePositions. generalize (sortByProgress karts) 0%nat.
  intros sorted. revert karts.
  induction sorted as [|idx rest IH]; intros karts i Hall; simpl;
    [exact Hall|].
  apply IH, Forall_alter_keeps; [|exact Hall]. intros k. apply P_position.
Qed.

Lemma keeps_simulate (rnd : nat -> R) (dt : R) (w w' : World) :
  D dt -> simulate rnd dt w = Some w' ->
  Forall P (karts w) -> Forall P (karts w').
Proof.
  intros Hdt Hrun Hall.
  destruct (simulate_inv _ _ _ _ Hrun)
    as (_ & ks & karts1 & d1 & karts2 & d2 & p2 & Hphys & Hres & -> & _).
  apply keeps_updateKarts in Hphys; [|exact Hdt|exact Hall].
  apply keeps_resolveKarts in Hres; [|exact Hphys].
  apply keeps_calculatePositions, keeps_bumpAll, Hres.
Qed.

Lemma keeps_run (rnd : nat -> R) (dts : list R) (w : World) :
  Forall D dts -> wellFormed w -> Forall P (karts w) ->
  exists w', run rnd dts w = Some w' /\ Forall P (karts w').
Proof.
  intros Hdts. revert w.
  induction Hdts as [|dt dts Hdt Hdts IH]; intros w Hwf Hall; simpl.
  - exists w. split; [reflexivity | exact Hall].
  - destruct (simulate_total rnd dt w Hwf) as [w1 Hrun]. rewrite Hrun.
    apply IH.
    + eapply wellFormed_simulate; eassumption.
    + eapply keeps_simulate; eassumption.
Qed.

End TickInvariant.

(** ** The drift state stays in range *)

Lemma clamp_between (lo hi v : R) :
  lo <= hi -> lo <= Math.max lo (Math.min hi v) <= hi.
Proof.
  intros H. unfold Math.max, Math.min, Rmax, Rmin.
  repeat destruct Rle_dec; lra.
Qed.

Lemma offsetOk_drive (ks : Keys.t) (dt : R) (k : Kart.t) :
  offsetOk k -> offsetOk (drive ks dt k).
Proof.
  intros Hk. unfold offsetOk, drive, driftMechanics.
  change (Kart.driftAngleOffset (integrate ?a dt ?k1))
    with (Kart.driftAngleOffset k1).
  destruct (driftHeld ks (throttle ks dt k)).
  - unfold driftOn. simpl. apply clamp_between. lra.
  - unfold driftOff.
    change (Kart.driftAngleOffset (Kart.with_angle ?a ?k1))
      with (Kart.driftAngleOffset k1).
    destruct (Kart.drifting (throttle ks dt k)) eqn:Hdr.
    + destruct (releaseDrift_drifting _ Hdr) as (-> & _). lra.
    + unfold releaseDrift. rewrite Hdr.
      rewrite (view_throttle Kart.driftAngleOffset) by reflexivity. exact Hk.
Qed.

Lemma driftBoost_driftOn (ks : Keys.t) (dt : R) (k : Kart.t) :
  Kart.driftBoost (driftOn ks dt k)
  = Math.min CONFIG.DRIFT_BOOST_MAX
      (Kart.driftBoost k + CONFIG.DRIFT_BOOST_RATE * dt).
Proof. unfold driftOn. simpl. case_match; reflexivity. Qed.

Lemma chargeOk_drive (ks : Keys.t) (dt : R) (k : Kart.t) :
  0 <= dt -> chargeOk k -> chargeOk (drive ks dt k).
Proof.
  intros Hdt Hk. unfold chargeOk, drive, driftMechanics in *.
  change (Kart.driftBoost (integrate ?a dt ?k1)) with (Kart.driftBoost k1).
  pose proof (view_throttle Kart.driftBoost (fun _ _ => eq_refl) ks dt k)
    as Hthr.
  destruct (driftHeld ks (throttle ks dt k)).
  - rewrite driftBoost_driftOn, Hthr.
    unfold Math.min, Rmin, CONFIG.DRIFT_BOOST_MAX, CONFIG.DRIFT_BOOST_RATE
      in *.
    destruct Rle_dec; lra.
  - unfold driftOff.
    change (Kart.driftBoost (Kart.with_angle ?a ?k1))
      with (Kart.driftBoost k1).
    destruct (Kart.drifting (throttle ks dt k)) eqn:Hdr.
    + destruct (releaseDrift_drifting _ Hdr) as (_ & _ & -> & _).
      unfold CONFIG.DRIFT_BOOST_MAX. lra.
    + unfold releaseDrift. rewrite Hdr, Hthr. exact Hk.
Qed.

Lemma offset_update (dt : R) (k : Kart.t) :
  Kart.driftAngleOffset (Kart.update dt k) = Kart.driftAngleOffset k.
Proof. unfold Kart.update. repeat case_match; reflexivity. Qed.

Lemma charge_update (dt : R) (k : Kart.t) :
  Kart.driftBoost (Kart.update dt k) = Kart.driftBoost k.
Proof. unfold Kart.update. repeat case_match; reflexivity. Qed.

(** Discharges the hypotheses of [keeps_run] for a property that is read
    off a view [p] which the operation at hand does not touch. *)
Ltac by_view p :=
  intros;
  first
    [ assumption
    | match goal with
      | H : Track.checkCheckpoint _ _ _ _ _ = Some _ |- _ =>
          red; erewrite (view_checkCheckpoint p);
          [eassumption | reflexivity.. | exact H]
      end
    | red; rewrite (view_wallCollision p) by reflexivity; assumption
    | red; rewrite (view_driveAI p) by reflexivity; assumption
    | match goal with
      | |- _ (bumpPair ?k1 ?k2).1 /\ _ =>
          destruct (view_bumpPair p (fun _ _ => eq_refl) (fun _ _ => eq_refl)
                      (fun _ _ => eq_refl) k1 k2) as [?E1 ?E2];
          split; red; [rewrite E1 | rewrite E2]; assumption
      end ].

(** X1.  The slide of a drift stays within half a radian: from a race in
    which every [driftAngleOffset] is between -0.5 and 0.5, any run of ticks
    goes through and ends in such a race. *)
Theorem drift_offset_bounded (rnd : nat -> R) (dts : list R) (w : World) :
  wellFormed w -> Forall offsetOk (karts w) ->
  exists w', run rnd dts w = Some w' /\ Forall offsetOk (karts w').
Proof.
  intros Hwf Hall.
  apply (keeps_run offsetOk (fun _ => True)); try assumption;
    try by_view Kart.driftAngleOffset.
  - intros dt ks k _. apply offsetOk_drive.
  - intros dt k _ Hk. red. rewrite offset_update. exact Hk.
  - apply Forall_forall. trivial.
Qed.

Lemma drift_offset_bounded_witness :
  exists w',
    run (fun _ => 0) [1 / 60; 1 / 60] gridWorld = Some w'
    /\ Forall offsetOk (karts w').
Proof.
  apply (drift_offset_bounded (fun _ => 0) [1 / 60; 1 / 60] gridWorld
           gridWorld_wellFormed).
  for_each_kart; unfold offsetOk; simpl; lra.
Defined.

(** X2.  With frame times that are not negative the drift charge stays
    between 0 and DRIFT_BOOST_MAX through any run of ticks. *)
Theorem drift_charge_bounded (rnd : nat -> R) (dts : list R) (w : World) :
  Forall (fun dt => 0 <= dt) dts ->
  wellFormed w -> Forall chargeOk (karts w) ->
  exists w', run rnd dts w = Some w' /\ Forall chargeOk (karts w').
Proof.
  intros Hdts Hwf Hall.
  apply (keeps_run chargeOk (fun dt => 0 <= dt)); try assumption;
    try by_view Kart.driftBoost.
  - intros dt ks k. apply chargeOk_drive.
  - intros dt k _ Hk. red. rewrite charge_update. exact Hk.
Qed.

Lemma drift_charge_bounded_witness :
  exists w',
    run (fun _ => 0) [1 / 60; 1 / 60] gridWorld = Some w'
    /\ Forall chargeOk (karts w').
Proof.
  apply (drift_charge_bounded (fun _ => 0) [1 / 60; 1 / 60] gridWorld).
  - repeat constructor; lra.
  - exact gridWorld_wellFormed.
  - for_each_kart; unfold chargeOk, CONFIG.DRIFT_BOOST_MAX; simpl; lra.
Defined.

(** ** An effect that is on has time left *)

Lemma timersOk_effects (k k' : Kart.t) :
  effects k' = effects k -> timersOk k -> timersOk k'.
Proof.
  unfold effects, timersOk. intros [= -> -> -> -> -> ->]. tauto.
Qed.

Lemma timersOk_releaseDrift (k : Kart.t) :
  timersOk k -> timersOk (releaseDrift k).
Proof.
  unfold timersOk, releaseDrift, Kart.applyBoost.
  destruct (Kart.drifting k); [|tauto].
  destruct (Rgtb (Kart.driftBoost k) 30); simpl; [|tauto].
  unfold CONFIG.DRIFT_BOOST_DURATION. intros (_ & Hs & Hsh).
  repeat split; auto. lra.
Qed.

Lemma timersOk_drive (ks : Keys.t) (dt : R) (k : Kart.t) :
  timersOk k -> timersOk (drive ks dt k).
Proof.
  intros Hk. unfold drive, driftMechanics.
  apply (timersOk_effects
           (if driftHeld ks (throttle ks dt k)
            then driftOn ks dt (throttle ks dt k)
            else driftOff ks dt (throttle ks dt k))); [reflexivity|].
  assert (Hthr : timersOk (throttle ks dt k)).
  { apply (timersOk_effects k); [|exact Hk].
    apply view_throttle; reflexivity. }
  destruct (driftHeld ks (throttle ks dt k)).
  - apply (timersOk_effects (throttle ks dt k)); [|exact Hthr].
    apply view_driftOn; reflexivity.
  - unfold driftOff.
    apply (timersOk_effects (releaseDrift (throttle ks dt k)));
      [reflexivity|].
    apply timersOk_releaseDrift, Hthr.
Qed.

Lemma timersOk_update (dt : R) (k : Kart.t) :
  timersOk k -> timersOk (Kart.update dt k).
Proof.
  unfold timersOk, Kart.update, Rgtb. intros (Hb & Hs & Hsh).
  destruct (Rltb 0 (Kart.boostTimer k)) eqn:E1; simpl;
    [destruct (Rleb (Kart.boostTimer k - dt) 0) eqn:E1'; simpl|];
    (destruct (Rltb 0 (Kart.slowTimer k)) eqn:E2; simpl;
      [destruct (Rleb (Kart.slowTimer k - dt) 0) eqn:E2'; simpl|]);
    (destruct (Rltb 0 (Kart.shieldTimer k)) eqn:E3; simpl;
      [destruct (Rleb (Kart.shieldTimer k - dt) 0) eqn:E3'; simpl|]);
    destruct (Kart.drifting k); simpl;
    rewrite ?Rleb_gt, ?Rleb_le, ?Rltb_lt, ?Rltb_ge in *;
    repeat split; intros; try discriminate; auto; lra.
Qed.

(** X3.  An effect that is on has time left: through any run of ticks, a
    kart whose boost, slow or shield flag is set has a positive timer for
    it, if that held when the run began. *)
Theorem effect_flags_have_time (rnd : nat -> R) (dts : list R) (w : World) :
  wellFormed w -> Forall timersOk (karts w) ->
  exists w', run rnd dts w = Some w' /\ Forall timersOk (karts w').
Proof.
  intros Hwf Hall.
  assert (Hset : forall k k', effects k' = effects k ->
                              timersOk k -> timersOk k')
    by exact timersOk_effects.
  apply (keeps_run timersOk (fun _ => True)); try assumption.
  - intros dt ks k _. apply timersOk_drive.
  - intros dt i target pp karts k _. apply Hset.
    apply view_driveAI; reflexivity.
  - intros dt k _. apply timersOk_update.
  - intros o k. apply Hset. reflexivity.
  - intros k (_ & Hs & Hsh). unfold timersOk, CONFIG.BOOST_DURATION. simpl.
    repeat split; auto. lra.
  - intros k (Hb & Hs & _). unfold timersOk, CONFIG.SHIELD_DURATION. simpl.
    repeat split; auto. lra.
  - intros k (Hb & _ & Hsh). unfold timersOk, slowedBy, CONFIG.SLOW_DURATION.
    simpl. repeat split; auto. lra.
  - intros track k. apply Hset. apply view_wallCollision; reflexivity.
  - intros track raceTime k k' px py Hcp. apply Hset.
    eapply view_checkCheckpoint; try reflexivity. exact Hcp.
  - intros k1 k2 H1 H2.
    destruct (view_bumpPair effects (fun _ _ => eq_refl) (fun _ _ => eq_refl)
                (fun _ _ => eq_refl) k1 k2) as [E1 E2].
    split; eapply Hset; eassumption.
  - intros v k. apply Hset. reflexivity.
  - apply Forall_forall. trivial.
Qed.

Lemma effect_flags_have_time_witness :
  exists w',
    run (fun _ => 0) [1 / 60; 1 / 60] gridWorld = Some w'
    /\ Forall timersOk (karts w').
Proof.
  apply (effect_flags_have_time (fun _ => 0) [1 / 60; 1 / 60] gridWorld
           gridWorld_wellFormed).
  for_each_kart; unfold timersOk; simpl; repeat split; intros; discriminate.
Defined.

(** ** Items *)

(** X4.  [useItem] keeps the number of karts and takes the item from its
    user, whose slow state and race fields it leaves alone; it never touches
    a shielded kart other than the user, and only the slow item touches
    another kart at all. *)
Theorem useItem_consumes_and_spares (j : nat) (karts : list Kart.t)
    (kj : Kart.t) :
  karts !! j = Some kj ->
  length (useItem j karts) = length karts
  /\ (exists k',
        useItem j karts !! j = Some k' /\ Kart.item k' = None
        /\ Kart.slowed k' = Kart.slowed kj
        /\ Kart.slowTimer k' = Kart.slowTimer kj
        /\ race k' = race kj)
  /\ (forall i k, i <> j -> karts !! i = Some k -> Kart.shielded k = true ->
        useItem j karts !! i = Some k)
  /\ (forall i k, i <> j -> karts !! i = Some k ->
        Kart.item kj <> Some slow -> useItem j karts !! i = Some k).
Proof.
  intros Hj.
  assert (Hlt : (j < length karts)%nat) by (eapply lookup_lt_Some, Hj).
  split; [|split; [|split]].
  - unfold useItem. rewrite Hj.
    destruct (Kart.item kj) as [[| |]|];
      rewrite ?length_alter, ?length_imap, ?length_insert; reflexivity.
  - unfold useItem. rewrite Hj.
    destruct (Kart.item kj) as [[| |]|].
    + rewrite list_lookup_alter_eq, list_lookup_insert_eq by exact Hlt.
      eexists. split; [reflexivity|]. repeat split.
    + rewrite list_lookup_alter_eq, list_lookup_insert_eq by exact Hlt.
      eexists. split; [reflexivity|]. repeat split.
    + rewrite list_lookup_imap, list_lookup_insert_eq by exact Hlt. simpl.
      rewrite Nat.eqb_refl. simpl.
      eexists. split; [reflexivity|]. repeat split.
    + rewrite list_lookup_insert_eq by exact Hlt.
      eexists. split; [reflexivity|]. repeat split.
  - intros i k Hij Hi Hsh. rewrite (useItem_other j i karts kj k Hj Hij Hi).
    destruct (Kart.item kj) as [[| |]|]; try reflexivity.
    rewrite Hsh. reflexivity.
  - intros i k Hij Hi Hitem. rewrite (useItem_other j i karts kj k Hj Hij Hi).
    destruct (Kart.item kj) as [[| |]|]; try reflexivity. congruence.
Qed.

Lemma useItem_consumes_and_spares_witness :
  exists k',
    useItem 0 slowDuel !! 0%nat = Some k' /\ Kart.item k' = None
    /\ race k' = race (Kart.with_item (Some slow) (gridKart Track.new 0)).
Proof.
  destruct (useItem_consumes_and_spares 0 slowDuel
              (Kart.with_item (Some slow) (gridKart Track.new 0)) eq_refl)
    as (_ & (k' & Hk' & Hitem & _ & _ & Hrace) & _).
  exists k'. split; [exact Hk'|]. split; [exact Hitem | exact Hrace].
Defined.

(** ** Power-ups *)






Lemma floor_thirds (r : R) :
  0 <= r < 1 ->
  Math.floor (r * 3)
  = (if Rltb r (1 / 3) then 0 else if Rltb r (2 / 3) then 1 else 2)%Z.
Proof.
  intros Hr. unfold Math.floor. symmetry. apply Int_part_spec.
  destruct (Rltb r (1 / 3)) eqn:H1.
  - apply Rltb_lt in H1. simpl. lra.
  - apply Rltb_ge in H1. destruct (Rltb r (2 / 3)) eqn:H2.
    + apply Rltb_lt in H2. simpl. lra.
    + apply Rltb_ge in H2. simpl. lra.
Qed.

(** The item that [collect] returns for a draw in [0, 1). *)
Lemma collect_item (r : R) (p : PowerUp.t) :
  0 <= r < 1 ->
  (PowerUp.collect r p).2
  = Some (if Rltb r (1 / 3) then boost
          else if Rltb r (2 / 3) then shield else slow).
Proof.
  intros Hr. unfold PowerUp.collect. simpl.
  change (INR 3) with (INR 2 + 1). simpl INR.
  replace (r * (1 + 1 + 1)) with (r * 3) by lra.
  rewrite (floor_thirds r Hr).
  destruct (Rltb r (1 / 3)); [reflexivity|].
  destruct (Rltb r (2 / 3)); reflexivity.
Qed.



Lemma pickUp_holding (rnd : nat -> R) (powerUps : list PowerUp.t)
    (k : Kart.t) (draws : nat) :
  isSome (Kart.item k) = true ->
  pickUp rnd k draws powerUps = (k, draws, powerUps).
Proof.
  intros Hold. induction powerUps as [|powerUp rest IH]; simpl.
  - reflexivity.
  - rewrite Hold. destruct (negb (PowerUp.active powerUp)); simpl;
      rewrite IH; reflexivity.
Qed.

(** X7.  With draws in [0, 1) the power-up loop of one kart collects at most
    one power-up: it makes no draw or one draw, a kart that holds an item
    goes through it unchanged and so do the power-ups, a draw leaves the
    kart with an item, and the number of power-ups is kept. *)
Theorem pickUp_at_most_one (rnd : nat -> R) (powerUps : list PowerUp.t)
    (k : Kart.t) (draws : nat) :
  (forall n, 0 <= rnd n < 1) ->
  let '(k', draws', powerUps') := pickUp rnd k draws powerUps in
  (isSome (Kart.item k) = true ->
   k' = k /\ draws' = draws /\ powerUps' = powerUps)
  /\ (draws' = draws \/ draws' = S draws)%nat
  /\ (draws' = S draws -> isSome (Kart.item k') = true)
  /\ length powerUps' = length powerUps.
Proof.
  intros Hrnd. revert k draws.
  induction powerUps as [|powerUp rest IH]; intros k draws.
  { simpl. repeat split; auto. lia. }
  destruct (isSome (Kart.item k)) eqn:Hold.
  { rewrite pickUp_holding by exact Hold. repeat split; auto. }
  simpl. rewrite Hold.
  destruct (negb (PowerUp.active powerUp)); simpl.
  { specialize (IH k draws). rewrite Hold in IH.
    destruct (pickUp rnd k draws rest) as [[k' d'] r'].
    destruct IH as (_ & Hd & Hk & Hlen).
    split; [discriminate|]. split; [exact Hd|]. split; [exact Hk|].
    simpl. f_equal. exact Hlen. }
  destruct (Rltb _ _); simpl.
  - pose proof (collect_item (rnd draws) powerUp (Hrnd draws)) as Hitem.
    simpl in Hitem. rewrite Hitem.
    rewrite pickUp_holding by reflexivity.
    split; [discriminate|]. split; [right; reflexivity|].
    split; [reflexivity|]. reflexivity.
  - specialize (IH k draws). rewrite Hold in IH.
    destruct (pickUp rnd k draws rest) as [[k' d'] r'].
    destruct IH as (_ & Hd & Hk & Hlen).
    split; [discriminate|]. split; [exact Hd|]. split; [exact Hk|].
    simpl. f_equal. exact Hlen.
Qed.

Lemma pickUp_at_most_one_witness :
  let '(k', draws', powerUps') :=
    pickUp (fun _ => 0) (gridKart Track.new 0) 0 [PowerUp.new 0 0 0] in
  (isSome (Kart.item (gridKart Track.new 0)) = true ->
   k' = gridKart Track.new 0 /\ draws' = 0%nat
   /\ powerUps' = [PowerUp.new 0 0 0])
  /\ (draws' = 0 \/ draws' = 1)%nat
  /\ (draws' = 1%nat -> isSome (Kart.item k') = true)
  /\ length powerUps' = length [PowerUp.new 0 0 0].
Proof.
  apply (pickUp_at_most_one (fun _ => 0) [PowerUp.new 0 0 0]
           (gridKart Track.new 0) 0).
  intros n. lra.
Defined.

(** ** The nearest waypoint *)

Lemma nearestFrom_spec (x y : R) (all wps pre : list Waypoint)
    (acc : nat * option R) :
  all = pre ++ wps ->
  nearestSoFar x y all (length pre) acc ->
  nearestSoFar x y all (length all)
    (Track.nearestFrom x y wps (length pre) acc).
Proof.
  revert pre acc. induction wps as [|wp rest IH]; intros pre acc Hall Hinv.
  - simpl. rewrite app_nil_r in Hall. subst all. exact Hinv.
  - simpl. fold (wayDistance x y wp).
    assert (Hwp : all !! length pre = Some wp).
    { rewrite Hall. rewrite lookup_app_r by lia.
      rewrite Nat.sub_diag. reflexivity. }
    replace (S (length pre)) with (length (pre ++ [wp]))
      by (rewrite length_app; simpl; lia).
    apply IH; [rewrite Hall, <- app_assoc; reflexivity|].
    rewrite length_app. simpl. rewrite Nat.add_1_r.
    destruct Hinv as [[Hzero ->]|(wp0 & Hlt & Hlook & Hmin & Hall' & Hfirst)].
    + simpl. right. exists wp. simpl. rewrite Hzero in *.
      split; [lia|]. split; [exact Hwp|]. split; [reflexivity|].
      split; [|intros; lia].
      intros j wpj Hj Hlookj. assert (j = 0%nat) by lia. subst j.
      assert (wpj = wp) by congruence. subst. lra.
    + destruct acc as [n m]. simpl in *. subst m. simpl.
      destruct (Rltb (wayDistance x y wp) (wayDistance x y wp0)) eqn:Hcmp.
      * apply Rltb_lt in Hcmp. right. exists wp. simpl.
        split; [lia|]. split; [exact Hwp|]. split; [reflexivity|]. split.
        -- intros j wpj Hj Hlookj.
           destruct (decide (j = length pre)) as [->|Hne].
           ++ assert (wpj = wp) by congruence. subst. lra.
           ++ specialize (Hall' j wpj ltac:(lia) Hlookj). lra.
        -- intros j wpj Hj Hlookj.
           specialize (Hall' j wpj Hj Hlookj). lra.
      * apply Rltb_ge in Hcmp. right. exists wp0. simpl.
        split; [lia|]. split; [exact Hlook|]. split; [reflexivity|]. split.
        -- intros j wpj Hj Hlookj.
           destruct (decide (j = length pre)) as [->|Hne].
           ++ assert (wpj = wp) by congruence. subst. lra.
           ++ apply (Hall' j wpj); [lia | exact Hlookj].
        -- exact Hfirst.
Qed.

(** X8.  [getNearestWaypoint] returns the index of a waypoint that is at
    least as near to the point as every waypoint of the track, and the first
    such index; it returns 0 when the track has no waypoint. *)
Theorem nearest_waypoint_is_nearest (track : Track.t) (x y : R) :
  let n := Track.getNearestWaypoint track x y in
  (Track.waypoints track = [] -> n = 0%nat)
  /\ (Track.waypoints track <> [] ->
      exists wp,
        Track.waypoints track !! n = Some wp
        /\ (forall j wpj, Track.waypoints track !! j = Some wpj ->
              wayDistance x y wp <= wayDistance x y wpj)
        /\ (forall j wpj, (j < n)%nat ->
              Track.waypoints track !! j = Some wpj ->
              wayDistance x y wp < wayDistance x y wpj)).
Proof.
  intros n. unfold n, Track.getNearestWaypoint. split.
  - intros ->. reflexivity.
  - intros Hne.
    destruct (nearestFrom_spec x y (Track.waypoints track)
                (Track.waypoints track) [] (0%nat, None) eq_refl)
      as [[Hzero _]|(wp & Hlt & Hlook & _ & Hall & Hfirst)].
    { left. split; reflexivity. }
    { destruct (Track.waypoints track); [congruence | discriminate]. }
    simpl in *. exists wp. split; [exact Hlook|]. split; [|exact Hfirst].
    intros j wpj Hlookj. apply (Hall j wpj); [|exact Hlookj].
    eapply lookup_lt_Some, Hlookj.
Qed.

Lemma nearest_waypoint_is_nearest_witness :
  exists wp,
    Track.waypoints Track.new !! Track.getNearestWaypoint Track.new 400 80
      = Some wp
    /\ forall j wpj,
         Track.waypoints Track.new !! j = Some wpj ->
         wayDistance 400 80 wp <= wayDistance 400 80 wpj.
Proof.
  destruct (proj2 (nearest_waypoint_is_nearest Track.new 400 80))
    as (wp & Hwp & Hnear & _).
  - discriminate.
  - exists wp. split; [exact Hwp | exact Hnear].
Defined.

(** ** Ranking *)

Lemma ahead_asym (karts : list Kart.t) (a b : nat) :
  ahead karts a b -> ahead karts b a -> False.
Proof. unfold ahead. intros [H1|[H1 H1']] [H2|[H2 H2']]; try lra; lia. Qed.

Lemma insertByProgress_sorted (karts : list Kart.t) (j : nat)
    (sorted : list nat) :
  Forall (fun e => (e < j)%nat) sorted ->
  StronglySorted (ahead karts) sorted ->
  StronglySorted (ahead karts) (insertByProgress karts j sorted)
  /\ Permutation (j :: sorted) (insertByProgress karts j sorted).
Proof.
  intros Hlt Hsorted.
  induction Hsorted as [|e rest Hrest IH He]; simpl.
  - split; [repeat constructor | reflexivity].
  - apply Forall_cons in Hlt as [Hej Hlt].
    destruct (Rltb (progressAt karts e) (progressAt karts j)) eqn:Hcmp.
    + apply Rltb_lt in Hcmp. split; [|reflexivity].
      constructor; [constructor; assumption|].
      constructor; [left; exact Hcmp|].
      eapply Forall_impl; [exact He|]. intros x Hx. simpl in Hx.
      left. destruct Hx as [Hx|[Hx _]]; lra.
    + apply Rltb_ge in Hcmp. destruct (IH Hlt) as [Hs Hp]. split.
      * constructor; [exact Hs|].
        rewrite <- Hp. constructor; [|exact He].
        destruct (Rle_lt_or_eq_dec _ _ Hcmp) as [Hgt|Heq].
        -- left. exact Hgt.
        -- right. split; [symmetry; exact Heq | exact Hej].
      * rewrite <- Hp. apply perm_swap.
Qed.

Lemma sortByProgress_from (karts : list Kart.t) (n i : nat)
    (sorted : list nat) :
  StronglySorted (ahead karts) sorted -> Permutation (seq 0 i) sorted ->
  let sorted' :=
    fold_left (fun sorted j => insertByProgress karts j sorted) (seq i n)
      sorted in
  StronglySorted (ahead karts) sorted' /\ Permutation (seq 0 (i + n)) sorted'.
Proof.
  revert i sorted. induction n as [|n IH]; intros i sorted Hs Hp; simpl.
  - rewrite Nat.add_0_r. split; assumption.
  - destruct (insertByProgress_sorted karts i sorted) as [Hs' Hp'].
    { rewrite <- Hp. apply Forall_forall. intros e He.
      apply elem_of_seq in He. lia. }
    { exact Hs. }
    destruct (IH (S i) (insertByProgress karts i sorted) Hs') as [Hs'' Hp''].
    { rewrite <- Hp', <- Hp. replace (S i) with (i + 1)%nat by lia.
      rewrite seq_app. simpl. rewrite <- Permutation_cons_append.
      reflexivity. }
    split; [exact Hs''|].
    replace (i + S n)%nat with (S i + n)%nat by lia. exact Hp''.
Qed.

Lemma sortByProgress_spec (karts : list Kart.t) :
  StronglySorted (ahead karts) (sortByProgress karts)
  /\ Permutation (seq 0 (length karts)) (sortByProgress karts).
Proof.
  apply (sortByProgress_from karts (length karts) 0 []);
    [constructor | reflexivity].
Qed.

Lemma StronglySorted_lookup {A : Type} (R : A -> A -> Prop) (l : list A)
    (i j : nat) (x y : A) :
  StronglySorted R l -> (i < j)%nat -> l !! i = Some x -> l !! j = Some y ->
  R x y.
Proof.
  intros Hs. revert i j.
  induction Hs as [|a l Hl IH Ha]; intros i j Hij Hi Hj; [discriminate|].
  destruct j as [|j]; [lia|]. simpl in Hj. destruct i as [|i]; simpl in Hi.
  - injection Hi as <-. eapply Forall_lookup_1; eassumption.
  - eapply (IH i j); [lia | assumption..].
Qed.

Lemma assignPositions_other (sorted : list nat) (i : nat)
    (karts : list Kart.t) (idx : nat) :
  idx ∉ sorted -> assignPositions sorted i karts !! idx = karts !! idx.
Proof.
  revert i karts. induction sorted as [|e rest IH]; intros i karts Hnot;
    simpl; [reflexivity|].
  apply not_elem_of_cons in Hnot as [Hne Hnot].
  rewrite IH by exact Hnot. apply list_lookup_alter_ne. congruence.
Qed.

Lemma assignPositions_rank (sorted : list nat) (i : nat)
    (karts : list Kart.t) (r idx : nat) (k : Kart.t) :
  NoDup sorted -> sorted !! r = Some idx -> karts !! idx = Some k ->
  assignPositions sorted i karts !! idx
  = Some (Kart.with_position (Z.of_nat (i + r) + 1) k).
Proof.
  intros Hnd. revert i karts r.
  induction Hnd as [|e rest Hnot Hnd IH]; intros i karts r Hr Hk;
    [discriminate|].
  simpl. destruct r as [|r]; simpl in Hr.
  - injection Hr as ->. rewrite assignPositions_other by exact Hnot.
    rewrite list_lookup_alter_eq, Hk, Nat.add_0_r. reflexivity.
  - assert (Hne : e <> idx).
    { intros ->. apply Hnot. eapply list_elem_of_lookup_2, Hr. }
    rewrite (IH (S i) _ r Hr).
    + replace (S i + r)%nat with (i + S r)%nat by lia. reflexivity.
    + rewrite list_lookup_alter_ne by exact Hne. exact Hk.
Qed.

(** X9.  [calculatePositions] changes nothing but [position]; it gives every
    kart a position between 1 and the number of karts, and a better one to a
    kart with more progress and, at equal progress, to the one earlier in
    [game.karts]. *)
Theorem ranking_follows_progress (karts : list Kart.t) :
  length (calculatePositions karts) = length karts
  /\ (forall a ka, karts !! a = Some ka ->
        exists pos,
          calculatePositions karts !! a = Some (Kart.with_position pos ka)
          /\ (1 <= pos <= Z.of_nat (length karts))%Z)
  /\ (forall a b ka kb,
        calculatePositions karts !! a = Some ka ->
        calculatePositions karts !! b = Some kb ->
        ahead karts a b -> (Kart.position ka < Kart.position kb)%Z).
Proof.
  destruct (sortByProgress_spec karts) as [Hsorted Hperm].
  assert (Hnd : NoDup (sortByProgress karts)).
  { rewrite <- Hperm. apply NoDup_seq. }
  assert (Hrank : forall a ka, karts !! a = Some ka ->
            exists r, sortByProgress karts !! r = Some a
              /\ (r < length karts)%nat
              /\ calculatePositions karts !! a
                 = Some (Kart.with_position (Z.of_nat r + 1) ka)).
  { intros a ka Ha.
    assert (Hin : a ∈ sortByProgress karts).
    { rewrite <- Hperm. apply elem_of_seq.
      apply lookup_lt_Some in Ha. lia. }
    apply list_elem_of_lookup in Hin as [r Hr].
    exists r. split; [exact Hr|]. split.
    - apply lookup_lt_Some in Hr.
      rewrite <- (Permutation_length Hperm), length_seq in Hr. exact Hr.
    - unfold calculatePositions.
      rewrite (assignPositions_rank _ 0 karts r a ka Hnd Hr Ha).
      reflexivity. }
  split; [|split].
  - rewrite <- (length_fmap race (calculatePositions karts)),
      (view_calculatePositions race) by reflexivity.
    apply length_fmap.
  - intros a ka Ha. destruct (Hrank a ka Ha) as (r & _ & Hlt & Hlook).
    eexists. split; [exact Hlook|]. lia.
  - intros a b ka' kb' Ha' Hb' Hahead.
    assert (Hla : (a < length karts)%nat).
    { apply lookup_lt_Some in Ha'.
      rewrite <- (length_fmap race (calculatePositions karts)),
        (view_calculatePositions race), length_fmap in Ha' by reflexivity.
      exact Ha'. }
    assert (Hlb : (b < length karts)%nat).
    { apply lookup_lt_Some in Hb'.
      rewrite <- (length_fmap race (calculatePositions karts)),
        (view_calculatePositions race), length_fmap in Hb' by reflexivity.
      exact Hb'. }
    destruct (lookup_lt_is_Some_2 _ _ Hla) as [ka Ha].
    destruct (lookup_lt_is_Some_2 _ _ Hlb) as [kb Hb].
    destruct (Hrank a ka Ha) as (ra & Hra & _ & Hlooka).
    destruct (Hrank b kb Hb) as (rb & Hrb & _ & Hlookb).
    rewrite Hlooka in Ha'. rewrite Hlookb in Hb'.
    injection Ha' as <-. injection Hb' as <-. simpl.
    destruct (Nat.lt_trichotomy ra rb) as [Hlt|[Heq|Hgt]]; [lia| |].
    + exfalso. subst rb. assert (a = b) by congruence. subst b.
      eapply ahead_asym; eassumption.
    + exfalso. eapply ahead_asym; [exact Hahead|].
      eapply (StronglySorted_lookup _ _ rb ra); eassumption.
Qed.

(** ** Laps and the finish *)

Section RaceInvariant.

Context (P : Kart.t -> Prop).

Hypothesis P_race : forall k k', race k' = race k -> P k -> P k'.
Hypothesis P_progress : forall v k, P k -> P (Kart.with_totalProgress v k).
Hypothesis P_advance : forall raceTime k, P k -> P (Track.advance raceTime k).

Lemma keeps_run_race (rnd : nat -> R) (dts : list R) (w : World) :
  wellFormed w -> Forall P (karts w) ->
  exists w', run rnd dts w = Some w' /\ Forall P (karts w').
Proof.
  intros Hwf Hall.
  apply (keeps_run P (fun _ => True)); try assumption.
  - intros dt ks k _. apply P_race, race_drive.
  - intros dt i target pp karts k _. apply P_race, race_driveAI.
  - intros dt k _. apply P_race, race_update.
  - intros o k. apply P_race. reflexivity.
  - intros k. apply P_race. reflexivity.
  - intros k. apply P_race. reflexivity.
  - intros k. apply P_race. reflexivity.
  - intros track k. apply P_race. apply view_wallCollision; reflexivity.
  - intros track raceTime k k' px py Hcp Hk.
    destruct (checkCheckpoint_inv _ _ _ _ _ _ Hcp) as (c & k1 & _ & -> & ->).
    apply P_progress.
    destruct (Track.crosses k c); [apply P_advance, Hk | exact Hk].
  - intros k1 k2 H1 H2.
    destruct (view_bumpPair race (fun _ _ => eq_refl) (fun _ _ => eq_refl)
                (fun _ _ => eq_refl) k1 k2) as [E1 E2].
    split; [apply (P_race k1) | apply (P_race k2)]; assumption.
  - intros v k. apply P_race. reflexivity.
  - apply Forall_forall. trivial.
Qed.

End RaceInvariant.

Lemma guardOpen_advance (raceTime : R) (k : Kart.t) :
  guardOpen (Track.advance raceTime k).
Proof.
  unfold guardOpen, Track.advance. simpl.
  assert (Hne : Kart.checkpoint k
                <> Z.rem (Kart.checkpoint k + 1) CONFIG.CHECKPOINT_COUNT).
  { unfold CONFIG.CHECKPOINT_COUNT.
    pose proof (Z.quot_rem' (Kart.checkpoint k + 1) 4) as Hqr.
    pose proof (Z.rem_bound_abs (Kart.checkpoint k + 1) 4) as Habs.
    lia. }
  repeat case_match; simpl; exact Hne.
Qed.

Lemma finishedByLaps_advance (raceTime : R) (k : Kart.t) :
  finishedByLaps k -> finishedByLaps (Track.advance raceTime k).
Proof.
  unfold finishedByLaps, Track.advance. simpl. intros Hk.
  destruct (_ && _); simpl; [|exact Hk].
  destruct (Kart.lap k + 1 >=? CONFIG.TOTAL_LAPS)%Z eqn:Hlap; simpl.
  - apply Z.geb_le in Hlap.
    destruct (Kart.finished k) eqn:Hfin; simpl; rewrite ?Hfin; tauto.
  - rewrite Z.geb_leb in Hlap. apply Z.leb_gt in Hlap.
    split; [|lia]. intros Hfin. apply Hk in Hfin. lia.
Qed.

(** X10.  In a race that every kart began as [new Kart] leaves it, the guard
    [lastCheckpoint !== checkpoint] of [checkCheckpoint] never holds back a
    crossing: after any run of ticks the two fields differ for every kart. *)
Theorem checkpoint_guard_stays_open (rnd : nat -> R) (dts : list R)
    (w : World) :
  wellFormed w -> Forall guardOpen (karts w) ->
  exists w',
    run rnd dts w = Some w'
    /\ Forall guardOpen (karts w')
    /\ forall k c,
         k ∈ karts w' ->
         Track.crosses k c
         = Rltb (Math.hypot (Kart.x k - cp_x c) (Kart.y k - cp_y c)) 50.
Proof.
  intros Hwf Hall.
  destruct (keeps_run_race guardOpen) with (rnd := rnd) (dts := dts) (w := w)
    as (w' & Hrun & Hall'); try assumption.
  - unfold guardOpen, race. intros k k' [= _ -> -> _ _ _ _]. tauto.
  - intros v k Hk. exact Hk.
  - intros raceTime k _. apply guardOpen_advance.
  - exists w'. split; [exact Hrun|]. split; [exact Hall'|].
    intros k c Hk. unfold Track.crosses.
    assert (Hopen : guardOpen k).
    { rewrite Forall_forall in Hall'. apply Hall', Hk. }
    apply Z.eqb_neq in Hopen. rewrite Hopen. apply andb_true_r.
Qed.

Lemma checkpoint_guard_stays_open_witness :
  exists w',
    run (fun _ => 0) [1 / 60; 1 / 60] gridWorld = Some w'
    /\ Forall guardOpen (karts w').
Proof.
  destruct (checkpoint_guard_stays_open (fun _ => 0) [1 / 60; 1 / 60]
              gridWorld gridWorld_wellFormed) as (w' & Hrun & Hall & _).
  - for_each_kart; unfold guardOpen; simpl; lia.
  - exists w'. split; [exact Hrun | exact Hall].
Defined.

(** X11.  Through any run of ticks a kart is marked finished exactly when
    its lap counter has reached TOTAL_LAPS. *)
Theorem finished_iff_laps_done (rnd : nat -> R) (dts : list R) (w : World) :
  wellFormed w -> Forall finishedByLaps (karts w) ->
  exists w', run rnd dts w = Some w' /\ Forall finishedByLaps (karts w').
Proof.
  intros Hwf Hall.
  apply keeps_run_race; try assumption.
  - unfold finishedByLaps, race. intros k k' [= -> _ _ _ -> _ _]. tauto.
  - intros v k Hk. exact Hk.
  - intros raceTime k. apply finishedByLaps_advance.
Qed.

Lemma finished_iff_laps_done_witness :
  exists w',
    run (fun _ => 0) [1 / 60; 1 / 60] (reset (fun _ => 0) 0 gridWorld)
      = Some w'
    /\ Forall finishedByLaps (karts w').
Proof.
  apply (finished_iff_laps_done (fun _ => 0) [1 / 60; 1 / 60]
           (reset (fun _ => 0) 0 gridWorld)).
  - exact (proj1 (reset_wellFormed (fun _ => 0) 0 gridWorld)).
  - for_each_kart; unfold finishedByLaps, CONFIG.TOTAL_LAPS; simpl;
      (split; [discriminate | lia]).
Defined.

(** ** One tick of one kart's race fields *)

Lemma laps_race (k k' : Kart.t) : race k' = race k -> laps k' = laps k.
Proof. unfold race, laps. intros [= -> -> -> _ -> -> _]. reflexivity. Qed.

Lemma laps_one_tick (rnd : nat -> R) (dt : R) (w w' : World) (i : nat)
    (k : Kart.t) :
  simulate rnd dt w = Some w' -> karts w !! i = Some k ->
  exists k',
    karts w' !! i = Some k'
    /\ (laps k' = laps k \/ laps k' = laps (Track.advance (raceClock dt w) k)).
Proof.
  intros Hrun Hi.
  destruct (simulate_kart _ _ _ _ _ _ Hrun Hi)
    as (k1 & px & py & k2 & k' & H1 & Hcp & H2 & Hi').
  exists k'. split; [exact Hi'|].
  destruct (checkCheckpoint_inv _ _ _ _ _ _ Hcp) as (c & k3 & _ & -> & ->).
  apply laps_race in H1, H2. rewrite H2.
  change (laps (Kart.with_totalProgress ?v ?k0)) with (laps k0).
  destruct (Track.crosses k1 c); [right | left; exact H1].
  revert H1. unfold laps, Track.advance. simpl.
  intros [= E1 E2 E3 E4 E5]. rewrite ?E1, ?E2, ?E3, ?E4, ?E5.
  repeat case_match; simpl; rewrite ?E1, ?E2, ?E3, ?E4, ?E5; reflexivity.
Qed.

(** X12.  A kart that finishes in a tick is stamped with the race clock of
    that tick, and it finishes on the crossing that completes a lap: its
    target was the last checkpoint, its next target is the first one, and
    the lap counter went up by one to at least TOTAL_LAPS. *)
Theorem finish_stamp (rnd : nat -> R) (dt : R) (w w' : World) (i : nat)
    (k k' : Kart.t) :
  simulate rnd dt w = Some w' ->
  karts w !! i = Some k -> karts w' !! i = Some k' ->
  Kart.finished k = false -> Kart.finished k' = true ->
  Kart.finishTime k' = GameState.raceTime (gameState w')
  /\ Kart.finishTime k' = GameState.raceTime (gameState w) + dt
  /\ Kart.lap k' = (Kart.lap k + 1)%Z
  /\ (CONFIG.TOTAL_LAPS <= Kart.lap k')%Z
  /\ Kart.checkpoint k = (CONFIG.CHECKPOINT_COUNT - 1)%Z
  /\ Kart.checkpoint k' = 0%Z.
Proof.
  intros Hrun Hi Hi' Hnot Hfin.
  assert (Hclock : GameState.raceTime (gameState w')
                   = GameState.raceTime (gameState w) + dt).
  { unfold simulate in Hrun.
    destruct (updateKarts _ _ _ _ _ _) as [[[ks karts1] draws1]|];
      [|discriminate].
    destruct (handleCollisions _ _ _ _ _ _)
      as [[[karts2 draws2] powerUps2]|]; [|discriminate].
    destruct (findPlayer _ _); [|discriminate].
    injection Hrun as <-. simpl. case_match; reflexivity. }
  destruct (laps_one_tick _ _ _ _ _ _ Hrun Hi) as (k'' & Hi'' & Hlaps).
  assert (k'' = k') by congruence. subst k''.
  rewrite Hclock.
  destruct Hlaps as [Hlaps|Hlaps]; revert Hlaps; unfold laps.
  - intros [= _ _ _ E _]. congruence.
  - unfold Track.advance, raceClock. simpl. rewrite Hnot.
    destruct (Z.rem (Kart.checkpoint k + 1) CONFIG.CHECKPOINT_COUNT =? 0)%Z
      eqn:Hzero; simpl.
    2:{ intros [= _ _ _ E _]. congruence. }
    destruct (Kart.checkpoint k =? CONFIG.CHECKPOINT_COUNT - 1)%Z eqn:Hlast;
      simpl.
    2:{ intros [= _ _ _ E _]. congruence. }
    destruct (Kart.lap k + 1 >=? CONFIG.TOTAL_LAPS)%Z eqn:Hlap; simpl.
    2:{ intros [= _ _ _ E _]. congruence. }
    intros [= -> -> _ _ ->].
    apply Z.eqb_eq in Hzero, Hlast. apply Z.geb_le in Hlap.
    repeat split; try assumption; reflexivity.
Qed.

Lemma lap_one_tick (rnd : nat -> R) (dt : R) (w w' : World) (i : nat)
    (k : Kart.t) :
  simulate rnd dt w = Some w' -> karts w !! i = Some k ->
  exists k',
    karts w' !! i = Some k'
    /\ (Kart.lap k <= Kart.lap k' <= Kart.lap k + 1)%Z.
Proof.
  intros Hstep Hi.
  destruct (laps_one_tick _ _ _ _ _ _ Hstep Hi) as (k1 & Hi1 & Hlaps).
  exists k1. split; [exact Hi1|].
  destruct Hlaps as [Hlaps|Hlaps]; revert Hlaps; unfold laps.
  - intros [= -> _ _ _ _]. lia.
  - unfold Track.advance. simpl.
    repeat case_match; simpl; intros [= -> _ _ _ _]; lia.
Qed.

(** X13.  The lap counter of a kart never goes down, and goes up by at most
    one a tick. *)
Theorem laps_never_decrease (rnd : nat -> R) (dts : list R) (w : World)
    (i : nat) (k : Kart.t) :
  wellFormed w -> karts w !! i = Some k ->
  exists w' k',
    run rnd dts w = Some w'
    /\ karts w' !! i = Some k'
    /\ (Kart.lap k <= Kart.lap k' <= Kart.lap k + Z.of_nat (length dts))%Z.
Proof.
  revert w k. induction dts as [|dt dts IH]; intros w k Hwf Hi.
  - exists w, k. split; [reflexivity|]. split; [exact Hi|]. simpl. lia.
  - destruct (simulate_total rnd dt w Hwf) as [w1 Hstep].
    destruct (lap_one_tick _ _ _ _ _ _ Hstep Hi) as (k1 & Hi1 & Hone).
    destruct (IH w1 k1) as (w' & k' & Hrun & Hi' & Hle);
      [eapply wellFormed_simulate; eassumption | exact Hi1 |].
    exists w', k'. cbn [run]. rewrite Hstep.
    split; [exact Hrun|]. split; [exact Hi'|].
    cbn [length]. lia.
Qed.

Lemma laps_never_decrease_witness :
  exists w' k',
    run (fun _ => 0) [1 / 60; 1 / 60] gridWorld = Some w'
    /\ karts w' !! 0%nat = Some k'
    /\ (Kart.lap (gridKart Track.new 0) <= Kart.lap k'
        <= Kart.lap (gridKart Track.new 0) + 2)%Z.
Proof.
  apply (laps_never_decrease (fun _ => 0) [1 / 60; 1 / 60] gridWorld 0
           (gridKart Track.new 0) gridWorld_wellFormed).
  reflexivity.
Defined.

(** ** The wall and the track *)





Lemma getTrackDistance_stretch (a u t : R) :
  Track.getTrackDistance Track.new
    (CONFIG.TRACK_CENTER_X + cos a * (CONFIG.TRACK_RADIUS_X + u))
    (CONFIG.TRACK_CENTER_Y + sin a * (CONFIG.TRACK_RADIUS_Y + t))
  = sqrt ((cos a)² * (1 + u / 320)² + (sin a)² * (1 + t / 220)²).
Proof.
  unfold Track.getTrackDistance. simpl.
  unfold CONFIG.TRACK_RADIUS_X, CONFIG.TRACK_RADIUS_Y. f_equal.
  unfold Rsqr. field.
Qed.

(** X15.  The points that [new Track()] lays out: every checkpoint is on the
    centre line of the track, the first one on the start line, and every
    waypoint of the racing line is inside the corridor that the boundary
    block keeps the karts in. *)
Theorem track_points_in_corridor :
  (forall c, c ∈ Track.checkpoints Track.new ->
     Track.getTrackDistance Track.new (cp_x c) (cp_y c) = 1)
  /\ (forall c, Track.checkpoints Track.new !! 0%nat = Some c ->
        mkVec (cp_x c) (cp_y c) = Track.startLine Track.new)
  /\ (forall wp, wp ∈ Track.waypoints Track.new ->
        innerLimit Track.new
        <= Track.getTrackDistance Track.new (wp_x wp) (wp_y wp)
        <= outerLimit Track.new)
  /\ length (Track.waypoints Track.new) = 32%nat
  /\ length (Track.checkpoints Track.new) = Z.to_nat CONFIG.CHECKPOINT_COUNT.
Proof.
  split; [|split; [|split; [|split; reflexivity]]].
  - intros c Hc. apply list_elem_of_fmap in Hc as (i & -> & _). simpl.
    set (a := INR i / IZR CONFIG.CHECKPOINT_COUNT * PI * 2 - PI / 2).
    replace (cos a * CONFIG.TRACK_RADIUS_X)
      with (cos a * (CONFIG.TRACK_RADIUS_X + 0)) by ring.
    replace (sin a * CONFIG.TRACK_RADIUS_Y)
      with (sin a * (CONFIG.TRACK_RADIUS_Y + 0)) by ring.
    rewrite getTrackDistance_stretch.
    replace ((cos a)² * (1 + 0 / 320)² + (sin a)² * (1 + 0 / 220)²)
      with ((sin a)² + (cos a)²) by (unfold Rsqr; field).
    rewrite sin2_cos2. apply sqrt_1.
  - intros c [= <-]. simpl.
    match goal with
    | |- context [cos ?a] =>
        replace a with (- (PI / 2))
          by (simpl; unfold CONFIG.CHECKPOINT_COUNT; field)
    end.
    rewrite cos_neg, sin_neg, cos_PI2, sin_PI2. f_equal; ring.
  - intros wp Hwp. apply list_elem_of_fmap in Hwp as (i & -> & _).
    destruct Track_new_limits as [-> ->]. cbv zeta.
    set (a := INR i / INR Track.waypointCount * PI * 2 - PI / 2).
    set (v := sin (a * 3) * 15).
    cbn [wp_x wp_y]. rewrite getTrackDistance_stretch.
    assert (Hv : -15 <= v <= 15).
    { unfold v. pose proof (SIN_bound (a * 3)). lra. }
    pose proof (sin2_cos2 a) as Hunit.
    pose proof (Rle_0_sqr (cos a)) as Hc. pose proof (Rle_0_sqr (sin a)) as Hs.
    set (S := (cos a)² * (1 + v / 320)² + (sin a)² * (1 + v / 220)²).
    assert (Hu : 1 - 15 / 220 <= 1 + v / 320 <= 1 + 15 / 220) by lra.
    assert (Ht : 1 - 15 / 220 <= 1 + v / 220 <= 1 + 15 / 220) by lra.
    assert (Hu2 : (1 - 15 / 220)² <= (1 + v / 320)² <= (1 + 15 / 220)²).
    { split; apply Rsqr_incr_1; lra. }
    assert (Ht2 : (1 - 15 / 220)² <= (1 + v / 220)² <= (1 + 15 / 220)²).
    { split; apply Rsqr_incr_1; lra. }
    assert (HS : (1 - 15 / 220)² <= S <= (1 + 15 / 220)²).
    { unfold S. split; nra. }
    split.
    + apply Rle_trans with (1 - 15 / 220); [lra|].
      rewrite <- (sqrt_Rsqr (1 - 15 / 220)) by lra.
      apply sqrt_le_1_alt. tauto.
    + apply Rle_trans with (1 + 15 / 220); [|lra].
      rewrite <- (sqrt_Rsqr (1 + 15 / 220)) by lra.
      apply sqrt_le_1_alt. tauto.
Qed.

(** ** Kart against kart *)

Lemma sumOf_insert (f : Kart.t -> R) (karts : list Kart.t) (i : nat)
    (k k' : Kart.t) :
  karts !! i = Some k ->
  sumOf f (<[i := k']> karts) = sumOf f karts - f k + f k'.
Proof.
  revert i. induction karts as [|k0 karts IH]; intros [|i] Hi;
    try discriminate; simpl in *.
  - injection Hi as ->. lra.
  - rewrite (IH i Hi). lra.
Qed.

Section Conserved.

Context (f : Kart.t -> R).

Hypothesis f_bumpPair :
  forall k1 k2, f (bumpPair k1 k2).1 + f (bumpPair k1 k2).2 = f k1 + f k2.

Lemma sumOf_bump (i j : nat) (karts : list Kart.t) :
  i <> j -> sumOf f (bump i j karts) = sumOf f karts.
Proof.
  intros Hne. unfold bump.
  destruct (karts !! i) as [k1|] eqn:Hi; [|reflexivity].
  destruct (karts !! j) as [k2|] eqn:Hj; [|reflexivity].
  rewrite (sumOf_insert f _ j k2), (sumOf_insert f _ i k1);
    [| exact Hi | rewrite list_lookup_insert_ne by exact Hne; exact Hj].
  pose proof (f_bumpPair k1 k2). lra.
Qed.

Lemma sumOf_bumpAll (karts : list Kart.t) :
  sumOf f (bumpAll karts) = sumOf f karts.
Proof.
  unfold bumpAll. generalize (seq 0 (length karts)). intros indices.
  revert karts. induction indices as [|i indices IH]; intros karts;
    simpl; [reflexivity|].
  rewrite IH. unfold bumpRow.
  assert (Hjs : Forall (fun j => i <> j) (seq (S i) (length karts - S i))).
  { apply Forall_forall. intros j Hj. apply elem_of_seq in Hj. lia. }
  revert Hjs. generalize (seq (S i) (length karts - S i)). intros js.
  revert karts. induction js as [|j js IHj]; intros karts Hjs; simpl;
    [reflexivity|].
  apply Forall_cons in Hjs as [Hj Hjs].
  rewrite IHj by exact Hjs. apply sumOf_bump, Hj.
Qed.

End Conserved.

(** X16.  The kart-to-kart loop of [handleCollisions] conserves the sum of
    the speeds of the karts and the sums of their coordinates: what it takes
    from one kart of a pair it gives to the other. *)
Theorem bumps_conserve_speed_and_centroid (karts : list Kart.t) :
  sumOf Kart.speed (bumpAll karts) = sumOf Kart.speed karts
  /\ sumOf Kart.x (bumpAll karts) = sumOf Kart.x karts
  /\ sumOf Kart.y (bumpAll karts) = sumOf Kart.y karts
  /\ length (bumpAll karts) = length karts.
Proof.
  split; [|split; [|split]].
  - apply sumOf_bumpAll. intros k1 k2. unfold bumpPair.
    destruct (Rltb _ _); simpl; lra.
  - apply sumOf_bumpAll. intros k1 k2. unfold bumpPair.
    destruct (Rltb _ _); simpl; lra.
  - apply sumOf_bumpAll. intros k1 k2. unfold bumpPair.
    destruct (Rltb _ _); simpl; lra.
  - rewrite <- (length_fmap race (bumpAll karts)), (view_bumpAll race)
      by reflexivity.
    apply length_fmap.
Qed.

(** ** Headings *)

Lemma wrapDown_turn (fuel : nat) (a : R) :
  exists n : nat, wrapDown fuel a = a - INR n * (PI * 2).
Proof.
  revert a. induction fuel as [|fuel IH]; intros a; simpl.
  - exists 0%nat. simpl. lra.
  - destruct (Rgtb a PI); [|exists 0%nat; simpl; lra].
    destruct (IH (a - PI * 2)) as [n ->]. exists (S n).
    rewrite S_INR. lra.
Qed.

Lemma wrapUp_turn (fuel : nat) (a : R) :
  exists n : nat, wrapUp fuel a = a + INR n * (PI * 2).
Proof.
  revert a. induction fuel as [|fuel IH]; intros a; simpl.
  - exists 0%nat. simpl. lra.
  - destruct (Rltb a (- PI)); [|exists 0%nat; simpl; lra].
    destruct (IH (a + PI * 2)) as [n ->]. exists (S n).
    rewrite S_INR. lra.
Qed.

Lemma wrapDown_id (fuel : nat) (a : R) : a <= PI -> wrapDown fuel a = a.
Proof.
  intros Ha. destruct fuel; simpl; [reflexivity|].
  unfold Rgtb. destruct (Rltb PI a) eqn:Hgt; [|reflexivity].
  apply Rltb_lt in Hgt. lra.
Qed.

Lemma wrapUp_id (fuel : nat) (a : R) : - PI <= a -> wrapUp fuel a = a.
Proof.
  intros Ha. destruct fuel; simpl; [reflexivity|].
  destruct (Rltb a (- PI)) eqn:Hlt; [|reflexivity].
  apply Rltb_lt in Hlt. lra.
Qed.

(** X17.  The two normalisation loops of the AI step end with an angle
    between -PI and PI that points the same way as the one they began with,
    and leave an angle of that range as it is. *)
Theorem normalize_same_direction (a : R) :
  - PI <= normalize a <= PI
  /\ cos (normalize a) = cos a /\ sin (normalize a) = sin a
  /\ (- PI <= a <= PI -> normalize a = a)
  /\ normalize (normalize a) = normalize a.
Proof.
  pose proof (normalize_range a) as Hrange.
  assert (Hid : forall b, - PI <= b <= PI -> normalize b = b).
  { intros b [Hlo Hhi]. unfold normalize.
    rewrite (wrapDown_id _ b Hhi). apply wrapUp_id, Hlo. }
  split; [exact Hrange|].
  unfold normalize in *.
  destruct (wrapDown_turn (turns a) a) as [n Hn].
  destruct (wrapUp_turn (turns (wrapDown (turns a) a)) (wrapDown (turns a) a))
    as [m Hm].
  assert (Hback : a = wrapUp (turns (wrapDown (turns a) a))
                        (wrapDown (turns a) a)
                      - INR m * (PI * 2) + 2 * INR n * PI) by lra.
  set (b := wrapUp _ _) in *.
  split; [|split; [|split]].
  - rewrite Hback, cos_period.
    replace b with (b - INR m * (PI * 2) + 2 * INR m * PI) at 1 by lra.
    apply cos_period.
  - rewrite Hback, sin_period.
    replace b with (b - INR m * (PI * 2) + 2 * INR m * PI) at 1 by lra.
    apply sin_period.
  - intros Ha. apply (Hid a Ha).
  - apply (Hid b Hrange).
Qed.

Lemma Rabs_between (a b : R) : Rabs a <= b -> - b <= a <= b.
Proof. unfold Rabs. destruct (Rcase_abs a); lra. Qed.

Lemma sign_bounds (a : R) : -1 <= Math.sign a <= 1.
Proof. unfold Math.sign. repeat case_match; lra. Qed.

Lemma avoidOne_angle (i : nat) (dt kx ky : R) (acc : R * R) (j : nat)
    (other : Kart.t) :
  0 <= dt ->
  Rabs ((avoidOne i dt kx ky acc j other).1 - acc.1) <= 5 / 10 * dt.
Proof.
  intros Hdt. unfold avoidOne.
  destruct (j =? i)%nat; simpl.
  - rewrite Rminus_diag, Rabs_R0. lra.
  - destruct (Rltb _ 60).
    + match goal with |- context [Math.sign ?d] =>
        pose proof (sign_bounds d) as Hs; set (s := Math.sign d) in *
      end.
      apply Rabs_le. split; nra.
    + rewrite Rminus_diag, Rabs_R0. lra.
Qed.

Lemma avoidLoop_angle (i : nat) (dt kx ky : R) (others : list Kart.t)
    (j : nat) (acc : R * R) :
  0 <= dt ->
  Rabs ((avoidLoop i dt kx ky others j acc).1 - acc.1)
  <= 5 / 10 * dt * INR (length others).
Proof.
  intros Hdt. revert j acc.
  induction others as [|other rest IH]; intros j acc.
  - simpl. rewrite Rminus_diag, Rabs_R0. lra.
  - cbn [avoidLoop length]. rewrite S_INR.
    pose proof (IH (S j) (avoidOne i dt kx ky acc j other)) as Hrest.
    pose proof (avoidOne_angle i dt kx ky acc j other Hdt) as Hone.
    apply Rabs_between in Hrest, Hone. apply Rabs_le. lra.
Qed.

Lemma steerToward_angle (target : Waypoint) (dt : R) (k : Kart.t) :
  0 <= dt ->
  Rabs (Kart.angle (steerToward target dt k) - Kart.angle k)
  <= CONFIG.STEERING_BASE * (8 / 10) * dt.
Proof.
  intros Hdt. unfold steerToward, CONFIG.STEERING_BASE.
  case_match; simpl.
  - match goal with |- context [Math.sign ?d] =>
      pose proof (sign_bounds d) as Hs; set (s := Math.sign d) in *;
      pose proof (Rabs_pos d) as Hd; set (m := Math.abs d) in *
    end.
    assert (Hmin : 0 <= Math.min m (35 / 10 * (8 / 10) * dt)
                   <= 35 / 10 * (8 / 10) * dt).
    { unfold Math.min, Rmin, m, Math.abs in *. destruct Rle_dec; lra. }
    apply Rabs_le. split; nra.
  - rewrite Rminus_diag, Rabs_R0. lra.
Qed.

(** X18.  An AI kart never turns faster than the steering rate of its
    steering step plus half a radian a second for each kart of the avoidance
    loop. *)
Theorem ai_turn_rate (i : nat) (dt : R) (target : Waypoint) (pp : option R)
    (karts : list Kart.t) (k : Kart.t) :
  0 <= dt ->
  Rabs (Kart.angle (driveAI i dt target pp karts k) - Kart.angle k)
  <= (CONFIG.STEERING_BASE * (8 / 10) + 5 / 10 * INR (length karts)) * dt.
Proof.
  intros Hdt. unfold driveAI.
  rewrite (view_integrate Kart.angle), (view_ease Kart.angle)
    by reflexivity.
  cbn [Kart.angle Kart.with_angle]. unfold avoidance.
  pose proof (steerToward_angle target dt k Hdt) as Hsteer.
  set (k1 := steerToward target dt k) in *.
  pose proof (avoidLoop_angle i dt (Kart.x k1) (Kart.y k1) karts 0
                (Kart.angle k1, rubberBand k1 pp) Hdt) as Havoid.
  cbn [fst] in Havoid.
  apply Rabs_between in Hsteer, Havoid. apply Rabs_le. lra.
Qed.

Lemma ai_turn_rate_witness :
  Rabs (Kart.angle
          (driveAI 1 (1 / 60) (mkWaypoint 400 80 0) None slowDuel
             (gridKart Track.new 1))
        - Kart.angle (gridKart Track.new 1))
  <= (CONFIG.STEERING_BASE * (8 / 10) + 5 / 10 * INR (length slowDuel))
     * (1 / 60).
Proof.
  apply (ai_turn_rate 1 (1 / 60) (mkWaypoint 400 80 0) None slowDuel
           (gridKart Track.new 1)).
  lra.
Defined.

Lemma steerRateOf_bounds (k : Kart.t) :
  0 <= Kart.speed k <= topSpeed ->
  CONFIG.STEERING_BASE * (1 / 8) <= steerRateOf k <= CONFIG.STEERING_BASE.
Proof.
  unfold steerRateOf, topSpeed, CONFIG.STEERING_BASE, CONFIG.MAX_SPEED,
    CONFIG.DRIFT_BOOST_SPEED, CONFIG.STEERING_SPEED_FACTOR.
  intros H. lra.
Qed.

Lemma angle_drive (ks : Keys.t) (dt : R) (k : Kart.t) :
  exists grip,
    (grip = 7 / 10 \/ grip = 1)
    /\ Kart.angle (drive ks dt k)
       = Kart.angle k
         + IZR (steeringOf ks) * steerRateOf (throttle ks dt k) * grip * dt.
Proof.
  unfold drive. rewrite (view_integrate Kart.angle) by reflexivity.
  assert (Hthr : Kart.angle (throttle ks dt k) = Kart.angle k)
    by (apply view_throttle; reflexivity).
  unfold driftMechanics.
  destruct (driftHeld ks (throttle ks dt k)).
  - exists (7 / 10). split; [left; reflexivity|].
    unfold driftOn. cbn [Kart.angle Kart.with_speed Kart.with_angle].
    rewrite <- Hthr. f_equal. case_match; reflexivity.
  - exists 1. split; [right; reflexivity|].
    unfold driftOff. cbn [Kart.angle Kart.with_angle].
    rewrite (view_releaseDrift Kart.angle) by reflexivity.
    rewrite Hthr. ring.
Qed.

(** X19.  The player's steering never locks and never inverts: in a step the
    heading moves the way of the steering key, by at least an eighth of the
    base rate (less the grip of a drift) and at most the base rate, and it
    stays when no steering key is down. *)
Theorem player_steering (ks : Keys.t) (dt : R) (k : Kart.t) :
  0 <= dt ->
  let turn := Kart.angle (drive ks dt k) - Kart.angle k in
  Rabs turn <= CONFIG.STEERING_BASE * dt
  /\ (steeringOf ks = 1%Z ->
      CONFIG.STEERING_BASE * (1 / 8) * (7 / 10) * dt <= turn)
  /\ (steeringOf ks = (-1)%Z ->
      turn <= - (CONFIG.STEERING_BASE * (1 / 8) * (7 / 10) * dt))
  /\ (steeringOf ks = 0%Z -> turn = 0).
Proof.
  intros Hdt turn.
  destruct (angle_drive ks dt k) as (grip & Hgrip & Hangle).
  assert (Hrate : CONFIG.STEERING_BASE * (1 / 8)
                  <= steerRateOf (throttle ks dt k) <= CONFIG.STEERING_BASE).
  { apply steerRateOf_bounds.
    pose proof (speed_throttle ks dt k). pose proof (getMaxSpeed_bounds k).
    lra. }
  unfold turn. rewrite Hangle.
  set (rate := steerRateOf (throttle ks dt k)) in *.
  unfold CONFIG.STEERING_BASE in *.
  assert (Hsteer : steeringOf ks = 1%Z \/ steeringOf ks = (-1)%Z
                   \/ steeringOf ks = 0%Z).
  { unfold steeringOf. destruct (Keys.right ks), (Keys.left ks); tauto. }
  assert (Hg : 0 <= rate * grip * dt <= 35 / 10 * dt
               /\ 35 / 10 * (1 / 8) * (7 / 10) * dt <= rate * grip * dt).
  { destruct Hgrip as [-> | ->]; nra. }
  destruct Hsteer as [E|[E|E]]; rewrite E;
    (split; [apply Rabs_le|]); repeat split; intros; try discriminate;
    try lra.
Qed.

Lemma player_steering_witness :
  let turn :=
    Kart.angle (drive releaseKeys (1 / 60) chargedKart)
    - Kart.angle chargedKart in
  Rabs turn <= CONFIG.STEERING_BASE * (1 / 60)
  /\ (steeringOf releaseKeys = 1%Z ->
      CONFIG.STEERING_BASE * (1 / 8) * (7 / 10) * (1 / 60) <= turn)
  /\ (steeringOf releaseKeys = (-1)%Z ->
      turn <= - (CONFIG.STEERING_BASE * (1 / 8) * (7 / 10) * (1 / 60)))
  /\ (steeringOf releaseKeys = 0%Z -> turn = 0).
Proof.
  apply (player_steering releaseKeys (1 / 60) chargedKart). lra.
Defined.

(** ** The length of a step *)

Lemma spot_drive (ks : Keys.t) (dt : R) (k : Kart.t) :
  exists a,
    Kart.x (drive ks dt k)
    = Kart.x k + cos a * (Kart.speed (drive ks dt k) * (5 / 10) * dt)
    /\ Kart.y (drive ks dt k)
       = Kart.y k + sin a * (Kart.speed (drive ks dt k) * (5 / 10) * dt).
Proof.
  unfold drive.
  set (k1 := driftMechanics ks dt (throttle ks dt k)).
  assert (Hx : Kart.x k1 = Kart.x k).
  { unfold k1, driftMechanics.
    destruct (driftHeld _ _);
      [rewrite (view_driftOn Kart.x) | rewrite (view_driftOff Kart.x)];
      try reflexivity; apply view_throttle; reflexivity. }
  assert (Hy : Kart.y k1 = Kart.y k).
  { unfold k1, driftMechanics.
    destruct (driftHeld _ _);
      [rewrite (view_driftOn Kart.y) | rewrite (view_driftOff Kart.y)];
      try reflexivity; apply view_throttle; reflexivity. }
  exists (Kart.angle k1 + Kart.driftAngleOffset k1).
  unfold integrate. simpl. rewrite Hx, Hy. split; ring.
Qed.

Lemma spot_driveAI (i : nat) (dt : R) (target : Waypoint) (pp : option R)
    (karts : list Kart.t) (k : Kart.t) :
  exists a,
    Kart.x (driveAI i dt target pp karts k)
    = Kart.x k
      + cos a * (Kart.speed (driveAI i dt target pp karts k) * (5 / 10) * dt)
    /\ Kart.y (driveAI i dt target pp karts k)
       = Kart.y k
         + sin a
           * (Kart.speed (driveAI i dt target pp karts k) * (5 / 10) * dt).
Proof.
  unfold driveAI.
  remember (ease (avoidance i dt (steerToward target dt k) pp karts).2 dt
              (Kart.with_angle
                 (avoidance i dt (steerToward target dt k) pp karts).1
                 (steerToward target dt k))) as k1 eqn:Hk1.
  assert (Hx : Kart.x k1 = Kart.x k).
  { rewrite Hk1, (view_ease Kart.x) by reflexivity.
    cbn [Kart.x Kart.with_angle]. apply view_steerToward; reflexivity. }
  assert (Hy : Kart.y k1 = Kart.y k).
  { rewrite Hk1, (view_ease Kart.y) by reflexivity.
    cbn [Kart.y Kart.with_angle]. apply view_steerToward; reflexivity. }
  exists (Kart.angle k1).
  unfold integrate. simpl. rewrite Hx, Hy. split; ring.
Qed.

(** X20.  In a step of [dt] seconds a kart moves, in a straight line, half
    its new speed times [dt]: the velocity is half the speed.  With the
    clamp of the step that is at most half of [getMaxSpeed] times [dt]. *)
Theorem step_length (dt : R) (k : Kart.t) :
  0 <= dt ->
  (forall ks,
     separation k (drive ks dt k)
     = Kart.speed (drive ks dt k) * (5 / 10) * dt
     /\ separation k (drive ks dt k) <= Kart.getMaxSpeed k * (5 / 10) * dt)
  /\ (forall i target pp karts,
        separation k (driveAI i dt target pp karts k)
        = Kart.speed (driveAI i dt target pp karts k) * (5 / 10) * dt
        /\ separation k (driveAI i dt target pp karts k)
           <= Kart.getMaxSpeed k * (5 / 10) * dt).
Proof.
  intros Hdt.
  assert (Hgen : forall k' a,
            0 <= Kart.speed k' <= Kart.getMaxSpeed k ->
            Kart.x k' = Kart.x k + cos a * (Kart.speed k' * (5 / 10) * dt) ->
            Kart.y k' = Kart.y k + sin a * (Kart.speed k' * (5 / 10) * dt) ->
            separation k k' = Kart.speed k' * (5 / 10) * dt
            /\ separation k k' <= Kart.getMaxSpeed k * (5 / 10) * dt).
  { intros k' a Hspeed Hx Hy.
    assert (Hsep : separation k k' = Kart.speed k' * (5 / 10) * dt).
    { unfold separation. rewrite Hx, Hy.
      replace (Kart.x k + cos a * (Kart.speed k' * (5 / 10) * dt) - Kart.x k)
        with (cos a * (Kart.speed k' * (5 / 10) * dt)) by ring.
      replace (Kart.y k + sin a * (Kart.speed k' * (5 / 10) * dt) - Kart.y k)
        with (sin a * (Kart.speed k' * (5 / 10) * dt)) by ring.
      apply hypot_unit. nra. }
    split; [exact Hsep|]. rewrite Hsep. nra. }
  split.
  - intros ks. destruct (spot_drive ks dt k) as (a & Hx & Hy).
    apply (Hgen _ a); [apply speed_drive | exact Hx | exact Hy].
  - intros i target pp karts.
    destruct (spot_driveAI i dt target pp karts k) as (a & Hx & Hy).
    apply (Hgen _ a); [apply speed_driveAI | exact Hx | exact Hy].
Qed.

Lemma step_length_witness :
  (forall ks,
     separation chargedKart (drive ks (1 / 60) chargedKart)
     = Kart.speed (drive ks (1 / 60) chargedKart) * (5 / 10) * (1 / 60)
     /\ separation chargedKart (drive ks (1 / 60) chargedKart)
        <= Kart.getMaxSpeed chargedKart * (5 / 10) * (1 / 60))
  /\ (forall i target pp karts,
        separation chargedKart (driveAI i (1 / 60) target pp karts chargedKart)
        = Kart.speed (driveAI i (1 / 60) target pp karts chargedKart)
          * (5 / 10) * (1 / 60)
        /\ separation chargedKart
             (driveAI i (1 / 60) target pp karts chargedKart)
           <= Kart.getMaxSpeed chargedKart * (5 / 10) * (1 / 60)).
Proof.
  apply (step_length (1 / 60) chargedKart). lra.
Defined.

(** ** The key listeners *)

(** X21.  Releasing a key ends its action whatever was pressed before: a
    press followed by the release of the same key is the release alone, a
    press of a key that is down changes nothing, and a press and a release
    of two keys either commute or, when the two keys drive the same action,
    the release wins, as for W released while the up arrow is still held. *)
Theorem key_release_wins (c1 c2 : string) (ks : Keys.t) :
  keyup c1 (keydown c1 ks) = keyup c1 ks
  /\ keydown c1 (keydown c1 ks) = keydown c1 ks
  /\ (keyup c1 (keydown c2 ks) = keydown c2 (keyup c1 ks)
      \/ keyup c1 (keydown c2 ks) = keyup c1 ks)
  /\ Keys.up (keyup "KeyW" (keydown "ArrowUp" ks)) = false.
Proof.
  split; [|split; [|split]].
  - unfold keyup, keydown. repeat case_match; reflexivity.
  - unfold keydown. repeat case_match; reflexivity.
  - unfold keyup, keydown.
    repeat case_match; first [left; reflexivity | right; reflexivity].
  - reflexivity.
Qed.

(** ** The whole session *)

Lemma sound_update (rnd : nat -> R) (now dt : R) (w : World) :
  sound w -> exists w', update rnd now dt w = Some w' /\ sound w'.
Proof.
  intros [Hwf Hspeed]. unfold update.
  destruct (Rgtb _ 0).
  { eexists. split; [reflexivity|].
    split; [apply (wellFormed_same w); [reflexivity.. | exact Hwf]|].
    exact Hspeed. }
  destruct (negb _).
  { exists w. split; [reflexivity | split; assumption]. }
  destruct (simulate_total rnd dt w Hwf) as [w1 Hrun]. rewrite Hrun.
  destruct (_ && _).
  - eexists. split; [reflexivity|].
    destruct (reset_wellFormed rnd now w1) as (Hwf' & Hspeed' & _).
    split; [apply (wellFormed_same (reset rnd now w1));
              [reflexivity.. | exact Hwf']|].
    exact Hspeed'.
  - exists w1. split; [reflexivity|]. split.
    + eapply wellFormed_simulate; eassumption.
    + eapply speedOk_simulate; eassumption.
Qed.

Lemma sound_dispatch (rnd : nat -> R) (e : Event) (w : World) :
  sound w -> exists w', dispatch rnd e w = Some w' /\ sound w'.
Proof.
  intros [Hwf Hspeed]. destruct e as [currentTime now|code|code]; simpl.
  - apply sound_update. split; [|exact Hspeed].
    apply (wellFormed_same w); [reflexivity.. | exact Hwf].
  - eexists. split; [reflexivity|]. split; [|exact Hspeed].
    apply (wellFormed_same w); [reflexivity.. | exact Hwf].
  - eexists. split; [reflexivity|]. split; [|exact Hspeed].
    apply (wellFormed_same w); [reflexivity.. | exact Hwf].
Qed.

Lemma sound_play (rnd : nat -> R) (events : list Event) (w : World) :
  sound w -> exists w', play rnd events w = Some w' /\ sound w'.
Proof.
  revert w. induction events as [|e events IH]; intros w Hw; simpl.
  - exists w. split; [reflexivity | exact Hw].
  - destruct (sound_dispatch rnd e w Hw) as (w1 & -> & Hw1).
    apply IH, Hw1.
Qed.

(** X22.  Once [reset] has run, no sequence of animation frames and key
    events makes the engine read an undefined checkpoint, waypoint or player
    kart, restarts included; and at the end of it every speed is between 0
    and the largest [getMaxSpeed]. *)
Theorem session_never_throws (rnd : nat -> R) (now : R) (w : World)
    (events : list Event) :
  exists w',
    play rnd events (reset rnd now w) = Some w'
    /\ wellFormed w' /\ Forall speedOk (karts w').
Proof.
  apply sound_play.
  destruct (reset_wellFormed rnd now w) as (Hwf & Hspeed & _).
  split; assumption.
Qed.

Lemma countdown_dispatch (rnd : nat -> R) (e : Event) (w : World) :
  match e with frame _ _ => 5 / 100 | _ => 0 end
    < GameState.countdown (gameState w) ->
  exists w',
    dispatch rnd e w = Some w'
    /\ karts w' = karts w /\ powerUps w' = powerUps w
    /\ GameState.raceTime (gameState w') = GameState.raceTime (gameState w)
    /\ GameState.running (gameState w') = GameState.running (gameState w)
    /\ GameState.countdown (gameState w)
       - match e with frame _ _ => 5 / 100 | _ => 0 end
       <= GameState.countdown (gameState w').
Proof.
  intros Hc. destruct e as [currentTime now|code|code]; simpl.
  - unfold loop, update. simpl.
    set (dt := Math.min ((currentTime - lastTime w) / 1000) (5 / 100)).
    assert (Hdt : dt <= 5 / 100) by apply Rmin_r.
    assert (Hpos : Rgtb (GameState.countdown (gameState w)) 0 = true).
    { apply Rltb_lt. lra. }
    rewrite Hpos.
    assert (Hleft : Rleb (GameState.countdown (gameState w) - dt) 0 = false).
    { apply Rleb_gt. lra. }
    rewrite Hleft. eexists. split; [reflexivity|]. simpl.
    repeat split; try reflexivity. lra.
  - eexists. split; [reflexivity|]. simpl. repeat split; try reflexivity. lra.
  - eexists. split; [reflexivity|]. simpl. repeat split; try reflexivity. lra.
Qed.

(** X23.  The countdown holds the grid: a frame takes at most 50 ms off the
    countdown, so while the frames played are fewer than the countdown
    divided by 50 ms (60 frames after [reset]) the karts, the power-ups, the
    race clock and the running flag are as they were, whatever the
    timestamps and the keys. *)
Theorem countdown_holds_the_grid (rnd : nat -> R) (events : list Event)
    (w : World) :
  INR (framesIn events) * (5 / 100) < GameState.countdown (gameState w) ->
  exists w',
    play rnd events w = Some w'
    /\ karts w' = karts w /\ powerUps w' = powerUps w
    /\ GameState.raceTime (gameState w') = GameState.raceTime (gameState w)
    /\ GameState.running (gameState w') = GameState.running (gameState w)
    /\ 0 < GameState.countdown (gameState w').
Proof.
  revert w. induction events as [|e events IH]; intros w Hc.
  - exists w. simpl in *. split; [reflexivity|].
    repeat split; try reflexivity. lra.
  - assert (Hrest : 0 <= INR (framesIn events) * (5 / 100)).
    { apply Rmult_le_pos; [apply pos_INR | lra]. }
    assert (Hsplit : INR (framesIn (e :: events)) * (5 / 100)
                     = match e with frame _ _ => 5 / 100 | _ => 0 end
                       + INR (framesIn events) * (5 / 100)).
    { destruct e; cbn [framesIn]; rewrite ?S_INR; lra. }
    rewrite Hsplit in Hc.
    destruct (countdown_dispatch rnd e w) as (w1 & Hstep & Hk & Hp & Ht & Hr & Hcd);
      [lra|].
    destruct (IH w1) as (w' & Hplay & Hk' & Hp' & Ht' & Hr' & Hcd'); [lra|].
    exists w'. cbn [play]. rewrite Hstep.
    split; [exact Hplay|]. repeat split; congruence.
Qed.

Lemma countdown_holds_the_grid_witness :
  exists w',
    play (fun _ => 0) [frame 16 16; keydownEvent "ArrowUp"; frame 33 33]
      (reset (fun _ => 0) 0 gridWorld) = Some w'
    /\ karts w' = karts (reset (fun _ => 0) 0 gridWorld)
    /\ GameState.running (gameState w') = false
    /\ 0 < GameState.countdown (gameState w').
Proof.
  destruct (countdown_holds_the_grid (fun _ => 0)
              [frame 16 16; keydownEvent "ArrowUp"; frame 33 33]
              (reset (fun _ => 0) 0 gridWorld))
    as (w' & Hplay & Hkarts & _ & _ & Hrunning & Hcount).
  - simpl. lra.
  - exists w'. split; [exact Hplay|]. split; [exact Hkarts|].
    split; [exact Hrunning | exact Hcount].
Defined.

(** ** A kart that finishes *)

(** A kart at rest whose driver does not accelerate stays where it is. *)
Lemma drive_at_rest (ks : Keys.t) (dt : R) (k : Kart.t) :
  0 <= dt -> Keys.up ks = false -> Kart.speed k = 0 ->
  Kart.speed (drive ks dt k) = 0
  /\ Kart.x (drive ks dt k) = Kart.x k /\ Kart.y (drive ks dt k) = Kart.y k.
Proof.
  intros Hdt Hup Hs.
  assert (H0 : Kart.speed (drive ks dt k) = 0).
  { unfold drive, driftMechanics.
    change (Kart.speed (integrate ?a dt ?k1)) with (Kart.speed k1).
    assert (Hthr : Kart.speed (throttle ks dt k) = 0).
    { pose proof (getMaxSpeed_bounds k) as Hm.
      unfold throttle. rewrite Hup.
      destruct (Keys.down ks); simpl; rewrite Hs;
        unfold Math.max, Math.min, Rmax, Rmin, CONFIG.BRAKE_POWER,
          CONFIG.DECELERATION;
        repeat destruct Rle_dec; nra. }
    assert (Hheld : driftHeld ks (throttle ks dt k) = false).
    { unfold driftHeld. rewrite Hthr.
      assert (Hslow : Rgtb 0 50 = false) by (apply Rltb_ge; lra).
      rewrite Hslow, andb_false_r. reflexivity. }
    rewrite Hheld, speed_driftOff. exact Hthr. }
  destruct (spot_drive ks dt k) as (a & Hx & Hy). rewrite H0 in Hx, Hy.
  split; [exact H0|]. split; lra.
Qed.

Lemma Track_new_checkpoint_3 :
  nthZ (Track.checkpoints Track.new) 3
  = Some (mkCheckpoint (CONFIG.TRACK_CENTER_X + cos PI * CONFIG.TRACK_RADIUS_X)
            (CONFIG.TRACK_CENTER_Y + sin PI * CONFIG.TRACK_RADIUS_Y) PI 3).
Proof.
  unfold nthZ. simpl.
  replace ((1 + 1 + 1) / IZR CONFIG.CHECKPOINT_COUNT * PI * 2 - PI / 2)
    with PI by (unfold CONFIG.CHECKPOINT_COUNT; lra).
  reflexivity.
Qed.

Lemma lastLapKart_finishes :
  exists w' k',
    simulate (fun _ => 0) (1 / 60) lastLapWorld = Some w'
    /\ karts w' !! 0%nat = Some k' /\ Kart.finished k' = true.
Proof.
  set (k1 := Kart.update (1 / 60) (drive noKeys (1 / 60) lastLapKart)).
  destruct (drive_at_rest noKeys (1 / 60) lastLapKart) as (_ & Hx & Hy);
    [lra | reflexivity | reflexivity |].
  destruct (place_update (1 / 60) (drive noKeys (1 / 60) lastLapKart))
    as (Hx1 & Hy1 & _).
  assert (Hrace : race k1 = race lastLapKart).
  { unfold k1. rewrite race_update. apply race_drive. }
  fold k1 in Hx1, Hy1. rewrite Hx in Hx1. rewrite Hy in Hy1.
  change (Kart.x lastLapKart) with 80 in Hx1.
  change (Kart.y lastLapKart) with 300 in Hy1.
  assert (Hon : offCorridor Track.new k1 = false).
  { destruct Track_new_limits as [Hin Hout].
    unfold offCorridor, Rgtb, Track.getTrackDistance.
    rewrite Hx1, Hy1, Hin, Hout. simpl.
    unfold CONFIG.TRACK_CENTER_X, CONFIG.TRACK_CENTER_Y,
      CONFIG.TRACK_RADIUS_X, CONFIG.TRACK_RADIUS_Y.
    replace ((80 - 400) / 320 * ((80 - 400) / 320)
             + (300 - 300) / 220 * ((300 - 300) / 220)) with 1 by lra.
    rewrite sqrt_1. apply orb_false_iff. split; apply Rltb_ge; lra. }
  destruct (handleCollisions_single (fun _ => 0) Track.new (90 + 1 / 60) 0 k1)
    as (k2 & Hrun & Hcp).
  { unfold checkpointOk. rewrite (race_checkpoint _ _ Hrace). simpl. lia. }
  unfold wallCollision in Hcp. rewrite Hon in Hcp.
  eexists. exists (Kart.with_position 1 k2).
  split; [|split].
  - unfold simulate.
    change (karts lastLapWorld) with [lastLapKart].
    change (track lastLapWorld) with Track.new.
    change (findPlayer [lastLapKart] 0) with (Some 0%nat).
    change (seq 0 (length [lastLapKart])) with [0%nat].
    change (keys lastLapWorld) with noKeys.
    change (draws lastLapWorld) with 0%nat.
    rewrite updateKarts_single_player by reflexivity.
    fold k1.
    change (powerUps lastLapWorld) with (@nil PowerUp.t).
    cbv zeta.
    change (gameState lastLapWorld) with (GameState.mk true 0 90 false None).
    cbn [GameState.raceTime GameState.running GameState.countdown
         GameState.finished GameState.winner].
    rewrite Hrun. reflexivity.
  - reflexivity.
  - change (Kart.finished (Kart.with_position 1 k2)) with (Kart.finished k2).
    destruct (checkCheckpoint_inv _ _ _ _ _ _ Hcp) as (c & k3 & Hc & Hk3 & ->).
    change (Kart.finished (Kart.with_totalProgress ?v k3))
      with (Kart.finished k3).
    rewrite (race_checkpoint _ _ Hrace) in Hc.
    change (Kart.checkpoint lastLapKart) with 3%Z in Hc.
    rewrite Track_new_checkpoint_3 in Hc. injection Hc as <-.
    assert (Hcross : Track.crosses k1
                       (mkCheckpoint
                          (CONFIG.TRACK_CENTER_X + cos PI * CONFIG.TRACK_RADIUS_X)
                          (CONFIG.TRACK_CENTER_Y + sin PI * CONFIG.TRACK_RADIUS_Y)
                          PI 3) = true).
    { unfold Track.crosses. cbn [cp_x cp_y]. rewrite Hx1, Hy1, cos_PI, sin_PI.
      unfold CONFIG.TRACK_CENTER_X, CONFIG.TRACK_CENTER_Y,
        CONFIG.TRACK_RADIUS_X, CONFIG.TRACK_RADIUS_Y.
      replace (80 - (400 + -1 * 320)) with 0 by lra.
      replace (300 - (300 + 0 * 220)) with 0 by lra.
      rewrite hypot_origin.
      revert Hrace. unfold race. intros [= _ -> -> _ _ _ _]. simpl.
      apply andb_true_iff. split; [apply Rltb_lt; lra | reflexivity]. }
    rewrite Hcross in Hk3. rewrite Hk3.
    revert Hrace. unfold race, Track.advance. simpl.
    intros [= -> -> _ _ -> _ _]. reflexivity.
Qed.

Lemma finish_stamp_witness :
  exists w' k',
    simulate (fun _ => 0) (1 / 60) lastLapWorld = Some w'
    /\ karts w' !! 0%nat = Some k'
    /\ Kart.finishTime k' = 90 + 1 / 60 /\ Kart.lap k' = 3%Z.
Proof.
  destruct lastLapKart_finishes as (w' & k' & Hrun & Hk' & Hfin).
  exists w', k'. split; [exact Hrun|]. split; [exact Hk'|].
  destruct (finish_stamp (fun _ => 0) (1 / 60) lastLapWorld w' 0 lastLapKart
              k' Hrun eq_refl Hk' eq_refl Hfin) as (_ & Htime & Hlap & _).
  split; [exact Htime | exact Hlap].
Defined.
